(** * react-elm: the [useElmish] dispatch loop

    A shallow embedding of [src/useElmish.ts]: the closure variables of the
    hook ([reentered], [buffer], [currentModel], [initializedModel]), the
    memoised [dispatch] and [execCmd] callbacks, [callUpdate] and
    [callUpdateMap], and the host's state cell and effect hook.

    Application code ([update] handlers, command effects) is a [Script]: the
    calls it makes to the dispatcher, ended by a [Return] or a [Throw].  The
    hook threads one mutable [State] and may raise, so the code lives in a
    small state-and-exception monad [M]; the [while] loop of [dispatch] takes
    fuel.  Every call across the hook's boundary is recorded in [trace]. *)

From Stdlib Require Import ZArith.
From stdpp Require Import base option list strings gmap.

(** ** Data model *)

(** The primitive values a property, a payload or a [throw] can hold;
    [VNull] also stands for [undefined].  Strings are made of one-byte
    characters. *)
Inductive Val :=
| VNull
| VBool (b : bool)
| VNum (z : Z)
| VStr (s : string).

#[global] Instance Val_eq_dec : EqDecision Val.
Proof. solve_decision. Defined.

(** JavaScript compares objects by reference ([!==]).  An object carries the
    identity it was allocated with: [OLib n] for the n-th object the hook
    builds (object literals and spreads), [OApp n] for objects built by
    application code.  A primitive value is identical to no object: it
    compares by what it is, [OPrim v]. *)
Inductive Oid :=
| OApp (n : nat)
| OLib (n : nat)
| OPrim (v : Val).

#[global] Instance Oid_eq_dec : EqDecision Oid.
Proof. solve_decision. Defined.

(** A model object: its identity and its own enumerable properties. *)
Record JsObj := mkObj {
  oid : Oid;
  fields : gmap string Val
}.

(** [MessageBase]: a message carries its [name] tag. *)
Record Msg := mkMsg {
  msg_name : string;
  msg_payload : Val
}.

(** What a [catch (ex: unknown)] can receive: one of the runtime's
    [TypeError]s -- for a call of what is no function, for destructuring
    what cannot be iterated, for [Object.getOwnPropertyNames(undefined)] --
    or a value thrown by application code. *)
Inductive Exn :=
| TypeError_not_a_function (property : string)
| TypeError_not_iterable
| TypeError_not_an_object
| Thrown (e : Val).

(** Application code, as seen from the hook: [Call m k] is [dispatch(m); k]. *)
Inductive Script (A : Type) :=
| Return (a : A)
| Throw (ex : Exn)
| Call (m : Msg) (k : Script A).
Arguments Return {A} a.
Arguments Throw {A} ex.
Arguments Call {A} m k.

Fixpoint script_map {A B} (f : A -> B) (p : Script A) : Script B :=
  match p with
  | Return a => Return (f a)
  | Throw ex => Throw ex
  | Call m k => Call m (script_map f k)
  end.

(** [Cmd<TMessage>]: a list of effect functions [(dispatch) => void]. *)
Definition Effect := Script unit.
Definition Cmd := list Effect.

(** [UpdateReturnType]: [[Partial<TModel>, Cmd?]]. *)
Definition UpdateReturnType := (JsObj * option Cmd)%type.

(** The component's props. *)
Definition Props := gmap string Val.

(** [UpdateFunction]: [(model, msg, props) => UpdateReturnType];
    an [UpdateMap] entry: [(msg, model, props) => UpdateReturnType]. *)
Definition UpdateFunction := JsObj -> Msg -> Props -> Script UpdateReturnType.
Definition UpdateMapHandler := Msg -> JsObj -> Props -> Script UpdateReturnType.

(** What a call of the update logic hands back at run time: the two-element
    array the types promise or, from a member that a handler map only
    inherits, a primitive value or an object that cannot be iterated. *)
Inductive Returned :=
| Tuple (r : UpdateReturnType)
| Primitive (v : Val)
| AnObject.

(** A member a handler map inherits, called the way a handler is. *)
Definition Member := Msg -> JsObj -> Props -> Script Returned.

(** [UpdateMap]: an object.  Its own properties are the handlers; what else
    [updateMap[name]] finds, it finds on the object's prototype chain. *)
Record UpdateMapObject := mkUpdateMap {
  handlers : gmap string UpdateMapHandler;
  inherited : gmap string Member
}.

(** [updateMap[name]]: the own property, or else the inherited one. *)
Definition property (updateMap : UpdateMapObject) (name : string)
    : option Member :=
  match handlers updateMap !! name with
  | Some handler =>
      Some (fun msg model props => script_map Tuple (handler msg model props))
  | None => inherited updateMap !! name
  end.

(** [update]: a function, or a map from message names to handlers. *)
Inductive Update :=
| UpdateFn (f : UpdateFunction)
| UpdateMap (updateMap : UpdateMapObject).

(** [Object.prototype], the prototype of a handler map written as an object
    literal: its members that can be called, and what the call
    [member(msg, model, props)] on the map hands back, [msg] and [model]
    being plain objects and the map having no handler named [toString]
    (which [toLocaleString] calls).  [toString] gives the string
    [[object Object]]; [valueOf] the map and [constructor] the message,
    objects without an iterator; the three tests a boolean; the two
    look-ups [undefined]; the two definers throw, [model] being no
    function.  [__proto__] is inherited as well, but it is an object:
    calling it is calling what is no function, as for a name that is not
    found at all. *)
Definition Object_prototype : gmap string Member :=
  list_to_map
    [ ("toString"%string,
        fun _ _ _ => Return (Primitive (VStr "[object Object]")));
      ("toLocaleString"%string,
        fun _ _ _ => Return (Primitive (VStr "[object Object]")));
      ("valueOf"%string, fun _ _ _ => Return AnObject);
      ("constructor"%string, fun _ _ _ => Return AnObject);
      ("hasOwnProperty"%string, fun _ _ _ => Return (Primitive (VBool false)));
      ("isPrototypeOf"%string, fun _ _ _ => Return (Primitive (VBool false)));
      ("propertyIsEnumerable"%string,
        fun _ _ _ => Return (Primitive (VBool false)));
      ("__lookupGetter__"%string, fun _ _ _ => Return (Primitive VNull));
      ("__lookupSetter__"%string, fun _ _ _ => Return (Primitive VNull));
      ("__defineGetter__"%string,
        fun _ _ _ => Throw (TypeError_not_a_function "getter"));
      ("__defineSetter__"%string,
        fun _ _ _ => Throw (TypeError_not_a_function "setter")) ].

(** What [cmd] is bound to by [const [newModel, cmd] = ...]: an array of
    effect functions, [undefined], or a value that is neither. *)
Inductive CmdSlot :=
| ACmd (cmd : Cmd)
| NoCmd
| NotACmd.

Definition slot (cmd : option Cmd) : CmdSlot :=
  match cmd with
  | Some cmd => ACmd cmd
  | None => NoCmd
  end.

(** A one-character string taken for a partial model: it is identical to no
    object, and spreading it gives the property [0]. *)
Definition character (c : Ascii.ascii) : JsObj :=
  mkObj (OPrim (VStr (String c ""))) {[ "0"%string := VStr (String c "") ]}.

(** [const [newModel, cmd] = returned]: the first two elements of what was
    returned -- of an array its elements, of a string its characters,
    [undefined] where it has none -- or [None] for what cannot be iterated. *)
Definition elements (r : Returned) : option (option JsObj * CmdSlot) :=
  match r with
  | Tuple (newModel, cmd) => Some (Some newModel, slot cmd)
  | Primitive (VStr EmptyString) => Some (None, NoCmd)
  | Primitive (VStr (String c EmptyString)) => Some (Some (character c), NoCmd)
  | Primitive (VStr (String c (String _ _))) => Some (Some (character c), NotACmd)
  | Primitive _ | AnObject => None
  end.

(** [InitFunction]: [(props) => [TModel, Cmd?]]. *)
Definition InitFunction := Props -> JsObj * option Cmd.

(** A subscription's cleanup function [() => void], known by an identity;
    [SubscriptionResult] is [[Cmd, (() => void)?]]. *)
Inductive Destructor :=
| Cleanup (id : nat).

Definition SubscriptionResult := (Cmd * option Destructor)%type.
Definition Subscription := JsObj -> SubscriptionResult.

(** The calls to [LoggerService]. *)
Inductive LogCall :=
| info_message_from (component : string) (msgName : string)
| debug_message_from (component : string) (msg : Msg)
| debug_update_model_for (component : string) (updatedModel : JsObj)
| error (ex : Exn).

(** The calls that cross the hook's boundary, in the order they happen. *)
Inductive Event :=
| EvDispatch (msg : Msg)
| EvMiddleware (msg : Msg)
| EvLog (l : LogCall)
| EvUpdate (msg : Msg) (model : JsObj)
| EvEffect (call : Effect)
| EvSetModel
| EvInit
| EvSubscription (model : JsObj)
| EvDestructor (destructor : Destructor).

(** ** State *)

Record State := mkState {
  (* closure variables of the render that created the memoised callbacks *)
  reentered : bool;
  buffer : list Msg;
  currentModel : JsObj;
  initializedModel : option JsObj;
  (* [let modified] of the running cycle *)
  modified : bool;
  (* the host's state cell, [useState] *)
  model : option JsObj;
  (* allocation counter for the objects the hook builds *)
  next_oid : nat;
  trace : list Event
}.

Definition set_reentered (b : bool) (s : State) : State :=
  mkState b (buffer s) (currentModel s) (initializedModel s) (modified s)
          (model s) (next_oid s) (trace s).
Definition set_buffer (b : list Msg) (s : State) : State :=
  mkState (reentered s) b (currentModel s) (initializedModel s) (modified s)
          (model s) (next_oid s) (trace s).
Definition set_currentModel (o : JsObj) (s : State) : State :=
  mkState (reentered s) (buffer s) o (initializedModel s) (modified s)
          (model s) (next_oid s) (trace s).
Definition set_initializedModel (o : option JsObj) (s : State) : State :=
  mkState (reentered s) (buffer s) (currentModel s) o (modified s)
          (model s) (next_oid s) (trace s).
Definition set_modified (b : bool) (s : State) : State :=
  mkState (reentered s) (buffer s) (currentModel s) (initializedModel s) b
          (model s) (next_oid s) (trace s).
Definition set_model (o : option JsObj) (s : State) : State :=
  mkState (reentered s) (buffer s) (currentModel s) (initializedModel s)
          (modified s) o (next_oid s) (trace s).
Definition set_next_oid (n : nat) (s : State) : State :=
  mkState (reentered s) (buffer s) (currentModel s) (initializedModel s)
          (modified s) (model s) n (trace s).
Definition add_trace (es : list Event) (s : State) : State :=
  mkState (reentered s) (buffer s) (currentModel s) (initializedModel s)
          (modified s) (model s) (next_oid s) (trace s ++ es).

(** ** The monad *)

Inductive Res (A : Type) :=
| Ok (a : A) (s : State)
| Raised (ex : Exn) (s : State)
| OutOfFuel.
Arguments Ok {A} a s.
Arguments Raised {A} ex s.
Arguments OutOfFuel {A}.

Definition M (A : Type) : Type := State -> Res A.

Definition mret {A} (a : A) : M A := fun s => Ok a s.
Definition bind {A B} (m : M A) (k : A -> M B) : M B :=
  fun s => match m s with
           | Ok a s' => k a s'
           | Raised ex s' => Raised ex s'
           | OutOfFuel => OutOfFuel
           end.
Definition throw {A} (ex : Exn) : M A := fun s => Raised ex s.
Definition diverge {A} : M A := fun _ => OutOfFuel.
Definition try_catch {A} (body : M A) (handler : Exn -> M A) : M A :=
  fun s => match body s with
           | Raised ex s' => handler ex s'
           | r => r
           end.
Definition gets {A} (f : State -> A) : M A := fun s => Ok (f s) s.
Definition modify (f : State -> State) : M unit := fun s => Ok tt (f s).
Definition emit (e : Event) : M unit := modify (add_trace [e]).

Declare Scope elm_scope.
Delimit Scope elm_scope with elm.
Notation "x <- m ;; k" := (bind m (fun x => k))
  (at level 100, m at next level, k at level 200, right associativity) : elm_scope.
Notation "m ;; k" := (bind m (fun _ => k))
  (at level 100, k at level 200, right associativity) : elm_scope.
Local Open Scope elm_scope.

(** ** Primitives *)

(** [{ ...a, ...b }]: a new object; the properties of [b] win.  Spreading
    [null] adds nothing. *)
Definition spread (a : option JsObj) (b : JsObj) : M JsObj :=
  fun s => Ok (mkObj (OLib (next_oid s)) (fields b ∪ from_option fields ∅ a))
              (set_next_oid (S (next_oid s)) s).

(** [{}]: a new object without properties. *)
Definition new_object : M JsObj :=
  fun s => Ok (mkObj (OLib (next_oid s)) ∅) (set_next_oid (S (next_oid s)) s).

(** [buffer.push(msg)] and [buffer.shift()]. *)
Definition buffer_push (msg : Msg) : M unit :=
  modify (fun s => set_buffer (buffer s ++ [msg]) s).
Definition buffer_shift : M (option Msg) :=
  fun s => match buffer s with
           | [] => Ok None s
           | m :: rest => Ok (Some m) (set_buffer rest s)
           end.

(** Running application code against a dispatcher. *)
Definition Dispatch := Msg -> M unit.

Fixpoint run {A} (dispatch : Dispatch) (p : Script A) : M A :=
  match p with
  | Return a => mret a
  | Throw ex => throw ex
  | Call m k => dispatch m ;; run dispatch k
  end.

(** What a script does, read off its text: the messages it dispatches and
    how it ends. *)
Fixpoint script_calls {A} (p : Script A) : list Msg :=
  match p with
  | Call m k => m :: script_calls k
  | _ => []
  end.

Fixpoint script_end {A} (p : Script A) : A + Exn :=
  match p with
  | Return a => inl a
  | Throw ex => inr ex
  | Call _ k => script_end k
  end.

(** ** Reading a trace *)

(** The messages passed to [dispatch]. *)
Definition dispatched (tr : list Event) : list Msg :=
  omap (fun e => match e with EvDispatch m => Some m | _ => None end) tr.

(** The calls of the update logic: the message and the model handed over. *)
Definition update_calls (tr : list Event) : list (Msg * JsObj) :=
  omap (fun e => match e with EvUpdate m w => Some (m, w) | _ => None end) tr.

(** The messages processed by the loop. *)
Definition processed (tr : list Event) : list Msg := (update_calls tr).*1.

(** The effect functions invoked. *)
Definition invoked (tr : list Event) : list Effect :=
  omap (fun e => match e with EvEffect c => Some c | _ => None end) tr.

(** The messages the middleware saw. *)
Definition middleware_calls (tr : list Event) : list Msg :=
  omap (fun e => match e with EvMiddleware m => Some m | _ => None end) tr.

(** The calls to the logger. *)
Definition log_calls (tr : list Event) : list LogCall :=
  omap (fun e => match e with EvLog l => Some l | _ => None end) tr.

(** The number of [setModel] calls. *)
Definition host_writes (tr : list Event) : nat :=
  length (omap (fun e => match e with EvSetModel => Some tt | _ => None end) tr).

(** The models the logger was told of in an [update model for] call. *)
Definition model_updates (tr : list Event) : list JsObj :=
  omap (fun e => match e with
                 | EvLog (debug_update_model_for _ o) => Some o
                 | _ => None
                 end) tr.

(** The events of the dispatch loop and of command execution. *)
Definition loop_event (e : Event) : bool :=
  match e with
  | EvDispatch _ | EvMiddleware _ | EvLog _ | EvUpdate _ _ | EvEffect _
  | EvSetModel => true
  | EvInit | EvSubscription _ | EvDestructor _ => false
  end.

(** The events of a render's body: no subscription, no cleanup. *)
Definition body_event (e : Event) : bool :=
  match e with
  | EvSubscription _ | EvDestructor _ => false
  | _ => true
  end.

(** The calls of [init], of the subscription and of a cleanup function. *)
Definition init_calls (tr : list Event) : nat :=
  length (omap (fun e => match e with EvInit => Some tt | _ => None end) tr).

Definition subscription_calls (tr : list Event) : list JsObj :=
  omap (fun e => match e with EvSubscription m => Some m | _ => None end) tr.

Definition destructor_calls (tr : list Event) : list Destructor :=
  omap (fun e => match e with EvDestructor d => Some d | _ => None end) tr.

(** The [message from] lines the logger was given: at [info] the
    component's name and the message's name, at [debug] the message. *)
Definition info_logged (tr : list Event) : list (string * string) :=
  omap (fun e => match e with
                 | EvLog (info_message_from component n) => Some (component, n)
                 | _ => None
                 end) tr.

Definition debug_logged (tr : list Event) : list (string * Msg) :=
  omap (fun e => match e with
                 | EvLog (debug_message_from component m) => Some (component, m)
                 | _ => None
                 end) tr.

(** The errors the logger was given. *)
Definition error_logged (tr : list Event) : list Exn :=
  omap (fun e => match e with EvLog (error ex) => Some ex | _ => None end) tr.

(** The trace without the logger's calls. *)
Definition is_log (e : Event) : bool :=
  match e with EvLog _ => true | _ => false end.
Definition unlogged (tr : list Event) : list Event :=
  omap (fun e => if is_log e then None else Some e) tr.

(** A state with the logger's calls erased from its trace, and what it
    means for a computation that logs to do the same as one that does not. *)
Definition without_logs (s : State) : State :=
  mkState (reentered s) (buffer s) (currentModel s) (initializedModel s)
          (modified s) (model s) (next_oid s) (unlogged (trace s)).

Definition res_without_logs {A} (r : Res A) : Res A :=
  match r with
  | Ok a s => Ok a (without_logs s)
  | Raised ex s => Raised ex (without_logs s)
  | OutOfFuel => OutOfFuel
  end.

Definition erases {A} (logging silent : M A) : Prop :=
  forall s, silent (without_logs s) = res_without_logs (logging s).

(** ** A counter component

    The component of the examples: the model is [{ count }]; [Increment]
    adds one and, on the first increment, returns a command whose effect
    dispatches [Increment] again; [Noop] returns [{}]; [Same] returns the
    model it was handed; [Stored] returns the object [init] built; [Boom]
    dispatches [Increment] and throws.  The handler map has no entry for
    [Unknown], and none for [Inherited], whose name is [toString]. *)
Module Counter.

Local Open Scope string_scope.
Local Open Scope Z_scope.

Definition Increment : Msg := mkMsg "Increment" VNull.
Definition Noop : Msg := mkMsg "Noop" VNull.
Definition Same : Msg := mkMsg "Same" VNull.
Definition Stored : Msg := mkMsg "Stored" VNull.
Definition Boom : Msg := mkMsg "Boom" VNull.
Definition Unknown : Msg := mkMsg "Unknown" VNull.
Definition Inherited : Msg := mkMsg "toString" VNull.

Definition count (model : JsObj) : Z :=
  match fields model !! "count" with
  | Some (VNum z) => z
  | _ => 0
  end.

Definition counter (id : nat) (z : Z) : JsObj :=
  mkObj (OApp id) {[ "count" := VNum z ]}.

Definition initModel : JsObj := counter 0 0.

Definition again : Effect := Call Increment (Return tt).
Definition failing : Effect := Call Noop (Throw (Thrown (VStr "effect failed"))).

Definition onIncrement : UpdateMapHandler :=
  fun msg model props =>
    Return (counter 1 (count model + 1),
            if bool_decide (count model = 0) then Some [again] else None).
Definition onNoop : UpdateMapHandler :=
  fun msg model props => Return (mkObj (OApp 2) ∅, None).
Definition onSame : UpdateMapHandler :=
  fun msg model props => Return (model, None).
Definition onStored : UpdateMapHandler :=
  fun msg model props => Return (initModel, None).
Definition onBoom : UpdateMapHandler :=
  fun msg model props =>
    Call Increment (Throw (Thrown (VStr "update failed"))).

Definition updateMap : gmap string UpdateMapHandler :=
  {[ "Increment" := onIncrement; "Noop" := onNoop; "Same" := onSame;
     "Stored" := onStored; "Boom" := onBoom ]}.

Definition update : Update :=
  UpdateMap (mkUpdateMap updateMap Object_prototype).

Definition name : string := "Counter".

(** A second update logic, without loops: [Boom] dispatches [Increment]
    and throws; any other message adds one and dispatches nothing. *)
Definition relay : Update :=
  UpdateFn (fun model msg props =>
              if String.eqb (msg_name msg) "Boom"
              then Call Increment (Throw (Thrown (VStr "update failed")))
              else Return (counter 1 (count model + 1), None)).

(** A third update logic: every message is dispatched again by its own
    update call. *)
Definition echo : Update :=
  UpdateFn (fun model msg props => Call msg (Return (mkObj (OApp 3) ∅, None))).

Definition relay_rank (msg : Msg) : nat :=
  if String.eqb (msg_name msg) "Boom" then 1%nat else 0%nat.

Definition props : Props := ∅.

Definition init : InitFunction := fun props => (initModel, Some [again]).

Definition subscription : Subscription :=
  fun model => ([again; failing], Some (Cleanup 0)).

(** Before the first render; initialised and idle; inside a cycle. *)
Definition fresh : State :=
  mkState false [] (mkObj (OLib 0) ∅) None false None 1 [].
Definition ready : State :=
  mkState false [] (mkObj (OLib 0) ∅) (Some initModel) false (Some initModel)
          1 [].
Definition running : State :=
  mkState true [Noop] (mkObj (OLib 0) ∅) (Some initModel) false
          (Some initModel) 1 [].

End Counter.

(** ** The hook *)

Section Hook.

(** The options of [useElmish], and the two optional process-wide hooks.
    Modelled from the spec: [./Init], which exports [LoggerService] and
    [dispatchMiddleware], is not among the sources; each hook is present or
    absent, and a present hook is an observer: a call is recorded in the
    trace and returns. *)
Variable name : string.
Variable props : Props.
Variable init : InitFunction.
Variable update : Update.
Variable subscription : option Subscription.
Variable LoggerService : bool.
Variable dispatchMiddleware : bool.

(** [LoggerService?.f(...)] *)
Definition log (l : LogCall) : M unit :=
  if LoggerService then emit (EvLog l) else mret tt.
Arguments log : simpl never.

(** [callUpdateMap]: [updateMap[msg.name](msg, model, props)].  What the
    look-up finds is called; finding nothing, or what is no function, the
    call raises. *)
Definition callUpdateMap (dispatch : Dispatch) (updateMap : UpdateMapObject)
    (msg : Msg) (model : JsObj) (props : Props) : M Returned :=
  match property updateMap (msg_name msg) with
  | Some member => run dispatch (member msg model props)
  | None => throw (TypeError_not_a_function (msg_name msg))
  end.

(** [callUpdate] *)
Definition callUpdate (dispatch : Dispatch) (update : Update) (msg : Msg)
    (model : JsObj) (props : Props) : M Returned :=
  emit (EvUpdate msg model) ;;
  match update with
  | UpdateFn f => run dispatch (script_map Tuple (f model msg props))
  | UpdateMap updateMap => callUpdateMap dispatch updateMap msg model props
  end.

(** [execCmd]: [cmd.forEach(call => { try { call(dispatch) } catch ... })]. *)
Fixpoint execCmd (dispatch : Dispatch) (cmd : Cmd) : M unit :=
  match cmd with
  | [] => mret tt
  | call :: rest =>
      try_catch (emit (EvEffect call) ;; run dispatch call)
                (fun ex => log (error ex)) ;;
      execCmd dispatch rest
  end.

(** [modelHasChanged]: [updatedModel !== initializedModel &&
    Object.getOwnPropertyNames(updatedModel).length > 0]. *)
Definition modelHasChanged (initializedModel : option JsObj)
    (updatedModel : JsObj) : bool :=
  negb (bool_decide (Some (oid updatedModel) = oid <$> initializedModel))
  && bool_decide (0 < size (fields updatedModel)).

(** The body of [while (nextMsg)], up to [buffer.shift()].  Destructuring
    what [callUpdate] handed back raises when that cannot be iterated;
    [modelHasChanged(undefined)] raises in [Object.getOwnPropertyNames];
    [execCmd] of a [cmd] that is no array raises in [cmd.forEach]. *)
Definition process (dispatch : Dispatch) (nextMsg : Msg) : M unit :=
  log (info_message_from name (msg_name nextMsg)) ;;
  log (debug_message_from name nextMsg) ;;
  try_catch
    (im <- gets initializedModel ;;
     cm <- gets currentModel ;;
     working <- spread im cm ;;
     r <- callUpdate dispatch update nextMsg working props ;;
     match elements r with
     | None => throw TypeError_not_iterable
     | Some (newModel, cmd) =>
         im <- gets initializedModel ;;
         match newModel with
         | None => throw TypeError_not_an_object
         | Some newModel =>
             if modelHasChanged im newModel
             then cm <- gets currentModel ;;
                  merged <- spread (Some cm) newModel ;;
                  modify (set_currentModel merged) ;;
                  modify (set_modified true)
             else mret tt
         end ;;
         match cmd with
         | ACmd cmd => execCmd dispatch cmd
         | NoCmd => mret tt
         | NotACmd => throw (TypeError_not_a_function "forEach")
         end
     end)
    (fun ex => log (error ex)).

(** [while (nextMsg) { ...; nextMsg = buffer.shift(); }]: a message is an
    object, so the loop ends when [shift] finds the buffer empty. *)
Fixpoint while_nextMsg (dispatch : Dispatch) (fuel : nat) (nextMsg : Msg)
    : M unit :=
  match fuel with
  | O => diverge
  | S fuel' =>
      process dispatch nextMsg ;;
      next <- buffer_shift ;;
      match next with
      | Some m => while_nextMsg dispatch fuel' m
      | None => mret tt
      end
  end.

(** [setModel(prevModel => { ...prevModel, ...currentModel })].
    Modelled from the spec: the host's state cell is not among the sources;
    a write takes effect at once, the updater being applied to the latest
    committed state. *)
Definition setModel_merge : M unit :=
  emit EvSetModel ;;
  prevModel <- gets model ;;
  cm <- gets currentModel ;;
  updatedModel <- spread prevModel cm ;;
  log (debug_update_model_for name updatedModel) ;;
  modify (set_model (Some updatedModel)).

(** [dispatch].  Fuel is spent only by a call that enters the loop. *)
Fixpoint dispatch (fuel : nat) (msg : Msg) : M unit :=
  emit (EvDispatch msg) ;;
  im <- gets initializedModel ;;
  match im with
  | None => mret tt
  | Some _ =>
      (if dispatchMiddleware then emit (EvMiddleware msg) else mret tt) ;;
      re <- gets reentered ;;
      if re then buffer_push msg
      else
        match fuel with
        | O => diverge
        | S fuel' =>
            modify (set_reentered true) ;;
            modify (set_modified false) ;;
            while_nextMsg (dispatch fuel') fuel' msg ;;
            modify (set_reentered false) ;;
            m <- gets modified ;;
            if m then setModel_merge else mret tt
        end
  end.

(** ** The component's lifetime *)

(** Modelled from the spec: the host framework's primitives are not among
    the sources.  The reactive state cell ([useState]) is [model]; the
    memoised-callback primitive ([useCallback(f, [])]) keeps the first
    call's [dispatch] and [execCmd], so the closure variables in [State]
    are the first call's; a state write made while the component renders
    makes the host call the component again before it commits; the
    post-render-effect hook
    ([useEffect(f, deps)]) runs [f] after the first render and after a
    render whose [deps] differ from the previous render's, and runs the
    cleanup [f] returned before the next run and at teardown.  [HostHooks]
    is what the host keeps for the effect hook between renders. *)
Record HostHooks := mkHooks {
  effect_deps : option (list Oid);
  effect_cleanup : option Destructor
}.

Definition unmounted : HostHooks := mkHooks None None.

Definition mounted (h : HostHooks) : bool :=
  match effect_deps h with
  | Some _ => true
  | None => false
  end.

Definition deps_changed (prev : option (list Oid)) (deps : list Oid) : bool :=
  match prev with
  | None => true
  | Some prev => negb (bool_decide (prev = deps))
  end.

(** [setModel(initializedModel)] *)
Definition setModel (o : JsObj) : M unit :=
  emit EvSetModel ;; modify (set_model (Some o)).

(** The body of [useElmish] in one call by the host, up to the effect hook;
    it returns the local [initializedModel].  [first] is set in the call
    that creates the memoised callbacks: its locals ([reentered], [buffer],
    [currentModel], [initializedModel]) are the ones [dispatch] works on.
    A later call makes new locals that no callback refers to, and the
    callbacks it is given back are the first call's. *)
Definition useElmish (fuel : nat) (first : bool) : M JsObj :=
  fresh <- new_object ;;
  (if first
   then modify (set_reentered false) ;;
        modify (set_buffer []) ;;
        modify (set_currentModel fresh) ;;
        modify (set_model None)
   else mret tt) ;;
  m <- gets model ;;
  (if first then modify (set_initializedModel m) else mret tt) ;;
  match m with
  | Some initializedModel => mret initializedModel
  | None =>
      emit EvInit ;;
      let '(initModel, initCmd) := init props in
      (if first then modify (set_initializedModel (Some initModel))
       else mret tt) ;;
      setModel initModel ;;
      match initCmd with
      | Some initCmd => execCmd (dispatch fuel) initCmd
      | None => mret tt
      end ;;
      mret initModel
  end.

(** The callback given to [useEffect]. *)
Definition subscribe (fuel : nat) (initializedModel : JsObj)
    : M (option Destructor) :=
  match subscription with
  | Some subscription =>
      emit (EvSubscription initializedModel) ;;
      let '(subCmd, destructor) := subscription initializedModel in
      execCmd (dispatch fuel) subCmd ;;
      mret destructor
  | None => mret None
  end.

Definition run_cleanup (cleanup : option Destructor) : M unit :=
  match cleanup with
  | Some destructor => emit (EvDestructor destructor)
  | None => mret tt
  end.

(** The host calling the component in one render.  A [setModel] made while
    the component renders (the one of line 102, and the one of line 87 when
    a command of [init] dispatches at once) does not end the render: the
    host drops what the call returned and calls the component again, with
    the state cell as written and the memoised callbacks of the first call.
    The call that counts, whose effect callback is committed, is the one
    that wrote nothing; its local [initializedModel] is the state cell's
    content. *)
Definition rendered (fuel : nat) (first : bool) : M JsObj :=
  before <- gets model ;;
  returned <- useElmish fuel first ;;
  if first || bool_decide (before = None)
  then useElmish fuel false
  else mret returned.

(** One render and its commit: [useEffect(..., [])]. *)
Definition render (fuel : nat) (h : HostHooks) : M HostHooks :=
  initializedModel <- rendered fuel (negb (mounted h)) ;;
  if deps_changed (effect_deps h) []
  then run_cleanup (effect_cleanup h) ;;
       cleanup <- subscribe fuel initializedModel ;;
       mret (mkHooks (Some []) cleanup)
  else mret h.

(** What happens to a mounted component: it is rendered again, or someone
    calls the dispatcher it returned. *)
Inductive HostEvent :=
| Rerender
| Dispatched (msg : Msg).

Fixpoint host_events (fuel : nat) (evs : list HostEvent) (h : HostHooks)
    : M HostHooks :=
  match evs with
  | [] => mret h
  | Rerender :: rest => h' <- render fuel h ;; host_events fuel rest h'
  | Dispatched msg :: rest => dispatch fuel msg ;; host_events fuel rest h
  end.

(** Mount, live, unmount. *)
Definition lifetime (fuel : nat) (evs : list HostEvent) : M unit :=
  h <- render fuel unmounted ;;
  h' <- host_events fuel evs h ;;
  run_cleanup (effect_cleanup h').

(** ** The loop seen from inside a cycle

    While a cycle runs ([reentered] is set and the model exists) a call of
    [dispatch] only records itself, calls the middleware and pushes.  The
    functions below are the state changes this gives for a script, a command
    list and one message; the lemmas of the next part prove that the code
    computes them. *)

Definition in_cycle (s : State) : Prop :=
  reentered s = true /\ is_Some (initializedModel s).

Definition log_events (l : LogCall) : list Event :=
  if LoggerService then [EvLog l] else [].

Definition logged (l : LogCall) (s : State) : State :=
  add_trace (log_events l) s.

Definition call_events (msg : Msg) : list Event :=
  EvDispatch msg :: (if dispatchMiddleware then [EvMiddleware msg] else []).

Definition calls_events (msgs : list Msg) : list Event :=
  flat_map call_events msgs.

Definition enqueue_all (msgs : list Msg) (s : State) : State :=
  set_buffer (buffer s ++ msgs) (add_trace (calls_events msgs) s).

(** One effect function: invoked, its dispatches queued, its error logged. *)
Definition effect_events (call : Effect) : list Event :=
  EvEffect call :: calls_events (script_calls call) ++
  match script_end call with
  | inl _ => []
  | inr ex => log_events (error ex)
  end.

Definition cmd_events (cmd : Cmd) : list Event := flat_map effect_events cmd.
Definition cmd_calls (cmd : Cmd) : list Msg := flat_map script_calls cmd.

(** The effect functions of a command list that throw, and what a command
    list is bound to leave in the trace whatever [dispatch] does meanwhile:
    each effect function invoked, in list order, and each error logged. *)
Definition thrown (cmd : Cmd) : list Exn :=
  omap (fun call => match script_end call with
                    | inl _ => None
                    | inr ex => Some ex
                    end) cmd.

Definition expected_events (cmd : Cmd) : list Event :=
  flat_map (fun call =>
              EvEffect call ::
              match script_end call with
              | inl _ => []
              | inr ex => log_events (error ex)
              end) cmd.

Definition cmd_done (cmd : Cmd) (s : State) : State :=
  set_buffer (buffer s ++ cmd_calls cmd) (add_trace (cmd_events cmd) s).

(** The update logic [callUpdate] runs for a message and a model. *)
Definition update_script (msg : Msg) (model : JsObj) : Script Returned :=
  match update with
  | UpdateFn f => script_map Tuple (f model msg props)
  | UpdateMap updateMap =>
      match property updateMap (msg_name msg) with
      | Some member => member msg model props
      | None => Throw (TypeError_not_a_function (msg_name msg))
      end
  end.

(** What it leaves the loop body with: the partial model and the commands
    it is bound to, or the error that the call, the destructuring or
    [modelHasChanged] raised. *)
Definition outcome (msg : Msg) (model : JsObj) : (JsObj * CmdSlot) + Exn :=
  match script_end (update_script msg model) with
  | inl r =>
      match elements r with
      | Some (Some newModel, cmd) => inl (newModel, cmd)
      | Some (None, _) => inr TypeError_not_an_object
      | None => inr TypeError_not_iterable
      end
  | inr ex => inr ex
  end.

(** The model [{ ...initializedModel, ...currentModel }] handed to it. *)
Definition working_model (s : State) : JsObj :=
  mkObj (OLib (next_oid s))
        (fields (currentModel s) ∪ from_option fields ∅ (initializedModel s)).

Definition merged (newModel : JsObj) (s : State) : State :=
  set_modified true
    (set_currentModel
       (mkObj (OLib (next_oid s)) (fields newModel ∪ fields (currentModel s)))
       (set_next_oid (S (next_oid s)) s)).

Definition processed_msg (nextMsg : Msg) (s : State) : State :=
  let s0 := logged (debug_message_from name nextMsg)
              (logged (info_message_from name (msg_name nextMsg)) s) in
  let w := working_model s0 in
  let p := update_script nextMsg w in
  let s1 := enqueue_all (script_calls p)
              (add_trace [EvUpdate nextMsg w]
                 (set_next_oid (S (next_oid s0)) s0)) in
  match outcome nextMsg w with
  | inr ex => logged (error ex) s1
  | inl (newModel, cmd) =>
      let s2 := if modelHasChanged (initializedModel s1) newModel
                then merged newModel s1 else s1 in
      match cmd with
      | ACmd cmd => cmd_done cmd s2
      | NoCmd => s2
      | NotACmd => logged (error (TypeError_not_a_function "forEach")) s2
      end
  end.

(** The events of one pass through the loop body and the messages it
    queues, read off the update logic's script. *)
Definition update_outcome (nextMsg : Msg) (s : State)
    : (JsObj * CmdSlot) + Exn :=
  outcome nextMsg (working_model s).

Definition process_events (nextMsg : Msg) (s : State) : list Event :=
  log_events (info_message_from name (msg_name nextMsg)) ++
  log_events (debug_message_from name nextMsg) ++
  [EvUpdate nextMsg (working_model s)] ++
  calls_events (script_calls (update_script nextMsg (working_model s))) ++
  match update_outcome nextMsg s with
  | inr ex => log_events (error ex)
  | inl (_, ACmd cmd) => cmd_events cmd
  | inl (_, NoCmd) => []
  | inl (_, NotACmd) => log_events (error (TypeError_not_a_function "forEach"))
  end.

Definition process_calls (nextMsg : Msg) (s : State) : list Msg :=
  script_calls (update_script nextMsg (working_model s)) ++
  match update_outcome nextMsg s with
  | inl (_, ACmd cmd) => cmd_calls cmd
  | _ => []
  end.

(** Whether the update call for [msg] on [model] returns a partial model
    that [modelHasChanged] accepts. *)
Definition changed_by (im : option JsObj) (msg : Msg) (model : JsObj) : bool :=
  match outcome msg model with
  | inl (newModel, _) => modelHasChanged im newModel
  | inr _ => false
  end.

(** The loop as a relation: [drains nextMsg s s'] when the loop entered with
    [nextMsg] in state [s] leaves in state [s'], the buffer empty. *)
Inductive drains : Msg -> State -> State -> Prop :=
| drains_last nextMsg s :
    buffer (processed_msg nextMsg s) = [] ->
    drains nextMsg s (processed_msg nextMsg s)
| drains_next nextMsg s m rest s' :
    buffer (processed_msg nextMsg s) = m :: rest ->
    drains m (set_buffer rest (processed_msg nextMsg s)) s' ->
    drains nextMsg s s'.

(** The state in which a top-level [dispatch] enters the loop, and the state
    it leaves after the loop. *)
Definition started (msg : Msg) (s : State) : State :=
  set_modified false (set_reentered true (add_trace (call_events msg) s)).

Definition updated_model (s : State) : JsObj :=
  mkObj (OLib (next_oid s))
        (fields (currentModel s) ∪ from_option fields ∅ (model s)).

Definition committed (s : State) : State :=
  set_model (Some (updated_model s))
    (logged (debug_update_model_for name (updated_model s))
       (set_next_oid (S (next_oid s)) (add_trace [EvSetModel] s))).

Definition finished (s : State) : State :=
  if modified s then committed (set_reentered false s)
  else set_reentered false s.

Definition finish_events (s : State) : list Event :=
  if modified s
  then EvSetModel :: log_events (debug_update_model_for name (updated_model s))
  else [].

(** What a loop that was entered with [nextMsg] in state [s] and left in
    state [s'] has done, [delta] being the events it added. *)
Record drained (nextMsg : Msg) (s s' : State) (delta : list Event) : Prop := {
  drained_trace : trace s' = trace s ++ delta;
  drained_reentered : reentered s' = reentered s;
  drained_initializedModel : initializedModel s' = initializedModel s;
  drained_model : model s' = model s;
  drained_buffer : buffer s' = [];
  drained_first : exists more, delta = process_events nextMsg s ++ more;
  drained_processed :
    processed delta = nextMsg :: buffer s ++ dispatched delta;
  drained_middleware :
    middleware_calls delta =
    if dispatchMiddleware then dispatched delta else [];
  drained_events : Forall (fun e => loop_event e = true) delta;
  drained_host_writes : host_writes delta = 0;
  drained_model_updates : model_updates delta = [];
  drained_modified :
    modified s' =
    modified s ||
    existsb (fun c => changed_by (initializedModel s) c.1 c.2)
            (update_calls delta);
  drained_unchanged :
    existsb (fun c => changed_by (initializedModel s) c.1 c.2)
            (update_calls delta) = false ->
    currentModel s' = currentModel s
}.

Definition idle (s : State) : Prop :=
  reentered s = false /\ buffer s = [] /\ is_Some (initializedModel s).

(** ** The model over several cycles

    [dispatch] is memoised, so it works on the first render's locals for the
    component's whole life: [initializedModel] stays the object [init]
    built, and [currentModel], which is never emptied, collects every
    partial model accepted since the mount. *)

(** What an update call adds to the accumulator: the partial model it
    returns, when [modelHasChanged] accepts it. *)
Definition accepted (im : option JsObj) (call : Msg * JsObj)
    : gmap string Val :=
  match outcome call.1 call.2 with
  | inl (newModel, _) =>
      if modelHasChanged im newModel then fields newModel else ∅
  | inr _ => ∅
  end.

(** The errors an update call ends in: its own, those of the effect
    functions of the commands it returned, or the one of commands that
    are no array. *)
Definition raised_by (call : Msg * JsObj) : list Exn :=
  match outcome call.1 call.2 with
  | inl (_, ACmd cmd) => thrown cmd
  | inl (_, NoCmd) => []
  | inl (_, NotACmd) => [TypeError_not_a_function "forEach"]
  | inr ex => [ex]
  end.

(** [currentModel = { ...currentModel, ...newModel }], call after call. *)
Definition accumulate (im : option JsObj) (cm : gmap string Val)
    (calls : list (Msg * JsObj)) : gmap string Val :=
  foldl (fun cm call => accepted im call ∪ cm) cm calls.

(** Each call was handed [{ ...initializedModel, ...currentModel }], with
    the accumulator as the calls before it left it. *)
Fixpoint handed (im : option JsObj) (cm : gmap string Val)
    (calls : list (Msg * JsObj)) : Prop :=
  match calls with
  | [] => True
  | call :: rest =>
      fields call.2 = cm ∪ from_option fields ∅ im /\
      handed im (accepted im call ∪ cm) rest
  end.

(** The host's state cell holds the properties the next update call will
    be handed. *)
Definition coherent (s : State) : Prop :=
  fields <$> model s =
  Some (fields (currentModel s) ∪ from_option fields ∅ (initializedModel s)).

(** A mounted component between two calls from outside: idle, coherent,
    still working on the object [init] built; since the trace [t0] every
    message passed to [dispatch] has been handed to the update logic, and
    to the middleware if there is one, in that order, and [init] has not
    been called. *)
Definition live (t0 : list Event) (s : State) : Prop :=
  idle s /\ coherent s /\ initializedModel s = Some (init props).1 /\
  exists d, trace s = t0 ++ d /\
            processed d = dispatched d /\
            init_calls d = 0 /\
            middleware_calls d = if dispatchMiddleware then dispatched d else [].

Arguments callUpdate : simpl never.
Arguments setModel_merge : simpl never.
Arguments useElmish : simpl never.
Arguments rendered : simpl never.
Arguments subscribe : simpl never.
Arguments started : simpl never.
Arguments committed : simpl never.
Arguments finished : simpl never.
Arguments logged : simpl never.
Arguments enqueue_all : simpl never.
Arguments cmd_done : simpl never.
Arguments merged : simpl never.
Arguments processed_msg : simpl never.

(** ** Facts about the state and the monad *)

Lemma state_eq s1 s2 :
  reentered s1 = reentered s2 ->
  buffer s1 = buffer s2 ->
  currentModel s1 = currentModel s2 ->
  initializedModel s1 = initializedModel s2 ->
  modified s1 = modified s2 ->
  model s1 = model s2 ->
  next_oid s1 = next_oid s2 ->
  trace s1 = trace s2 ->
  s1 = s2.
Proof. destruct s1, s2; simpl; congruence. Qed.

Ltac state_ext :=
  apply state_eq; cbn; rewrite <- ?app_assoc; try done.

Ltac unfold_state :=
  unfold finished, committed, started, cmd_done, merged, enqueue_all, logged
    in *; cbn in *.

Ltac msimpl :=
  repeat (progress (cbn;
    unfold bind, try_catch, buffer_push, buffer_shift, spread, modify, gets,
      emit, mret, throw, diverge)).

Lemma add_trace_nil s : add_trace [] s = s.
Proof. destruct s; unfold add_trace; simpl. by rewrite app_nil_r. Qed.

Lemma dispatched_app tr1 tr2 :
  dispatched (tr1 ++ tr2) = dispatched tr1 ++ dispatched tr2.
Proof. apply omap_app. Qed.

Lemma update_calls_app tr1 tr2 :
  update_calls (tr1 ++ tr2) = update_calls tr1 ++ update_calls tr2.
Proof. apply omap_app. Qed.

Lemma processed_app tr1 tr2 :
  processed (tr1 ++ tr2) = processed tr1 ++ processed tr2.
Proof. unfold processed. by rewrite update_calls_app, fmap_app. Qed.

Lemma host_writes_app tr1 tr2 :
  host_writes (tr1 ++ tr2) = host_writes tr1 + host_writes tr2.
Proof. unfold host_writes. by rewrite omap_app, length_app. Qed.

Lemma middleware_calls_app tr1 tr2 :
  middleware_calls (tr1 ++ tr2) = middleware_calls tr1 ++ middleware_calls tr2.
Proof. apply omap_app. Qed.

Lemma model_updates_app tr1 tr2 :
  model_updates (tr1 ++ tr2) = model_updates tr1 ++ model_updates tr2.
Proof. apply omap_app. Qed.

Lemma dispatch_uninitialized fuel msg s :
  initializedModel s = None ->
  dispatch fuel msg s = Ok tt (add_trace [EvDispatch msg] s).
Proof.
  intros Hnone. destruct fuel; msimpl; by rewrite Hnone.
Qed.

Lemma log_logged l s : log l s = Ok tt (logged l s).
Proof.
  unfold log, logged, log_events. destruct LoggerService; [done |].
  by rewrite add_trace_nil.
Qed.

Lemma dispatch_in_cycle fuel msg s :
  in_cycle s -> dispatch fuel msg s = Ok tt (enqueue_all [msg] s).
Proof.
  intros [Hre [im Him]]. unfold enqueue_all, calls_events, call_events.
  destruct fuel; msimpl; rewrite Him;
    destruct dispatchMiddleware; msimpl; rewrite Hre; msimpl; f_equal; state_ext.
Qed.

Lemma in_cycle_enqueue_all msgs s : in_cycle s -> in_cycle (enqueue_all msgs s).
Proof. by intros [? ?]. Qed.

Lemma in_cycle_logged l s : in_cycle s -> in_cycle (logged l s).
Proof. by intros [? ?]. Qed.

Lemma enqueue_all_cons m msgs s :
  enqueue_all msgs (enqueue_all [m] s) = enqueue_all (m :: msgs) s.
Proof.
  unfold enqueue_all, calls_events. state_ext.
  by rewrite app_nil_r.
Qed.

(** Inside a cycle a script only queues what it dispatches. *)
Lemma run_in_cycle {A} fuel (p : Script A) s :
  in_cycle s ->
  run (dispatch fuel) p s =
  match script_end p with
  | inl a => Ok a (enqueue_all (script_calls p) s)
  | inr ex => Raised ex (enqueue_all (script_calls p) s)
  end.
Proof.
  revert s. induction p as [a | ex | m k IH]; intros s Hs.
  - msimpl. f_equal. unfold enqueue_all. state_ext; by rewrite app_nil_r.
  - msimpl. f_equal. unfold enqueue_all. state_ext; by rewrite app_nil_r.
  - cbn. unfold bind. rewrite dispatch_in_cycle by done.
    rewrite IH by by apply in_cycle_enqueue_all.
    by rewrite enqueue_all_cons.
Qed.

Lemma cmd_done_cons_returned (call : Effect) (rest : Cmd) s u :
  script_end call = inl u ->
  cmd_done rest (enqueue_all (script_calls call) (add_trace [EvEffect call] s))
  = cmd_done (call :: rest) s.
Proof.
  intros Hend.
  unfold cmd_done, cmd_events, cmd_calls, effect_events, enqueue_all.
  state_ext. by rewrite Hend.
Qed.

Lemma cmd_done_cons_thrown (call : Effect) (rest : Cmd) s ex :
  script_end call = inr ex ->
  cmd_done rest
    (logged (error ex)
       (enqueue_all (script_calls call) (add_trace [EvEffect call] s)))
  = cmd_done (call :: rest) s.
Proof.
  intros Hend.
  unfold cmd_done, cmd_events, cmd_calls, effect_events, enqueue_all, logged.
  state_ext. by rewrite Hend.
Qed.

(** Inside a cycle [execCmd] returns, whatever the effects do. *)
Lemma execCmd_in_cycle fuel cmd s :
  in_cycle s -> execCmd (dispatch fuel) cmd s = Ok tt (cmd_done cmd s).
Proof.
  revert s. induction cmd as [| call rest IH]; intros s Hs.
  - msimpl. f_equal. unfold cmd_done. state_ext; by rewrite app_nil_r.
  - msimpl. rewrite run_in_cycle by done.
    destruct (script_end call) as [[] | ex] eqn:Hend.
    + rewrite IH by by apply in_cycle_enqueue_all.
      f_equal. by eapply cmd_done_cons_returned.
    + rewrite log_logged.
      rewrite IH by by apply in_cycle_logged, in_cycle_enqueue_all.
      f_equal. by apply cmd_done_cons_thrown.
Qed.

Lemma callUpdate_script d msg w s :
  callUpdate d update msg w props s =
  run d (update_script msg w) (add_trace [EvUpdate msg w] s).
Proof.
  unfold callUpdate, callUpdateMap, update_script. msimpl.
  destruct update as [f | updateMap]; [done |].
  by destruct (property updateMap (msg_name msg)).
Qed.

(** Inside a cycle the loop body returns, and computes [processed_msg]. *)
Lemma in_cycle_merged newModel s : in_cycle s -> in_cycle (merged newModel s).
Proof. by intros [? ?]. Qed.

Lemma process_in_cycle fuel nextMsg s :
  in_cycle s ->
  process (dispatch fuel) nextMsg s = Ok tt (processed_msg nextMsg s).
Proof.
  intros Hs. unfold process, processed_msg. msimpl.
  rewrite !log_logged. msimpl.
  set (s0 := logged _ (logged _ s)).
  assert (Hs0 : in_cycle s0) by by destruct Hs.
  rewrite callUpdate_script, run_in_cycle by by destruct Hs0.
  fold (working_model s0).
  set (s1 := enqueue_all _ _).
  assert (Hs1 : in_cycle s1) by by destruct Hs0.
  unfold outcome.
  destruct (script_end _) as [r | ex]; [| by rewrite log_logged].
  msimpl.
  destruct (elements r) as [[[newModel |] cmd] |]; msimpl;
    try by rewrite log_logged.
  fold (merged newModel s1).
  destruct (modelHasChanged _ _), cmd as [cmd | |]; msimpl;
    rewrite ?log_logged; try done.
  - by rewrite execCmd_in_cycle by by apply in_cycle_merged.
  - by rewrite execCmd_in_cycle.
Qed.

(** ** One pass through the loop body *)

Lemma working_model_logged l s : working_model (logged l s) = working_model s.
Proof. done. Qed.

Lemma processed_msg_trace nextMsg s :
  trace (processed_msg nextMsg s) = trace s ++ process_events nextMsg s.
Proof.
  unfold processed_msg, process_events, update_outcome.
  rewrite !working_model_logged.
  destruct (outcome _ _) as [[newModel [cmd | |]] | ex]; cbn;
    try destruct (modelHasChanged _ _); unfold_state;
    by rewrite <- ?app_assoc, ?app_nil_r.
Qed.

Lemma processed_msg_buffer nextMsg s :
  buffer (processed_msg nextMsg s) = buffer s ++ process_calls nextMsg s.
Proof.
  unfold processed_msg, process_calls, update_outcome.
  rewrite !working_model_logged.
  destruct (outcome _ _) as [[newModel [cmd | |]] | ex]; cbn;
    try destruct (modelHasChanged _ _); unfold_state;
    by rewrite <- ?app_assoc, ?app_nil_r.
Qed.

(** The loop body leaves the flag, the initial model and the host's cell
    alone. *)
Lemma processed_msg_frame nextMsg s :
  reentered (processed_msg nextMsg s) = reentered s /\
  initializedModel (processed_msg nextMsg s) = initializedModel s /\
  model (processed_msg nextMsg s) = model s.
Proof.
  unfold processed_msg.
  destruct (outcome _ _) as [[newModel [cmd | |]] | ex]; cbn;
    try destruct (modelHasChanged _ _); by unfold_state.
Qed.

Lemma in_cycle_processed_msg nextMsg s :
  in_cycle s -> in_cycle (processed_msg nextMsg s).
Proof.
  unfold in_cycle. by destruct (processed_msg_frame nextMsg s) as (-> & -> & _).
Qed.

Lemma processed_msg_modified nextMsg s :
  modified (processed_msg nextMsg s) =
  modified s || changed_by (initializedModel s) nextMsg (working_model s).
Proof.
  unfold processed_msg, changed_by. rewrite !working_model_logged.
  destruct (outcome _ _) as [[newModel [cmd | |]] | ex]; cbn;
    try destruct (modelHasChanged _ _) eqn:Hch; unfold_state; rewrite ?Hch;
    by rewrite ?orb_true_r, ?orb_false_r.
Qed.

(** ** Reading the events of the loop body *)

Section Silent.

(** A reader [omap f] that ignores a kind of event finds nothing in the
    events made only of that kind. *)
Context {A : Type} (f : Event -> option A).

Lemma omap_log_events l :
  f (EvLog l) = None -> omap f (log_events l) = [].
Proof.
  intros Hlog. unfold log_events. destruct LoggerService; [| done].
  cbn. by rewrite Hlog.
Qed.

Lemma omap_calls_events msgs :
  (forall m, f (EvDispatch m) = None) ->
  (forall m, f (EvMiddleware m) = None) ->
  omap f (calls_events msgs) = [].
Proof.
  intros Hd Hm. induction msgs as [| m msgs IH]; [done |].
  unfold calls_events, call_events in *. cbn. rewrite Hd.
  destruct dispatchMiddleware; cbn; by rewrite ?Hm.
Qed.

Lemma omap_cmd_events cmd :
  (forall m, f (EvDispatch m) = None) ->
  (forall m, f (EvMiddleware m) = None) ->
  (forall ex, f (EvLog (error ex)) = None) ->
  (forall c, f (EvEffect c) = None) ->
  omap f (cmd_events cmd) = [].
Proof.
  intros Hd Hm Hl He. induction cmd as [| call rest IH]; [done |].
  unfold cmd_events, effect_events in *. cbn. rewrite He.
  rewrite !omap_app, omap_calls_events, IH by done.
  destruct (script_end call); [done |]. by rewrite omap_log_events.
Qed.

End Silent.

Lemma dispatched_calls_events msgs : dispatched (calls_events msgs) = msgs.
Proof.
  induction msgs as [| m msgs IH]; [done |].
  unfold dispatched, calls_events, call_events in *. cbn.
  destruct dispatchMiddleware; cbn; by rewrite IH.
Qed.

Lemma dispatched_cmd_events cmd : dispatched (cmd_events cmd) = cmd_calls cmd.
Proof.
  induction cmd as [| call rest IH]; [done |].
  unfold cmd_events, cmd_calls, effect_events in *. cbn.
  unfold dispatched in *. rewrite !omap_app, IH.
  fold (dispatched (calls_events (script_calls call))).
  rewrite dispatched_calls_events.
  destruct (script_end call); rewrite ?omap_log_events by done; cbn;
    by rewrite ?app_nil_r.
Qed.

Lemma invoked_cmd_events cmd : invoked (cmd_events cmd) = cmd.
Proof.
  induction cmd as [| call rest IH]; [done |].
  unfold cmd_events, effect_events, invoked in *. cbn.
  rewrite !omap_app, IH, omap_calls_events by done.
  destruct (script_end call); rewrite ?omap_log_events by done; cbn;
    by rewrite ?app_nil_r.
Qed.

Lemma process_events_dispatched nextMsg s :
  dispatched (process_events nextMsg s) = process_calls nextMsg s.
Proof.
  unfold process_events, process_calls, dispatched.
  rewrite !omap_app, !omap_log_events by done. cbn. f_equal.
  - apply dispatched_calls_events.
  - destruct (update_outcome nextMsg s) as [[? [cmd | |]] | ex]; try done.
    + apply dispatched_cmd_events.
    + by apply omap_log_events.
    + by apply omap_log_events.
Qed.

Lemma process_events_update_calls nextMsg s :
  update_calls (process_events nextMsg s) = [(nextMsg, working_model s)].
Proof.
  unfold process_events, update_calls.
  rewrite !omap_app, !omap_log_events, omap_calls_events by done. cbn.
  f_equal.
  destruct (update_outcome nextMsg s) as [[? [cmd | |]] | ex]; try done.
  - by apply omap_cmd_events.
  - by apply omap_log_events.
  - by apply omap_log_events.
Qed.

Lemma process_events_host_writes nextMsg s :
  host_writes (process_events nextMsg s) = 0.
Proof.
  unfold process_events, host_writes.
  rewrite !omap_app, !omap_log_events, omap_calls_events by done. cbn.
  destruct (update_outcome nextMsg s) as [[? [cmd | |]] | ex]; try done.
  - by rewrite omap_cmd_events.
  - by rewrite omap_log_events.
  - by rewrite omap_log_events.
Qed.

Lemma middleware_calls_calls_events msgs :
  middleware_calls (calls_events msgs) =
  if dispatchMiddleware then msgs else [].
Proof.
  induction msgs as [| m msgs IH]; [by destruct dispatchMiddleware |].
  unfold middleware_calls, calls_events, call_events in *. cbn.
  destruct dispatchMiddleware; cbn; by rewrite IH.
Qed.

Lemma middleware_calls_cmd_events cmd :
  middleware_calls (cmd_events cmd) =
  if dispatchMiddleware then cmd_calls cmd else [].
Proof.
  induction cmd as [| call rest IH]; [by destruct dispatchMiddleware |].
  unfold cmd_events, cmd_calls, effect_events in *. cbn.
  unfold middleware_calls in *. rewrite !omap_app, IH.
  fold (middleware_calls (calls_events (script_calls call))).
  rewrite middleware_calls_calls_events.
  destruct (script_end call); rewrite ?omap_log_events by done;
    destruct dispatchMiddleware; cbn; by rewrite ?app_nil_r.
Qed.

Lemma process_events_middleware_calls nextMsg s :
  middleware_calls (process_events nextMsg s) =
  if dispatchMiddleware then process_calls nextMsg s else [].
Proof.
  unfold process_events, process_calls.
  rewrite !middleware_calls_app, middleware_calls_calls_events.
  unfold middleware_calls at 1 2 3. rewrite !omap_log_events by done. cbn.
  destruct (update_outcome nextMsg s) as [[? [cmd | |]] | ex].
  - rewrite middleware_calls_cmd_events. by destruct dispatchMiddleware.
  - by destruct dispatchMiddleware.
  - unfold middleware_calls. rewrite omap_log_events by done.
    by destruct dispatchMiddleware.
  - unfold middleware_calls. rewrite omap_log_events by done.
    by destruct dispatchMiddleware.
Qed.

Lemma process_events_model_updates nextMsg s :
  model_updates (process_events nextMsg s) = [].
Proof.
  unfold process_events, model_updates.
  rewrite !omap_app, !omap_log_events, omap_calls_events by done. cbn.
  destruct (update_outcome nextMsg s) as [[? [cmd | |]] | ex]; try done.
  - by rewrite omap_cmd_events.
  - by rewrite omap_log_events.
  - by rewrite omap_log_events.
Qed.

Lemma log_events_loop l : Forall (fun e => loop_event e = true) (log_events l).
Proof. unfold log_events. destruct LoggerService; by repeat constructor. Qed.

Lemma call_events_loop msg :
  Forall (fun e => loop_event e = true) (call_events msg).
Proof.
  unfold call_events. destruct dispatchMiddleware; by repeat constructor.
Qed.

Lemma calls_events_loop msgs :
  Forall (fun e => loop_event e = true) (calls_events msgs).
Proof.
  induction msgs as [| m msgs IH]; [constructor |].
  unfold calls_events in *. cbn [flat_map].
  apply Forall_app. split; [apply call_events_loop | done].
Qed.

Lemma cmd_events_loop cmd : Forall (fun e => loop_event e = true) (cmd_events cmd).
Proof.
  induction cmd as [| call rest IH]; [constructor |].
  unfold cmd_events, effect_events in *. cbn [flat_map].
  apply Forall_app. split; [| done].
  constructor; [done |]. apply Forall_app. split; [apply calls_events_loop |].
  destruct (script_end call); [constructor | apply log_events_loop].
Qed.

Lemma process_events_loop nextMsg s :
  Forall (fun e => loop_event e = true) (process_events nextMsg s).
Proof.
  unfold process_events.
  repeat (apply Forall_app; split); try apply log_events_loop.
  - by repeat constructor.
  - apply calls_events_loop.
  - destruct (update_outcome nextMsg s) as [[? [cmd | |]] | ex].
    + apply cmd_events_loop.
    + constructor.
    + apply log_events_loop.
    + apply log_events_loop.
Qed.

Lemma finish_events_loop s : Forall (fun e => loop_event e = true) (finish_events s).
Proof.
  unfold finish_events. destruct (modified s); [| constructor].
  constructor; [done |]. apply log_events_loop.
Qed.

(** An update call that does not change the model leaves the accumulator
    alone. *)
Lemma processed_msg_currentModel nextMsg s :
  changed_by (initializedModel s) nextMsg (working_model s) = false ->
  currentModel (processed_msg nextMsg s) = currentModel s.
Proof.
  unfold processed_msg, changed_by. rewrite !working_model_logged.
  destruct (outcome _ _) as [[newModel [cmd | |]] | ex]; cbn;
    try (intros Hch; unfold_state; by rewrite Hch); by unfold_state.
Qed.

(** ** The loop *)

Lemma while_nextMsg_unfold fuel n nextMsg s :
  in_cycle s ->
  while_nextMsg (dispatch fuel) (S n) nextMsg s =
  match buffer (processed_msg nextMsg s) with
  | [] => Ok tt (processed_msg nextMsg s)
  | m :: rest =>
      while_nextMsg (dispatch fuel) n m (set_buffer rest (processed_msg nextMsg s))
  end.
Proof.
  intros Hs. cbn. unfold bind. rewrite process_in_cycle by done.
  unfold buffer_shift. by destruct (buffer _).
Qed.

Lemma in_cycle_set_buffer b s : in_cycle s -> in_cycle (set_buffer b s).
Proof. by intros [? ?]. Qed.

(** The loop never raises: update and effect errors stay inside. *)
Lemma while_nextMsg_not_raised fuel n nextMsg s ex s' :
  in_cycle s -> while_nextMsg (dispatch fuel) n nextMsg s <> Raised ex s'.
Proof.
  revert nextMsg s. induction n as [| n IH]; intros nextMsg s Hs; [done |].
  rewrite while_nextMsg_unfold by done.
  destruct (buffer _) as [| m rest]; [done |].
  by apply IH, in_cycle_set_buffer, in_cycle_processed_msg.
Qed.

Lemma while_nextMsg_drains fuel n nextMsg s s' :
  in_cycle s ->
  while_nextMsg (dispatch fuel) n nextMsg s = Ok tt s' ->
  drains nextMsg s s'.
Proof.
  revert nextMsg s. induction n as [| n IH]; intros nextMsg s Hs; [done |].
  rewrite while_nextMsg_unfold by done.
  destruct (buffer _) as [| m rest] eqn:Hbuf.
  - intros [= <-]. by apply drains_last.
  - intros Hloop. eapply drains_next; [done |].
    by apply IH; [apply in_cycle_set_buffer, in_cycle_processed_msg |].
Qed.

(** A loop that drains does so with enough fuel, and with any more. *)
Lemma drains_while_nextMsg nextMsg s s' :
  in_cycle s ->
  drains nextMsg s s' ->
  exists n, forall fuel n', n <= n' ->
    while_nextMsg (dispatch fuel) n' nextMsg s = Ok tt s'.
Proof.
  intros Hs Hdr. induction Hdr as [nextMsg s Hbuf | nextMsg s m rest s' Hbuf _ IH].
  - exists 1. intros fuel [| n'] Hn'; [lia |].
    rewrite while_nextMsg_unfold by done. by rewrite Hbuf.
  - destruct IH as [n IH];
      [by apply in_cycle_set_buffer, in_cycle_processed_msg |].
    exists (S n). intros fuel [| n'] Hn'; [lia |].
    rewrite while_nextMsg_unfold by done. rewrite Hbuf. apply IH. lia.
Qed.

(** Every message the loop was entered with, found in the buffer or saw
    dispatched meanwhile has been processed, once and in that order; nothing
    was written to the host; [modified] records whether an update call
    changed the model. *)
Lemma drains_drained nextMsg s s' :
  drains nextMsg s s' -> exists delta, drained nextMsg s s' delta.
Proof.
  induction 1 as [nextMsg s Hbuf | nextMsg s m rest s' Hbuf _ IH].
  - destruct (processed_msg_frame nextMsg s) as (Hre & Him & Hmodel).
    exists (process_events nextMsg s).
    pose proof Hbuf as Hbuf0.
    rewrite processed_msg_buffer in Hbuf0.
    apply app_eq_nil in Hbuf0 as [Hb Hcalls].
    split; try done.
    + apply processed_msg_trace.
    + exists []. by rewrite app_nil_r.
    + unfold processed.
      by rewrite process_events_update_calls, process_events_dispatched, Hb, Hcalls.
    + by rewrite process_events_middleware_calls, process_events_dispatched.
    + apply process_events_loop.
    + apply process_events_host_writes.
    + apply process_events_model_updates.
    + rewrite processed_msg_modified, process_events_update_calls. cbn.
      by rewrite orb_false_r.
    + rewrite process_events_update_calls. cbn. rewrite orb_false_r.
      apply processed_msg_currentModel.
  - destruct (processed_msg_frame nextMsg s) as (Hre & Him & Hmodel).
    destruct IH as [delta [Htr Hre' Him' Hmodel' Hbuf' _ Hproc Hmw Hev Hw Hmu Hmod Hunch]].
    cbn in Hre', Him', Hmodel', Htr, Hproc, Hmod, Hunch.
    rewrite Him in Hmod, Hunch.
    exists (process_events nextMsg s ++ delta).
    rewrite processed_msg_buffer in Hbuf.
    rewrite processed_msg_trace in Htr.
    rewrite processed_msg_modified in Hmod.
    split; try congruence.
    + by rewrite Htr, app_assoc.
    + by exists delta.
    + rewrite processed_app, dispatched_app, Hproc. unfold processed.
      rewrite process_events_update_calls, process_events_dispatched. cbn.
      by rewrite (app_assoc (buffer s)), Hbuf.
    + rewrite middleware_calls_app, dispatched_app, Hmw,
        process_events_middleware_calls, process_events_dispatched.
      by destruct dispatchMiddleware.
    + apply Forall_app. split; [apply process_events_loop | done].
    + by rewrite host_writes_app, Hw, process_events_host_writes.
    + by rewrite model_updates_app, Hmu, process_events_model_updates.
    + rewrite Hmod, update_calls_app, process_events_update_calls. cbn.
      by rewrite orb_assoc.
    + rewrite update_calls_app, process_events_update_calls. cbn.
      intros [Hch Hrest]%orb_false_elim. rewrite Hunch by done. cbn.
      by apply processed_msg_currentModel.
Qed.

(** ** A top-level call of [dispatch] *)

Lemma setModel_merge_committed s : setModel_merge s = Ok tt (committed s).
Proof.
  unfold setModel_merge, committed. msimpl. rewrite log_logged. by msimpl.
Qed.

Lemma in_cycle_started msg s :
  is_Some (initializedModel s) -> in_cycle (started msg s).
Proof. by intros ?. Qed.

Lemma dispatch_idle fuel msg s :
  reentered s = false ->
  is_Some (initializedModel s) ->
  dispatch fuel msg s =
  match fuel with
  | O => OutOfFuel
  | S fuel' =>
      match while_nextMsg (dispatch fuel') fuel' msg (started msg s) with
      | Ok _ s' => Ok tt (finished s')
      | Raised ex s' => Raised ex s'
      | OutOfFuel => OutOfFuel
      end
  end.
Proof.
  intros Hre [im Him].
  assert (Hstart : forall s0,
    set_modified false (set_reentered true
      (add_trace (if dispatchMiddleware then [EvMiddleware msg] else [])
         (add_trace [EvDispatch msg] s0))) = started msg s0).
  { intros s0. unfold started, call_events. state_ext. }
  destruct fuel as [| fuel']; msimpl; rewrite Him;
    destruct dispatchMiddleware eqn:Hmw; msimpl; rewrite Hre; try done.
  - rewrite Hstart.
    destruct (while_nextMsg _ _ _ _) as [[] s' | |]; try done.
    unfold finished. msimpl. destruct (modified s'); [| done].
    by rewrite setModel_merge_committed.
  - specialize (Hstart s). rewrite add_trace_nil in Hstart. rewrite Hstart.
    destruct (while_nextMsg _ _ _ _) as [[] s' | |]; try done.
    unfold finished. msimpl. destruct (modified s'); [| done].
    by rewrite setModel_merge_committed.
Qed.

(** A top-level call returns exactly when its loop drains. *)
Lemma dispatch_returns fuel msg s s' :
  reentered s = false ->
  is_Some (initializedModel s) ->
  dispatch fuel msg s = Ok tt s' ->
  exists s2, drains msg (started msg s) s2 /\ s' = finished s2.
Proof.
  intros Hre Him. rewrite dispatch_idle by done.
  destruct fuel as [| fuel']; [done |].
  destruct (while_nextMsg _ _ _ _) as [[] s2 | |] eqn:Hloop; try done.
  intros [= <-]. exists s2. split; [| done].
  eapply while_nextMsg_drains; [| done]. by apply in_cycle_started.
Qed.

Lemma drains_dispatch msg s s2 :
  reentered s = false ->
  is_Some (initializedModel s) ->
  drains msg (started msg s) s2 ->
  exists n, forall fuel, n <= fuel -> dispatch fuel msg s = Ok tt (finished s2).
Proof.
  intros Hre Him Hdr.
  apply drains_while_nextMsg in Hdr as [n Hn]; [| by apply in_cycle_started].
  exists (S n). intros [| fuel'] Hfuel; [lia |].
  rewrite dispatch_idle by done. rewrite Hn by lia. done.
Qed.

Lemma idle_started_buffer msg s : idle s -> buffer (started msg s) = [].
Proof. by intros (_ & ? & _). Qed.

(** ** Termination

    The loop ends when no chain of messages goes on for ever: when messages
    can be ranked so that processing a message only dispatches messages of
    a lower rank. *)
Section Termination.

Variable rank : Msg -> nat.
Hypothesis rank_decreases :
  forall nextMsg s,
    Forall (fun m => rank m < rank nextMsg) (process_calls nextMsg s).

Lemma drains_ranked bound :
  forall nextMsg s,
    rank nextMsg < bound ->
    Forall (fun m => rank m < bound) (buffer s) ->
    exists s', drains nextMsg s s'.
Proof.
  induction bound as [| bound IH]; intros nextMsg s Hnext Hbuf; [lia |].
  assert (Hfront : forall front back nextMsg s,
            buffer s = front ++ back ->
            rank nextMsg < S bound ->
            Forall (fun m => rank m < S bound) front ->
            Forall (fun m => rank m < bound) back ->
            exists s', drains nextMsg s s').
  { clear nextMsg s Hnext Hbuf.
    induction front as [| x front IHfront];
      intros back nextMsg s Hb Hnext Hfront Hback.
    - pose proof (processed_msg_buffer nextMsg s) as Hb1.
      rewrite Hb in Hb1. cbn in Hb1.
      assert (Hall : Forall (fun m => rank m < bound)
                            (buffer (processed_msg nextMsg s))).
      { rewrite Hb1. apply Forall_app. split; [done |].
        eapply Forall_impl; [apply rank_decreases |]. cbn. intros m. lia. }
      destruct (buffer (processed_msg nextMsg s)) as [| m rest] eqn:Hb2.
      + eexists. by apply drains_last.
      + apply Forall_cons in Hall as [Hm Hrest].
        destruct (IH m (set_buffer rest (processed_msg nextMsg s)) Hm Hrest)
          as [s' Hs'].
        exists s'. by eapply drains_next.
    - pose proof (processed_msg_buffer nextMsg s) as Hb1.
      rewrite Hb in Hb1. cbn in Hb1.
      apply Forall_cons in Hfront as [Hx Hfront].
      destruct (IHfront (back ++ process_calls nextMsg s) x
                  (set_buffer (front ++ back ++ process_calls nextMsg s)
                     (processed_msg nextMsg s))) as [s' Hs']; try done.
      { apply Forall_app. split; [done |].
        eapply Forall_impl; [apply rank_decreases |]. cbn. intros m. lia. }
      exists s'. eapply drains_next; [| done].
      by rewrite Hb1, <- app_assoc. }
  apply (Hfront (buffer s) [] nextMsg s); try done.
  by rewrite app_nil_r.
Qed.

(** With such a ranking every top-level call returns, given enough fuel. *)
Lemma dispatch_terminates msg s :
  idle s ->
  exists n s', forall fuel, n <= fuel -> dispatch fuel msg s = Ok tt s'.
Proof.
  intros Hidle. pose proof (idle_started_buffer msg s Hidle) as Hbuf.
  destruct Hidle as (Hre & _ & Him).
  destruct (drains_ranked (S (rank msg)) msg (started msg s)) as [s2 Hdr];
    [lia | by rewrite Hbuf |].
  apply drains_dispatch in Hdr as [n Hn]; try done.
  by exists n, (finished s2).
Qed.

End Termination.

(** No error leaves [dispatch]. *)
Lemma dispatch_not_raised fuel msg s ex s' :
  dispatch fuel msg s <> Raised ex s'.
Proof.
  destruct (initializedModel s) as [im |] eqn:Him.
  2:{ by rewrite dispatch_uninitialized. }
  destruct (reentered s) eqn:Hre.
  - by rewrite dispatch_in_cycle.
  - rewrite dispatch_idle by done. destruct fuel as [| fuel']; [done |].
    destruct (while_nextMsg _ _ _ _) as [[] s2 | |] eqn:Hloop; try done.
    by apply while_nextMsg_not_raised in Hloop; [| apply in_cycle_started].
Qed.

Lemma finished_trace s : trace (finished s) = trace s ++ finish_events s.
Proof.
  unfold finished, finish_events. destruct (modified s); unfold_state.
  - by rewrite <- app_assoc.
  - by rewrite app_nil_r.
Qed.

Lemma finished_frame s :
  reentered (finished s) = false /\
  buffer (finished s) = buffer s /\
  currentModel (finished s) = currentModel s /\
  initializedModel (finished s) = initializedModel s /\
  modified (finished s) = modified s.
Proof. unfold finished. destruct (modified s) eqn:Hm; by unfold_state. Qed.

Lemma finished_model s :
  model (finished s) =
  if modified s then Some (updated_model s) else model s.
Proof. unfold finished. by destruct (modified s). Qed.

Lemma finish_events_silent {A} (f : Event -> option A) s :
  (forall o, f (EvLog (debug_update_model_for name o)) = None) ->
  f EvSetModel = None ->
  omap f (finish_events s) = [].
Proof.
  intros Hl Hs. unfold finish_events. destruct (modified s); [| done].
  cbn. by rewrite Hs, omap_log_events.
Qed.

Lemma finish_events_host_writes s :
  host_writes (finish_events s) = if modified s then 1 else 0.
Proof.
  unfold finish_events, host_writes. destruct (modified s); [| done].
  cbn. by rewrite omap_log_events.
Qed.

(** A top-level call that returns: the loop drained from [started msg s],
    then [finished]. *)
Lemma dispatch_cycle fuel msg s s' :
  reentered s = false ->
  is_Some (initializedModel s) ->
  dispatch fuel msg s = Ok tt s' ->
  exists s2 delta,
    drained msg (started msg s) s2 delta /\
    s' = finished s2 /\
    trace s' = trace s ++ call_events msg ++ delta ++ finish_events s2.
Proof.
  intros Hre Him Hret.
  apply dispatch_returns in Hret as (s2 & Hdr & ->); try done.
  apply drains_drained in Hdr as [delta Hdr].
  exists s2, delta. split; [done |]. split; [done |].
  rewrite finished_trace, (drained_trace _ _ _ _ Hdr).
  unfold started. cbn. by rewrite <- !app_assoc.
Qed.

Lemma call_events_silent {A} (f : Event -> option A) msg :
  (forall m, f (EvDispatch m) = None) ->
  (forall m, f (EvMiddleware m) = None) ->
  omap f (call_events msg) = [].
Proof.
  intros Hd Hm. unfold call_events. cbn. rewrite Hd.
  destruct dispatchMiddleware; cbn; by rewrite ?Hm.
Qed.

Lemma dispatched_call_events msg : dispatched (call_events msg) = [msg].
Proof. unfold dispatched, call_events. cbn. by destruct dispatchMiddleware. Qed.

(** A top-level call leaves the hook idle again. *)
Lemma dispatch_keeps_idle fuel msg s s' :
  idle s -> dispatch fuel msg s = Ok tt s' -> idle s'.
Proof.
  intros Hidle Hret. pose proof Hidle as (Hre & Hbuf & Him).
  apply dispatch_cycle in Hret as (s2 & delta & Hdr & -> & _); try done.
  destruct (finished_frame s2) as (Hre' & Hbuf' & _ & Him' & _).
  split_and!; [done | |].
  - by rewrite Hbuf', (drained_buffer _ _ _ _ Hdr).
  - by rewrite Him', (drained_initializedModel _ _ _ _ Hdr).
Qed.

(** ** The claims *)

(** C1. Messages dispatched while a cycle runs are appended to the buffer
    (first part: a reentrant [dispatch] returns with the message at the end
    of [buffer]); and when the outer call returns, the messages passed to
    [dispatch] since it was entered -- its own, then the reentrant ones in
    the order they were issued -- are exactly the messages the update logic
    was called with, in that order, and the buffer is empty.  The state the
    call returns in does not depend on the fuel: any larger amount gives
    it too. *)
Theorem C1_reentrant_messages_processed_in_order fuel msg s s' :
  idle s ->
  dispatch fuel msg s = Ok tt s' ->
  (forall fuel1 m s1, in_cycle s1 ->
     exists s2, dispatch fuel1 m s1 = Ok tt s2 /\
                buffer s2 = buffer s1 ++ [m] /\ in_cycle s2) /\
  (exists n, forall fuel', n <= fuel' -> dispatch fuel' msg s = Ok tt s') /\
  exists delta reissued,
    trace s' = trace s ++ delta /\
    dispatched delta = msg :: reissued /\
    processed delta = msg :: reissued /\
    buffer s' = [] /\
    reentered s' = false.
Proof.
  intros Hidle Hret. split.
  { intros fuel1 m s1 Hs1. exists (enqueue_all [m] s1).
    split; [by apply dispatch_in_cycle |]. split; [done |].
    by apply in_cycle_enqueue_all. }
  pose proof (idle_started_buffer msg s Hidle) as Hbuf.
  destruct Hidle as (Hre & _ & Him). split.
  { apply dispatch_returns in Hret as (s2 & Hdr & ->); try done.
    by apply drains_dispatch. }
  apply dispatch_cycle in Hret as (s2 & delta & Hdr & -> & Htr); try done.
  pose proof (drained_processed _ _ _ _ Hdr) as Hproc.
  rewrite Hbuf in Hproc. cbn in Hproc.
  exists (call_events msg ++ delta ++ finish_events s2), (dispatched delta).
  destruct (finished_frame s2) as (Hre' & Hbuf' & _).
  rewrite Hbuf', (drained_buffer _ _ _ _ Hdr).
  repeat split; try done.
  - rewrite !dispatched_app, dispatched_call_events. unfold dispatched at 2.
    by rewrite finish_events_silent, app_nil_r.
  - rewrite !processed_app. unfold processed at 1 3, update_calls.
    rewrite finish_events_silent, call_events_silent by done.
    rewrite Hproc. cbn. by rewrite app_nil_r.
Qed.

(** The host writes of a cycle: one, last, if an update call changed the
    model; none otherwise. *)
Lemma dispatch_cycle_commit fuel msg s s' :
  idle s ->
  dispatch fuel msg s = Ok tt s' ->
  exists delta,
    trace s' = trace s ++ delta /\
    if existsb (fun c => changed_by (initializedModel s) c.1 c.2)
               (update_calls delta)
    then
      host_writes delta = 1 /\
      (exists before updatedModel,
         delta = before ++
                 EvSetModel :: log_events (debug_update_model_for name updatedModel) /\
         host_writes before = 0 /\
         update_calls before = update_calls delta /\
         invoked before = invoked delta /\
         model s' = Some updatedModel /\
         fields updatedModel =
           fields (currentModel s') ∪ from_option fields ∅ (model s))
    else
      host_writes delta = 0 /\
      model_updates delta = [] /\
      model s' = model s /\
      currentModel s' = currentModel s.
Proof.
  intros (Hre & _ & Him) Hret.
  apply dispatch_cycle in Hret as (s2 & delta & Hdr & -> & Htr); try done.
  destruct Hdr as [_ _ Him2 Hmodel2 _ _ _ _ _ Hw Hmu Hmod Hunch].
  unfold started in Him2, Hmodel2, Hmod, Hunch.
  cbn in Him2, Hmodel2, Hmod, Hunch.
  exists (call_events msg ++ delta ++ finish_events s2).
  assert (Hcalls : update_calls (call_events msg ++ delta ++ finish_events s2)
                   = update_calls delta).
  { rewrite !update_calls_app. unfold update_calls at 1 3.
    by rewrite finish_events_silent, call_events_silent, app_nil_r. }
  split; [done |].
  rewrite Hcalls, <- Hmod.
  assert (Hw0 : host_writes (call_events msg) = 0).
  { unfold host_writes. by rewrite call_events_silent. }
  assert (Hwrites : host_writes (call_events msg ++ delta ++ finish_events s2)
                    = if modified s2 then 1 else 0).
  { by rewrite !host_writes_app, Hw, Hw0, finish_events_host_writes. }
  rewrite Hwrites, finished_model.
  destruct (finished_frame s2) as (_ & _ & Hcm & _).
  destruct (modified s2) eqn:Hm.
  - split; [done |].
    exists (call_events msg ++ delta), (updated_model (set_reentered false s2)).
    unfold finish_events. rewrite Hm, <- app_assoc.
    repeat split; try done.
    + by rewrite host_writes_app, Hw, Hw0.
    + rewrite update_calls_app. unfold update_calls at 1.
      by rewrite call_events_silent.
    + unfold invoked. rewrite !omap_app. cbn.
      rewrite omap_log_events by done. by rewrite app_nil_r.
    + rewrite Hcm. cbn. by rewrite Hmodel2.
  - repeat split; try done.
    + rewrite !model_updates_app, Hmu. unfold model_updates.
      rewrite call_events_silent by done.
      unfold finish_events. by rewrite Hm.
    + rewrite Hcm. apply Hunch. by rewrite <- Hmod.
Qed.

Lemma modelHasChanged_spec im newModel :
  modelHasChanged im newModel = true <->
  fields newModel <> ∅ /\ Some (oid newModel) <> oid <$> im.
Proof.
  unfold modelHasChanged.
  rewrite andb_true_iff, negb_true_iff, bool_decide_eq_false, bool_decide_eq_true.
  rewrite <- (map_size_empty_iff (fields newModel)). split; intros [? ?]; split; try done; lia.
Qed.

Lemma unchanged_changed_by im msg w newModel cmd :
  outcome msg w = inl (newModel, cmd) ->
  fields newModel = ∅ \/ Some (oid newModel) = oid <$> im ->
  changed_by im msg w = false.
Proof.
  intros Hend Hun. unfold changed_by. rewrite Hend.
  apply not_true_is_false. rewrite modelHasChanged_spec. intros [? ?].
  by destruct Hun.
Qed.

(** What the test of line 48 lets through.  [modelHasChanged] accepts a
    returned partial model exactly when it has a property and is not the
    object held in [initializedModel]; a message whose partial model it turns
    down is processed without a merge and without setting [modified], and a
    cycle of such messages makes no [setModel] call and logs no
    [update model for]. *)
Lemma turned_down_partial_models_are_not_written fuel msg s s' :
  idle s ->
  dispatch fuel msg s = Ok tt s' ->
  (forall im newModel,
     modelHasChanged im newModel = true <->
     fields newModel <> ∅ /\ Some (oid newModel) <> oid <$> im) /\
  (forall fuel1 nextMsg s1 newModel cmd,
     in_cycle s1 ->
     update_outcome nextMsg s1 = inl (newModel, cmd) ->
     fields newModel = ∅ \/ Some (oid newModel) = oid <$> initializedModel s1 ->
     exists s2,
       process (dispatch fuel1) nextMsg s1 = Ok tt s2 /\
       currentModel s2 = currentModel s1 /\
       modified s2 = modified s1) /\
  exists delta,
    trace s' = trace s ++ delta /\
    (Forall (fun c => forall newModel cmd,
               outcome c.1 c.2 = inl (newModel, cmd) ->
               fields newModel = ∅ \/
               Some (oid newModel) = oid <$> initializedModel s)
            (update_calls delta) ->
     host_writes delta = 0 /\
     model_updates delta = [] /\
     model s' = model s /\
     currentModel s' = currentModel s).
Proof.
  intros Hidle Hret. split; [apply modelHasChanged_spec |]. split.
  { intros fuel1 nextMsg s1 newModel cmd Hs1 Hout Hun.
    exists (processed_msg nextMsg s1).
    split; [by apply process_in_cycle |].
    pose proof (unchanged_changed_by _ _ _ _ _ Hout Hun) as Hch.
    split; [by apply processed_msg_currentModel |].
    by rewrite processed_msg_modified, Hch, orb_false_r. }
  destruct (dispatch_cycle_commit fuel msg s s' Hidle Hret) as (delta & Htr & H).
  exists delta. split; [done |]. intros Hall.
  assert (Hnone : existsb (fun c => changed_by (initializedModel s) c.1 c.2)
                    (update_calls delta) = false).
  { apply not_true_is_false. rewrite existsb_exists.
    intros ([m w] & Hin & Hch). rewrite Forall_forall in Hall.
    apply list_elem_of_In in Hin. pose proof (Hall _ Hin) as Hun.
    cbn in Hun, Hch. unfold changed_by in Hch.
    destruct (outcome _ _) as [[newModel cmd] | ex] eqn:Hend; [| done].
    specialize (Hun _ _ eq_refl).
    apply modelHasChanged_spec in Hch as [? ?]. by destruct Hun. }
  by rewrite Hnone in H.
Qed.

(** The loop body for a message whose update call throws. *)
Lemma process_update_throws fuel n nextMsg s ex :
  in_cycle s ->
  update_outcome nextMsg s = inr ex ->
  exists s1,
    process (dispatch fuel) nextMsg s = Ok tt s1 /\
    trace s1 = trace s ++ process_events nextMsg s /\
    process_events nextMsg s =
      log_events (info_message_from name (msg_name nextMsg)) ++
      log_events (debug_message_from name nextMsg) ++
      [EvUpdate nextMsg (working_model s)] ++
      calls_events (script_calls (update_script nextMsg (working_model s))) ++
      log_events (error ex) /\
    invoked (process_events nextMsg s) = [] /\
    log_calls (process_events nextMsg s) =
      (if LoggerService
       then [info_message_from name (msg_name nextMsg);
             debug_message_from name nextMsg; error ex]
       else []) /\
    buffer s1 =
      buffer s ++ script_calls (update_script nextMsg (working_model s)) /\
    currentModel s1 = currentModel s /\
    modified s1 = modified s /\
    model s1 = model s /\
    while_nextMsg (dispatch fuel) (S n) nextMsg s =
      match buffer s1 with
      | [] => Ok tt s1
      | m :: rest => while_nextMsg (dispatch fuel) n m (set_buffer rest s1)
      end.
Proof.
  intros Hs Hout. exists (processed_msg nextMsg s).
  assert (Hch : changed_by (initializedModel s) nextMsg (working_model s) = false).
  { unfold changed_by. unfold update_outcome in Hout. by rewrite Hout. }
  destruct (processed_msg_frame nextMsg s) as (_ & _ & Hmodel).
  assert (Hev : process_events nextMsg s =
      log_events (info_message_from name (msg_name nextMsg)) ++
      log_events (debug_message_from name nextMsg) ++
      [EvUpdate nextMsg (working_model s)] ++
      calls_events (script_calls (update_script nextMsg (working_model s))) ++
      log_events (error ex)).
  { unfold process_events. by rewrite Hout. }
  split_and!; try done.
  - by apply process_in_cycle.
  - apply processed_msg_trace.
  - rewrite Hev. unfold invoked.
    by rewrite !omap_app, !omap_log_events, omap_calls_events.
  - rewrite Hev. unfold log_calls.
    rewrite !omap_app, omap_calls_events by done.
    unfold log_events. by destruct LoggerService.
  - rewrite processed_msg_buffer. unfold process_calls.
    by rewrite Hout, app_nil_r.
  - by apply processed_msg_currentModel.
  - by rewrite processed_msg_modified, Hch, orb_false_r.
  - by apply while_nextMsg_unfold.
Qed.

(** C4. A message whose update call throws: the error is caught and logged,
    no effect function is invoked and nothing is merged ([currentModel],
    [modified] and the host's state stay as they were), the loop goes on
    with the next buffered message or ends, and no call of [dispatch] ever
    raises. *)
Theorem C4_update_error_is_caught fuel n nextMsg s ex :
  in_cycle s ->
  update_outcome nextMsg s = inr ex ->
  (forall fuel0 msg0 s0 ex0 s0', dispatch fuel0 msg0 s0 <> Raised ex0 s0') /\
  exists s1,
    process (dispatch fuel) nextMsg s = Ok tt s1 /\
    trace s1 = trace s ++ process_events nextMsg s /\
    process_events nextMsg s =
      log_events (info_message_from name (msg_name nextMsg)) ++
      log_events (debug_message_from name nextMsg) ++
      [EvUpdate nextMsg (working_model s)] ++
      calls_events (script_calls (update_script nextMsg (working_model s))) ++
      log_events (error ex) /\
    invoked (process_events nextMsg s) = [] /\
    log_calls (process_events nextMsg s) =
      (if LoggerService
       then [info_message_from name (msg_name nextMsg);
             debug_message_from name nextMsg; error ex]
       else []) /\
    buffer s1 =
      buffer s ++ script_calls (update_script nextMsg (working_model s)) /\
    currentModel s1 = currentModel s /\
    modified s1 = modified s /\
    model s1 = model s /\
    while_nextMsg (dispatch fuel) (S n) nextMsg s =
      match buffer s1 with
      | [] => Ok tt s1
      | m :: rest => while_nextMsg (dispatch fuel) n m (set_buffer rest s1)
      end.
Proof.
  intros Hs Hout. split.
  - intros. apply dispatch_not_raised.
  - by apply process_update_throws.
Qed.

(** C10, as amended. A message whose name is no property of the handler
    map, neither one of its own nor one it inherits along its prototype
    chain: the lookup of line 135 gives [undefined], so [callUpdateMap]
    raises the [TypeError] of calling [undefined]; inside a cycle that error
    is caught like any update error: it is logged, no handler and no effect
    is run, nothing is queued or merged, and the loop goes on with the next
    buffered message. *)
Theorem C10_missing_handler_is_absorbed fuel n updateMap nextMsg s :
  update = UpdateMap updateMap ->
  handlers updateMap !! msg_name nextMsg = None ->
  inherited updateMap !! msg_name nextMsg = None ->
  in_cycle s ->
  (forall d model s0,
     callUpdateMap d updateMap nextMsg model props s0 =
     Raised (TypeError_not_a_function (msg_name nextMsg)) s0) /\
  exists s1,
    process (dispatch fuel) nextMsg s = Ok tt s1 /\
    trace s1 =
      trace s ++
      log_events (info_message_from name (msg_name nextMsg)) ++
      log_events (debug_message_from name nextMsg) ++
      [EvUpdate nextMsg (working_model s)] ++
      log_events (error (TypeError_not_a_function (msg_name nextMsg))) /\
    invoked (process_events nextMsg s) = [] /\
    buffer s1 = buffer s /\
    currentModel s1 = currentModel s /\
    modified s1 = modified s /\
    model s1 = model s /\
    while_nextMsg (dispatch fuel) (S n) nextMsg s =
      match buffer s1 with
      | [] => Ok tt s1
      | m :: rest => while_nextMsg (dispatch fuel) n m (set_buffer rest s1)
      end.
Proof.
  intros Hupd Hown Hinherited Hs.
  assert (Hnone : property updateMap (msg_name nextMsg) = None).
  { unfold property, UpdateMapHandler, Member in *. by rewrite Hown. }
  split.
  { intros d model s0. unfold callUpdateMap. by rewrite Hnone. }
  assert (Hscript : update_script nextMsg (working_model s) =
                    Throw (TypeError_not_a_function (msg_name nextMsg))).
  { unfold update_script. rewrite Hupd. by rewrite Hnone. }
  destruct (process_update_throws fuel n nextMsg s
              (TypeError_not_a_function (msg_name nextMsg)) Hs)
    as (s1 & Hproc & Htr & Hev & Hinv & _ & Hbuf & Hcm & Hmod & Hmodel & Hloop).
  { unfold update_outcome, outcome. by rewrite Hscript. }
  rewrite Hev, Hscript in Htr. rewrite Hscript in Hbuf.
  cbn in Htr, Hbuf. rewrite app_nil_r in Hbuf.
  by exists s1.
Qed.

(** C6. Before the model exists [dispatch] returns at once, for any fuel:
    the call is recorded and nothing else happens -- no middleware or update
    call, no push, no [setModel]. *)
Theorem C6_dispatch_before_initialization fuel msg s :
  initializedModel s = None ->
  exists s',
    dispatch fuel msg s = Ok tt s' /\
    trace s' = trace s ++ [EvDispatch msg] /\
    buffer s' = buffer s /\
    reentered s' = reentered s /\
    currentModel s' = currentModel s /\
    model s' = model s.
Proof.
  intros Hnone. exists (add_trace [EvDispatch msg] s).
  by rewrite dispatch_uninitialized.
Qed.

(** ** Command execution in any state *)

Lemma dispatch_extends fuel msg s s' :
  dispatch fuel msg s = Ok tt s' ->
  exists d, trace s' = trace s ++ d /\ Forall (fun e => loop_event e = true) d.
Proof.
  destruct (initializedModel s) as [im |] eqn:Him.
  2:{ rewrite dispatch_uninitialized by done. intros [= <-].
      eexists. split; [done |]. by repeat constructor. }
  destruct (reentered s) eqn:Hre.
  - rewrite dispatch_in_cycle by done. intros [= <-].
    eexists. split; [done |]. apply calls_events_loop.
  - intros Hret.
    apply dispatch_cycle in Hret as (s2 & delta & Hdr & _ & Htr); eauto.
    eexists. split; [done |].
    repeat (apply Forall_app; split).
    + apply call_events_loop.
    + apply (drained_events _ _ _ _ Hdr).
    + apply finish_events_loop.
Qed.

(** A script run against [dispatch] ends the way its text says. *)
Lemma run_dispatch {A} fuel (p : Script A) s :
  match run (dispatch fuel) p s with
  | Ok a s' =>
      script_end p = inl a /\
      exists d, trace s' = trace s ++ d /\
                Forall (fun e => loop_event e = true) d
  | Raised ex s' =>
      script_end p = inr ex /\
      exists d, trace s' = trace s ++ d /\
                Forall (fun e => loop_event e = true) d
  | OutOfFuel => True
  end.
Proof.
  revert s. induction p as [a | ex | m k IH]; intros s; cbn.
  - split; [done |]. exists []. by rewrite app_nil_r.
  - split; [done |]. exists []. by rewrite app_nil_r.
  - unfold bind. destruct (dispatch fuel m s) as [[] s1 | ex s1 |] eqn:Hd.
    + apply dispatch_extends in Hd as (d1 & Hd1 & Hl1). specialize (IH s1).
      destruct (run (dispatch fuel) k s1) as [a s2 | ex s2 |]; try done;
        destruct IH as (? & d2 & Hd2 & Hl2); (split; [done |]);
        exists (d1 ++ d2); (split; [by rewrite Hd2, Hd1, app_assoc |]);
        by apply Forall_app.
    + by apply dispatch_not_raised in Hd.
    + done.
Qed.

Lemma execCmd_not_raised fuel cmd s ex s' :
  execCmd (dispatch fuel) cmd s <> Raised ex s'.
Proof.
  revert s. induction cmd as [| call rest IH]; intros s; [done |].
  cbn. unfold bind, try_catch. cbn.
  destruct (run (dispatch fuel) call _) as [[] s1 | ex1 s1 |]; try done.
  rewrite log_logged. apply IH.
Qed.

Lemma execCmd_expected fuel cmd s s' :
  execCmd (dispatch fuel) cmd s = Ok tt s' ->
  exists delta,
    trace s' = trace s ++ delta /\
    expected_events cmd `sublist_of` delta /\
    Forall (fun e => loop_event e = true) delta.
Proof.
  revert s. induction cmd as [| call rest IH]; intros s.
  - intros [= <-]. exists []. by rewrite app_nil_r.
  - cbn. unfold bind, try_catch. cbn.
    pose proof (run_dispatch fuel call (add_trace [EvEffect call] s)) as Hrun.
    destruct (run (dispatch fuel) call _) as [[] s1 | ex1 s1 |]; try done.
    + destruct Hrun as (Hend & d & Hd & Hl).
      intros (delta & Htr & Hsub & Hld)%IH.
      exists ([EvEffect call] ++ d ++ delta). split_and!.
      * rewrite Htr, Hd. cbn. by rewrite <- !app_assoc.
      * rewrite Hend. cbn. apply sublist_skip. by apply sublist_inserts_l.
      * constructor; [done |]. by apply Forall_app.
    + destruct Hrun as (Hend & d & Hd & Hl). rewrite log_logged.
      intros (delta & Htr & Hsub & Hld)%IH.
      exists ([EvEffect call] ++ d ++ log_events (error ex1) ++ delta).
      split_and!.
      * rewrite Htr. unfold logged. cbn. rewrite Hd. cbn.
        by rewrite <- !app_assoc.
      * rewrite Hend. cbn. apply sublist_skip, sublist_inserts_l.
        by apply sublist_app.
      * constructor; [done |]. repeat (apply Forall_app; split); try done.
        apply log_events_loop.
Qed.

Lemma log_calls_cmd_events cmd :
  log_calls (cmd_events cmd) =
  if LoggerService then error <$> thrown cmd else [].
Proof.
  induction cmd as [| call rest IH]; [by destruct LoggerService |].
  unfold cmd_events, effect_events, log_calls, thrown in *. cbn.
  rewrite !omap_app, IH, omap_calls_events by done.
  unfold log_events.
  destruct (script_end call), LoggerService; by cbn.
Qed.

(** C5. [execCmd] never raises.  When it returns, every effect function of
    the list has been invoked, in list order, and the error of each one that
    threw has been logged before the next was invoked.  Inside a cycle it
    always returns: the effect functions are invoked once each, in list
    order, what they dispatch is queued, and the loop body that called it
    returns too. *)
Theorem C5_execCmd_runs_every_effect fuel cmd s :
  (forall ex s', execCmd (dispatch fuel) cmd s <> Raised ex s') /\
  (forall s', execCmd (dispatch fuel) cmd s = Ok tt s' ->
     exists delta,
       trace s' = trace s ++ delta /\
       expected_events cmd `sublist_of` delta) /\
  (in_cycle s ->
     exists s',
       execCmd (dispatch fuel) cmd s = Ok tt s' /\
       trace s' = trace s ++ cmd_events cmd /\
       invoked (cmd_events cmd) = cmd /\
       log_calls (cmd_events cmd) =
         (if LoggerService then error <$> thrown cmd else []) /\
       buffer s' = buffer s ++ cmd_calls cmd /\
       in_cycle s' /\
       forall nextMsg s0, in_cycle s0 ->
         exists s1, process (dispatch fuel) nextMsg s0 = Ok tt s1).
Proof.
  split_and!.
  - intros ex s'. apply execCmd_not_raised.
  - intros s' (delta & ? & ? & _)%execCmd_expected. by exists delta.
  - intros Hs. exists (cmd_done cmd s). split_and!; try done.
    + by apply execCmd_in_cycle.
    + apply invoked_cmd_events.
    + apply log_calls_cmd_events.
    + intros nextMsg s0 Hs0. eexists. by apply process_in_cycle.
Qed.

(** C7, as amended. With a middleware configured and the model initialised,
    a call of [dispatch] calls the middleware with its message before
    anything else; the same message is then pushed on the buffer (inside a
    cycle) or is the first message handed to the update logic (otherwise);
    and the middleware has seen every message passed to [dispatch] during
    the call, in order. *)
Theorem C7_middleware_sees_every_message fuel msg s s' :
  dispatchMiddleware = true ->
  is_Some (initializedModel s) ->
  dispatch fuel msg s = Ok tt s' ->
  exists rest,
    trace s' = trace s ++ EvDispatch msg :: EvMiddleware msg :: rest /\
    middleware_calls (EvDispatch msg :: EvMiddleware msg :: rest) =
      dispatched (EvDispatch msg :: EvMiddleware msg :: rest) /\
    if reentered s
    then rest = [] /\ buffer s' = buffer s ++ [msg]
    else exists after,
           rest =
             log_events (info_message_from name (msg_name msg)) ++
             log_events (debug_message_from name msg) ++
             EvUpdate msg (working_model s) :: after.
Proof.
  intros Hmw Him Hret. destruct (reentered s) eqn:Hre.
  - rewrite dispatch_in_cycle in Hret by done. injection Hret as <-.
    exists []. unfold enqueue_all, calls_events, call_events. cbn.
    by rewrite Hmw.
  - apply dispatch_cycle in Hret as (s2 & delta & Hdr & -> & Htr); try done.
    exists (delta ++ finish_events s2).
    destruct Hdr as [_ _ _ _ _ [more Hfirst] _ Hmwc _ _ _ _ _].
    rewrite Hmw in Hmwc. split_and!.
    + rewrite Htr. unfold call_events. by rewrite Hmw.
    + change (EvDispatch msg :: EvMiddleware msg :: delta ++ finish_events s2)
        with ([EvDispatch msg; EvMiddleware msg] ++ delta ++ finish_events s2).
      assert (Hf1 : middleware_calls (finish_events s2) = []).
      { unfold middleware_calls. by rewrite finish_events_silent. }
      assert (Hf2 : dispatched (finish_events s2) = []).
      { unfold dispatched. by rewrite finish_events_silent. }
      by rewrite !middleware_calls_app, !dispatched_app, Hmwc, Hf1, Hf2.
    + exists (calls_events (script_calls (update_script msg (working_model s))) ++
              match update_outcome msg (started msg s) with
              | inr ex => log_events (error ex)
              | inl (_, ACmd cmd) => cmd_events cmd
              | inl (_, NoCmd) => []
              | inl (_, NotACmd) =>
                  log_events (error (TypeError_not_a_function "forEach"))
              end ++ more ++ finish_events s2).
      rewrite Hfirst. unfold process_events.
      change (working_model (started msg s)) with (working_model s).
      rewrite <- !app_assoc. cbn. by rewrite <- ?app_assoc.
Qed.

(** ** Facts about the component's lifetime *)

Lemma loop_body_event tr :
  Forall (fun e => loop_event e = true) tr ->
  Forall (fun e => body_event e = true) tr.
Proof. intros Hl. eapply Forall_impl; [done |]. by intros []. Qed.

Lemma subscription_calls_body tr :
  Forall (fun e => body_event e = true) tr -> subscription_calls tr = [].
Proof. induction 1 as [| [] tr He _ IH]; done. Qed.

Lemma destructor_calls_body tr :
  Forall (fun e => body_event e = true) tr -> destructor_calls tr = [].
Proof. induction 1 as [| [] tr He _ IH]; done. Qed.

Lemma init_calls_loop tr :
  Forall (fun e => loop_event e = true) tr -> init_calls tr = 0.
Proof.
  unfold init_calls. induction 1 as [| [] tr He _ IH]; done.
Qed.

(** The first render calls [init] and returns the model it built. *)
Lemma useElmish_first fuel s initializedModel s1 :
  useElmish fuel true s = Ok initializedModel s1 ->
  initializedModel = (init props).1 /\
  exists d, trace s1 = trace s ++ EvInit :: d /\
            Forall (fun e => loop_event e = true) d.
Proof.
  unfold useElmish, setModel, new_object. msimpl.
  destruct (init props) as [initModel [initCmd |]]; msimpl.
  - destruct (execCmd _ _ _) as [[] s2 | |] eqn:Hexec; try done.
    intros [= <- <-]. split; [done |].
    apply execCmd_expected in Hexec as (delta & Htr & _ & Hl).
    exists (EvSetModel :: delta). split.
    + rewrite Htr. cbn. by rewrite <- !app_assoc.
    + by constructor.
  - intros [= <- <-]. split; [done |].
    exists [EvSetModel]. split; [cbn; by rewrite <- app_assoc |].
    by repeat constructor.
Qed.

(** A later render runs no subscription and no cleanup. *)
Lemma useElmish_later fuel s initializedModel s1 :
  useElmish fuel false s = Ok initializedModel s1 ->
  exists d, trace s1 = trace s ++ d /\
            Forall (fun e => body_event e = true) d.
Proof.
  unfold useElmish, setModel, new_object. msimpl.
  destruct (model s) as [m |]; msimpl.
  { intros [= <- <-]. exists []. by rewrite app_nil_r. }
  destruct (init props) as [initModel [initCmd |]]; msimpl.
  - destruct (execCmd _ _ _) as [[] s2 | |] eqn:Hexec; try done.
    intros [= <- <-].
    apply execCmd_expected in Hexec as (delta & Htr & _ & Hl).
    exists (EvInit :: EvSetModel :: delta). split.
    + rewrite Htr. cbn. by rewrite <- !app_assoc.
    + repeat constructor. by apply loop_body_event.
  - intros [= <- <-].
    exists [EvInit; EvSetModel]. split; [cbn; by rewrite <- app_assoc |].
    by repeat constructor.
Qed.

(** The host's calls of the component in one render, call by call. *)
Lemma rendered_unfold fuel first s :
  rendered fuel first s =
  match useElmish fuel first s with
  | Ok returned s1 =>
      if first || bool_decide (model s = None)
      then useElmish fuel false s1
      else Ok returned s1
  | Raised ex s1 => Raised ex s1
  | OutOfFuel => OutOfFuel
  end.
Proof.
  unfold rendered, bind, gets. cbn.
  destruct (useElmish fuel first s) as [returned s1 | |]; try done.
  by destruct (first || bool_decide (model s = None)).
Qed.

Lemma rendered_later fuel s initializedModel s1 :
  rendered fuel false s = Ok initializedModel s1 ->
  exists d, trace s1 = trace s ++ d /\
            Forall (fun e => body_event e = true) d.
Proof.
  rewrite rendered_unfold.
  destruct (useElmish fuel false s) as [returned s0 | |] eqn:Hcall; try done.
  apply useElmish_later in Hcall as (d1 & Hd1 & Hb1). cbn.
  destruct (bool_decide (model s = None)).
  - intros (d2 & Hd2 & Hb2)%useElmish_later.
    exists (d1 ++ d2). split; [by rewrite Hd2, Hd1, app_assoc |].
    by apply Forall_app.
  - intros [= <- <-]. by exists d1.
Qed.

(** Once mounted, a component keeps its hooks: renders and dispatches run
    no subscription and no cleanup. *)
Lemma host_events_mounted fuel evs cleanup s h' s' :
  host_events fuel evs (mkHooks (Some []) cleanup) s = Ok h' s' ->
  h' = mkHooks (Some []) cleanup /\
  exists d, trace s' = trace s ++ d /\
            Forall (fun e => body_event e = true) d.
Proof.
  revert s. induction evs as [| [| msg] evs IH]; intros s; cbn.
  - intros [= <- <-]. split; [done |]. exists []. by rewrite app_nil_r.
  - unfold bind, render. cbn. unfold bind.
    destruct (rendered fuel false s) as [im s1 | |] eqn:Hrender; try done.
    cbn. apply rendered_later in Hrender as (d1 & Hd1 & Hb1).
    intros (-> & d2 & Hd2 & Hb2)%IH. split; [done |].
    exists (d1 ++ d2). split; [by rewrite Hd2, Hd1, app_assoc |].
    by apply Forall_app.
  - unfold bind.
    destruct (dispatch fuel msg s) as [[] s1 | |] eqn:Hd; try done.
    apply dispatch_extends in Hd as (d1 & Hd1 & Hl1).
    intros (-> & d2 & Hd2 & Hb2)%IH. split; [done |].
    exists (d1 ++ d2). split; [by rewrite Hd2, Hd1, app_assoc |].
    apply Forall_app. split; [by apply loop_body_event | done].
Qed.

(** *** Between calls the hook is idle

    The first render leaves the hook initialised and [idle]; renders,
    subscriptions and top-level dispatches keep it so.  [idle] is thus the
    state in which every call from outside finds the hook. *)

Lemma run_keeps_idle {A} fuel (p : Script A) s :
  idle s ->
  match run (dispatch fuel) p s with
  | Ok _ s' | Raised _ s' => idle s'
  | OutOfFuel => True
  end.
Proof.
  revert s. induction p as [a | ex | m k IH]; intros s Hs; cbn; try done.
  unfold bind. destruct (dispatch fuel m s) as [[] s1 | ex s1 |] eqn:Hd.
  - apply IH. by eapply dispatch_keeps_idle.
  - by apply dispatch_not_raised in Hd.
  - done.
Qed.

Lemma execCmd_keeps_idle fuel cmd s s' :
  idle s -> execCmd (dispatch fuel) cmd s = Ok tt s' -> idle s'.
Proof.
  revert s. induction cmd as [| call rest IH]; intros s Hs; cbn.
  - by intros [= <-].
  - unfold bind, try_catch. cbn.
    pose proof (run_keeps_idle fuel call (add_trace [EvEffect call] s) Hs)
      as Hrun.
    destruct (run (dispatch fuel) call _) as [[] s1 | ex1 s1 |]; try done.
    + by apply IH.
    + rewrite log_logged. by apply IH.
Qed.

Lemma useElmish_first_idle fuel s initializedModel s1 :
  useElmish fuel true s = Ok initializedModel s1 -> idle s1.
Proof.
  unfold useElmish, setModel, new_object. msimpl.
  destruct (init props) as [initModel [initCmd |]]; msimpl.
  - destruct (execCmd _ _ _) as [[] s2 | |] eqn:Hexec; try done.
    intros [= <- <-]. eapply execCmd_keeps_idle; [| done].
    split_and!; [done | done | by eexists].
  - intros [= <- <-]. split_and!; [done | done | by eexists].
Qed.

Lemma idle_frame s s' :
  reentered s' = reentered s ->
  buffer s' = buffer s ->
  initializedModel s' = initializedModel s ->
  idle s -> idle s'.
Proof. unfold idle. by intros -> -> ->. Qed.

Lemma useElmish_later_idle fuel s initializedModel s1 :
  idle s -> useElmish fuel false s = Ok initializedModel s1 -> idle s1.
Proof.
  intros Hs. unfold useElmish, setModel, new_object. msimpl.
  destruct (model s) as [m |]; msimpl.
  { intros [= <- <-]. by eapply idle_frame. }
  destruct (init props) as [initModel [initCmd |]]; msimpl.
  - destruct (execCmd _ _ _) as [[] s2 | |] eqn:Hexec; try done.
    intros [= <- <-]. eapply execCmd_keeps_idle; [| done].
    by eapply idle_frame.
  - intros [= <- <-]. by eapply idle_frame.
Qed.

Lemma rendered_idle fuel first s initializedModel s1 :
  first = true \/ idle s ->
  rendered fuel first s = Ok initializedModel s1 -> idle s1.
Proof.
  intros Hs. rewrite rendered_unfold.
  destruct (useElmish fuel first s) as [returned s0 | |] eqn:Hcall; try done.
  assert (Hs0 : idle s0).
  { destruct first.
    - by eapply useElmish_first_idle.
    - destruct Hs as [? | Hs]; [done |]. by eapply useElmish_later_idle. }
  destruct (first || bool_decide (model s = None)).
  - by apply useElmish_later_idle.
  - by intros [= <- <-].
Qed.

Lemma subscribe_keeps_idle fuel initializedModel s cleanup s1 :
  idle s -> subscribe fuel initializedModel s = Ok cleanup s1 -> idle s1.
Proof.
  intros Hs. unfold subscribe.
  destruct subscription as [sub |]; msimpl; [| by intros [= <- <-]].
  destruct (sub initializedModel) as [subCmd destructor]. msimpl.
  destruct (execCmd _ _ _) as [[] s2 | |] eqn:Hexec; try done.
  intros [= <- <-]. eapply execCmd_keeps_idle; [| done].
  by eapply idle_frame.
Qed.

Lemma render_idle fuel h s h' s1 :
  mounted h = false \/ idle s ->
  render fuel h s = Ok h' s1 ->
  idle s1 /\ mounted h' = true.
Proof.
  intros Hs. unfold render. unfold bind at 1.
  destruct (rendered _ _ _) as [im s0 | |] eqn:Hrender; try done.
  assert (Hs0 : idle s0).
  { eapply rendered_idle; [| done].
    destruct Hs as [-> | Hs]; [by left | by right]. }
  destruct (deps_changed (effect_deps h) []) eqn:Hdeps.
  - unfold run_cleanup. destruct (effect_cleanup h) as [destructor |]; msimpl;
      (destruct (subscribe _ _ _) as [c s2 | |] eqn:Hsub; try done);
      intros [= <- <-]; (split; [| done]);
      (eapply subscribe_keeps_idle; [| done]); by eapply idle_frame.
  - intros [= <- <-]. split; [done |].
    unfold mounted. by destruct (effect_deps h).
Qed.

Lemma host_events_idle fuel evs h s h' s1 :
  idle s -> host_events fuel evs h s = Ok h' s1 -> idle s1.
Proof.
  revert h s. induction evs as [| [| msg] evs IH]; intros h s Hs; cbn.
  - by intros [= <- <-].
  - unfold bind. destruct (render fuel h s) as [h0 s0 | |] eqn:Hr; try done.
    apply render_idle in Hr as [Hs0 _]; [| by right]. by apply IH.
  - unfold bind.
    destruct (dispatch fuel msg s) as [[] s0 | |] eqn:Hd; try done.
    apply IH. by eapply dispatch_keeps_idle.
Qed.

(** From the mount on, whatever state the hook's variables held before. *)
Lemma mounted_idle fuel evs s h s1 h' s2 :
  render fuel unmounted s = Ok h s1 ->
  host_events fuel evs h s1 = Ok h' s2 ->
  idle s1 /\ idle s2.
Proof.
  intros Hr Hev. apply render_idle in Hr as [Hs1 _]; [| by left].
  split; [done |]. by eapply host_events_idle.
Qed.

(** ** The accumulator over a cycle *)

Lemma processed_msg_accumulates nextMsg s :
  fields (currentModel (processed_msg nextMsg s)) =
  accepted (initializedModel s) (nextMsg, working_model s) ∪
  fields (currentModel s).
Proof.
  unfold processed_msg, accepted. cbn. rewrite !working_model_logged.
  destruct (outcome _ _) as [[newModel [cmd | |]] | ex]; cbn;
    try destruct (modelHasChanged _ _) eqn:Hch; unfold_state; rewrite ?Hch;
    cbn; by rewrite ?(left_id_L ∅ (∪)).
Qed.

Lemma accumulate_grows im calls :
  forall cm, exists extra, accumulate im cm calls = extra ∪ cm.
Proof.
  unfold accumulate.
  induction calls as [| call rest IH]; intros cm; cbn.
  - exists ∅. by rewrite (left_id_L ∅ (∪)).
  - destruct (IH (accepted im call ∪ cm)) as [extra ->].
    exists (extra ∪ accepted im call). by rewrite (assoc_L (∪)).
Qed.

(** The loop hands each message the accumulator as the messages before it
    left it, and leaves in it what they all added. *)
Lemma drains_accumulates nextMsg s s' :
  drains nextMsg s s' ->
  forall delta,
    trace s' = trace s ++ delta ->
    handed (initializedModel s) (fields (currentModel s)) (update_calls delta) /\
    fields (currentModel s') =
      accumulate (initializedModel s) (fields (currentModel s))
                 (update_calls delta).
Proof.
  induction 1 as [nextMsg s Hbuf | nextMsg s m rest s' Hbuf Hdr IH];
    intros delta Htr.
  - rewrite processed_msg_trace in Htr. apply app_inv_head in Htr as <-.
    rewrite process_events_update_calls. cbn.
    by rewrite processed_msg_accumulates.
  - destruct (drains_drained _ _ _ Hdr) as [d Hd].
    pose proof (drained_trace _ _ _ _ Hd) as Htr'. cbn in Htr'.
    rewrite processed_msg_trace in Htr'.
    rewrite Htr', <- app_assoc in Htr. apply app_inv_head in Htr as <-.
    specialize (IH d). cbn in IH. rewrite processed_msg_trace in IH.
    destruct IH as [Hhanded Hacc]; [by rewrite Htr' |].
    destruct (processed_msg_frame nextMsg s) as (_ & Him & _).
    rewrite Him, processed_msg_accumulates in Hhanded, Hacc.
    rewrite update_calls_app, process_events_update_calls. by cbn.
Qed.

Lemma from_option_fields (o : option JsObj) (m : gmap string Val) :
  fields <$> o = Some m -> from_option fields ∅ o = m.
Proof. destruct o; cbn; congruence. Qed.

(** A top-level call that returns, as the model sees it. *)
Lemma dispatch_cycle_model fuel msg s s' :
  idle s ->
  dispatch fuel msg s = Ok tt s' ->
  idle s' /\
  initializedModel s' = initializedModel s /\
  exists delta,
    trace s' = trace s ++ delta /\
    Forall (fun e => loop_event e = true) delta /\
    dispatched delta = processed delta /\
    (exists rest, processed delta = msg :: rest) /\
    handed (initializedModel s) (fields (currentModel s)) (update_calls delta) /\
    fields (currentModel s') =
      accumulate (initializedModel s) (fields (currentModel s))
                 (update_calls delta) /\
    (model s' = model s /\ currentModel s' = currentModel s \/
     fields <$> model s' =
       Some (fields (currentModel s') ∪ from_option fields ∅ (model s))).
Proof.
  intros Hidle Hret. pose proof Hidle as (Hre & Hbuf & Him).
  split; [by eapply dispatch_keeps_idle |].
  apply dispatch_returns in Hret as (s2 & Hdrains & ->); try done.
  destruct (drains_drained _ _ _ Hdrains) as [delta Hdr].
  destruct (finished_frame s2) as (_ & _ & Hcm & Him' & _).
  pose proof (drains_accumulates _ _ _ Hdrains delta
                (drained_trace _ _ _ _ Hdr)) as [Hhanded Hacc].
  cbn in Hhanded, Hacc.
  split; [by rewrite Him', (drained_initializedModel _ _ _ _ Hdr) |].
  exists (call_events msg ++ delta ++ finish_events s2).
  assert (Hcalls : update_calls (call_events msg ++ delta ++ finish_events s2)
                   = update_calls delta).
  { unfold update_calls. rewrite !omap_app.
    rewrite call_events_silent, finish_events_silent by done.
    by rewrite app_nil_r. }
  assert (Hproc : processed (call_events msg ++ delta ++ finish_events s2)
                  = msg :: dispatched delta).
  { unfold processed. rewrite Hcalls. fold (processed delta).
    by rewrite (drained_processed _ _ _ _ Hdr), idle_started_buffer. }
  split_and!.
  - rewrite finished_trace, (drained_trace _ _ _ _ Hdr). unfold started. cbn.
    by rewrite <- !app_assoc.
  - repeat (apply Forall_app; split).
    + apply call_events_loop.
    + apply (drained_events _ _ _ _ Hdr).
    + apply finish_events_loop.
  - assert (Hfin : dispatched (finish_events s2) = [])
      by by apply finish_events_silent.
    rewrite Hproc, !dispatched_app, dispatched_call_events, Hfin.
    by rewrite app_nil_r.
  - eexists. apply Hproc.
  - by rewrite Hcalls.
  - by rewrite Hcalls, Hcm.
  - rewrite finished_model, Hcm.
    pose proof (drained_modified _ _ _ _ Hdr) as Hmod. cbn in Hmod.
    pose proof (drained_model _ _ _ _ Hdr) as Hmodel. cbn in Hmodel.
    destruct (modified s2).
    + right. cbn. by rewrite Hmodel.
    + left. split; [done |].
      symmetry in Hmod. by apply (drained_unchanged _ _ _ _ Hdr) in Hmod.
Qed.

(** C2. A returning top-level [dispatch] hands its message to the update
    logic, each call getting the accumulator as the calls before it left
    it, and leaves in [currentModel] the partial models those calls
    returned and [modelHasChanged] accepted, merged in call order.  If
    some update call changed the model, the cycle ends with one
    [setModel], after every update call and effect function, and what it
    commits is that accumulator merged onto the host's latest state
    [model] (not onto [initializedModel]); if none did, there is no
    [setModel] call and the host's state and the accumulator are as they
    were. *)
Theorem C2_commit_once_at_end_of_cycle fuel msg s s' :
  idle s ->
  dispatch fuel msg s = Ok tt s' ->
  exists delta w calls,
    trace s' = trace s ++ delta /\
    update_calls delta = (msg, w) :: calls /\
    processed delta = dispatched delta /\
    handed (initializedModel s) (fields (currentModel s))
           (update_calls delta) /\
    fields (currentModel s') =
      accumulate (initializedModel s) (fields (currentModel s))
                 (update_calls delta) /\
    if existsb (fun c => changed_by (initializedModel s) c.1 c.2)
               (update_calls delta)
    then
      host_writes delta = 1 /\
      (exists before updatedModel,
         delta = before ++
                 EvSetModel :: log_events (debug_update_model_for name updatedModel) /\
         host_writes before = 0 /\
         update_calls before = update_calls delta /\
         invoked before = invoked delta /\
         model s' = Some updatedModel /\
         fields updatedModel =
           fields (currentModel s') ∪ from_option fields ∅ (model s) /\
         fields updatedModel =
           accumulate (initializedModel s) (fields (currentModel s))
                      (update_calls delta)
           ∪ from_option fields ∅ (model s))
    else
      host_writes delta = 0 /\
      model s' = model s /\
      currentModel s' = currentModel s.
Proof.
  intros Hidle Hret.
  destruct (dispatch_cycle_commit fuel msg s s' Hidle Hret) as (delta & Htr & H).
  destruct (dispatch_cycle_model _ _ _ _ Hidle Hret)
    as (_ & _ & delta' & Htr' & _ & Hbal & [rest Hproc] & Hhanded & Hacc & _).
  rewrite Htr in Htr'. apply app_inv_head in Htr' as <-.
  assert (Hfirst : exists w calls, update_calls delta = (msg, w) :: calls).
  { unfold processed in Hproc.
    destruct (update_calls delta) as [| [m w] calls]; [done |].
    cbn in Hproc. injection Hproc as -> _. by exists w, calls. }
  destruct Hfirst as (w & calls & Hcalls).
  exists delta, w, calls. split_and!; try done.
  destruct (existsb _ _).
  - destruct H as (Hw & before & updatedModel & ? & ? & ? & ? & ? & Hfields).
    split; [done |]. exists before, updatedModel.
    split_and!; try done. by rewrite <- Hacc.
  - by destruct H as (? & _ & ? & ?).
Qed.

(** ** The host's state and the accumulator agree *)

Lemma dispatch_coherent fuel msg s s' :
  idle s -> coherent s -> dispatch fuel msg s = Ok tt s' -> coherent s'.
Proof.
  intros Hidle Hco Hret.
  destruct (dispatch_cycle_model _ _ _ _ Hidle Hret)
    as (_ & Him & delta & _ & _ & _ & _ & _ & Hacc & Hmodel).
  unfold coherent in *. rewrite Him.
  destruct Hmodel as [[-> ->] | ->]; [done |].
  f_equal. rewrite (from_option_fields _ _ Hco).
  destruct (accumulate_grows (initializedModel s) (update_calls delta)
              (fields (currentModel s))) as [extra Hextra].
  rewrite Hacc, Hextra.
  rewrite (assoc_L (∪) (extra ∪ _)), <- (assoc_L (∪) extra).
  by rewrite (idemp_L (∪)).
Qed.

Lemma init_calls_app tr1 tr2 :
  init_calls (tr1 ++ tr2) = init_calls tr1 + init_calls tr2.
Proof. unfold init_calls. by rewrite omap_app, length_app. Qed.

(** *** Between calls the component is [live] *)

Lemma live_frame t0 s s' d :
  reentered s' = reentered s ->
  buffer s' = buffer s ->
  currentModel s' = currentModel s ->
  initializedModel s' = initializedModel s ->
  model s' = model s ->
  trace s' = trace s ++ d ->
  processed d = [] ->
  dispatched d = [] ->
  middleware_calls d = [] ->
  init_calls d = 0 ->
  live t0 s -> live t0 s'.
Proof.
  intros Hre Hbuf Hcm Him Hmodel Htr Hproc Hdisp Hmw Hinit
    (Hidle & Hco & Hobj & d0 & Hd0 & Hproc0 & Hinit0 & Hmw0).
  split_and!.
  - by eapply idle_frame.
  - unfold coherent in *. by rewrite Hmodel, Hcm, Him.
  - by rewrite Him.
  - exists (d0 ++ d). split_and!.
    + by rewrite Htr, Hd0, app_assoc.
    + by rewrite processed_app, dispatched_app, Hproc0, Hproc, Hdisp.
    + by rewrite init_calls_app, Hinit0, Hinit.
    + rewrite middleware_calls_app, dispatched_app, Hmw0, Hmw, Hdisp.
      by rewrite !app_nil_r.
Qed.

(** The middleware, if there is one, sees what a top-level call sees. *)
Lemma dispatch_cycle_middleware fuel msg s s' delta :
  idle s ->
  dispatch fuel msg s = Ok tt s' ->
  trace s' = trace s ++ delta ->
  middleware_calls delta = if dispatchMiddleware then dispatched delta else [].
Proof.
  intros (Hre & Hbuf & Him) Hret Htr.
  apply dispatch_cycle in Hret as (s2 & delta0 & Hdr & _ & Htr0); try done.
  rewrite Htr0 in Htr. apply app_inv_head in Htr as <-.
  assert (Hfm : middleware_calls (finish_events s2) = [])
    by by apply finish_events_silent.
  assert (Hfd : dispatched (finish_events s2) = [])
    by by apply finish_events_silent.
  rewrite !middleware_calls_app, !dispatched_app, dispatched_call_events.
  rewrite (drained_middleware _ _ _ _ Hdr), Hfm, Hfd.
  unfold middleware_calls, call_events.
  by destruct dispatchMiddleware.
Qed.

Lemma dispatch_live t0 fuel msg s s' :
  live t0 s -> dispatch fuel msg s = Ok tt s' -> live t0 s'.
Proof.
  intros (Hidle & Hco & Hobj & d0 & Hd0 & Hproc0 & Hinit0 & Hmw0) Hret.
  destruct (dispatch_cycle_model _ _ _ _ Hidle Hret)
    as (Hidle' & Him & delta & Htr & Hloop & Hproc & _).
  pose proof (dispatch_cycle_middleware _ _ _ _ _ Hidle Hret Htr) as Hmw.
  split_and!;
    [done | by apply (dispatch_coherent fuel msg s) | by rewrite Him |].
  exists (d0 ++ delta). split_and!.
  - by rewrite Htr, Hd0, app_assoc.
  - by rewrite processed_app, dispatched_app, Hproc0, Hproc.
  - by rewrite init_calls_app, Hinit0, init_calls_loop.
  - rewrite middleware_calls_app, dispatched_app, Hmw0, Hmw.
    by destruct dispatchMiddleware.
Qed.

Lemma run_live {A} t0 fuel (p : Script A) s :
  live t0 s ->
  match run (dispatch fuel) p s with
  | Ok _ s' | Raised _ s' => live t0 s'
  | OutOfFuel => True
  end.
Proof.
  revert s. induction p as [a | ex | m k IH]; intros s Hs; cbn; try done.
  unfold bind. destruct (dispatch fuel m s) as [[] s1 | ex s1 |] eqn:Hd.
  - apply IH. by eapply dispatch_live.
  - by apply dispatch_not_raised in Hd.
  - done.
Qed.

Lemma execCmd_live t0 fuel cmd s s' :
  live t0 s -> execCmd (dispatch fuel) cmd s = Ok tt s' -> live t0 s'.
Proof.
  revert s. induction cmd as [| call rest IH]; intros s Hs; cbn.
  - by intros [= <-].
  - unfold bind, try_catch. cbn.
    assert (Hs0 : live t0 (add_trace [EvEffect call] s))
      by by eapply (live_frame _ s _ [EvEffect call]).
    pose proof (run_live t0 fuel call _ Hs0) as Hrun.
    destruct (run (dispatch fuel) call _) as [[] s1 | ex1 s1 |]; try done.
    + by apply IH.
    + rewrite log_logged. apply IH.
      eapply (live_frame _ s1 _ (log_events (error ex1))); try done.
      * unfold processed, update_calls. by rewrite omap_log_events.
      * by apply omap_log_events.
      * by apply omap_log_events.
      * apply init_calls_loop, log_events_loop.
Qed.

(** The first render, whatever the hook's variables held before. *)
Lemma useElmish_first_live fuel s initializedModel s1 :
  useElmish fuel true s = Ok initializedModel s1 ->
  initializedModel = (init props).1 /\
  live (trace s ++ [EvInit; EvSetModel]) s1.
Proof.
  unfold useElmish, setModel, new_object. msimpl.
  destruct (init props) as [initModel initCmd] eqn:Hinit. cbn.
  set (s0 := set_model (Some initModel) _).
  assert (Hs0 : live (trace s ++ [EvInit; EvSetModel]) s0).
  { split_and!.
    - split_and!; [done | done | by eexists].
    - unfold coherent. cbn. by rewrite (left_id_L ∅ (∪)).
    - by rewrite Hinit.
    - exists []. cbn. rewrite <- app_assoc, app_nil_r.
      by destruct dispatchMiddleware. }
  destruct initCmd as [initCmd |].
  - destruct (execCmd _ _ _) as [[] s2 | |] eqn:Hexec; try done.
    intros [= <- <-]. split; [done |]. by eapply execCmd_live.
  - by intros [= <- <-].
Qed.

(** A later render returns the host's state and does nothing else. *)
Lemma useElmish_later_live t0 fuel s initializedModel s1 :
  live t0 s ->
  useElmish fuel false s = Ok initializedModel s1 ->
  model s = Some initializedModel /\ trace s1 = trace s /\ live t0 s1.
Proof.
  intros Hs. pose proof Hs as (_ & Hco & _).
  unfold useElmish, setModel, new_object. msimpl.
  unfold coherent in Hco. destruct (model s) as [m |]; [| done]. msimpl.
  intros [= <- <-]. split_and!; [done | done |].
  eapply (live_frame _ s _ []); try done. cbn. by rewrite app_nil_r.
Qed.

(** The mount's render: the call that counts returns the state cell's
    content as the first call and the commands of [init] left it. *)
Lemma rendered_first_live fuel s initializedModel s1 :
  rendered fuel true s = Ok initializedModel s1 ->
  exists s0,
    useElmish fuel true s = Ok (init props).1 s0 /\
    useElmish fuel false s0 = Ok initializedModel s1 /\
    model s0 = Some initializedModel /\
    model s1 = Some initializedModel /\
    trace s1 = trace s0 /\
    live (trace s ++ [EvInit; EvSetModel]) s1.
Proof.
  rewrite rendered_unfold.
  destruct (useElmish fuel true s) as [returned s0 | |] eqn:Hcall; try done.
  cbn. intros Hagain. exists s0.
  apply useElmish_first_live in Hcall as [-> Hs0].
  destruct (useElmish_later_live _ _ _ _ _ Hs0 Hagain) as (Hm & ? & ?).
  split_and!; try done.
  revert Hagain. unfold useElmish, new_object. msimpl. rewrite Hm. msimpl.
  by intros [= <-].
Qed.

Lemma rendered_later_live t0 fuel s initializedModel s1 :
  live t0 s ->
  rendered fuel false s = Ok initializedModel s1 ->
  model s = Some initializedModel /\ trace s1 = trace s /\ live t0 s1.
Proof.
  intros Hs. rewrite rendered_unfold.
  destruct (useElmish fuel false s) as [returned s0 | |] eqn:Hcall; try done.
  apply (useElmish_later_live t0) in Hcall as (Hm & Htr & Hs0); [| done].
  rewrite Hm. cbn. by intros [= <- <-].
Qed.

Lemma subscribe_live t0 fuel initializedModel s cleanup s1 :
  live t0 s -> subscribe fuel initializedModel s = Ok cleanup s1 -> live t0 s1.
Proof.
  intros Hs. unfold subscribe.
  destruct subscription as [sub |]; msimpl; [| by intros [= <- <-]].
  destruct (sub initializedModel) as [subCmd destructor]. msimpl.
  destruct (execCmd _ _ _) as [[] s2 | |] eqn:Hexec; try done.
  intros [= <- <-]. eapply execCmd_live; [| done].
  by eapply (live_frame _ s _ [EvSubscription initializedModel]).
Qed.

Lemma run_cleanup_live t0 cleanup s s1 :
  live t0 s -> run_cleanup cleanup s = Ok tt s1 -> live t0 s1.
Proof.
  intros Hs. unfold run_cleanup.
  destruct cleanup as [destructor |]; msimpl; intros [= <-]; [| done].
  by eapply (live_frame _ s _ [EvDestructor destructor]).
Qed.

Lemma effect_hook_live t0 fuel h initializedModel s h' s1 :
  live t0 s ->
  (if deps_changed (effect_deps h) []
   then run_cleanup (effect_cleanup h) ;;
        cleanup <- subscribe fuel initializedModel ;;
        mret (mkHooks (Some []) cleanup)
   else mret h) s = Ok h' s1 ->
  live t0 s1.
Proof.
  intros Hs. destruct (deps_changed _ _); [| by intros [= <- <-]].
  unfold bind at 1.
  destruct (run_cleanup _ s) as [[] s2 | |] eqn:Hclean; try done.
  apply (run_cleanup_live t0) in Hclean; [| done].
  unfold bind. destruct (subscribe _ _ _) as [c s3 | |] eqn:Hsub; try done.
  intros [= <- <-]. by eapply subscribe_live.
Qed.

Lemma render_live t0 fuel h s h' s1 :
  live t0 s -> mounted h = true -> render fuel h s = Ok h' s1 -> live t0 s1.
Proof.
  intros Hs Hm. unfold render. rewrite Hm. cbn. unfold bind at 1.
  destruct (rendered _ _ _) as [im s0 | |] eqn:Hrender; try done.
  apply (rendered_later_live t0) in Hrender as (_ & _ & Hs0); [| done].
  by apply effect_hook_live.
Qed.

Lemma host_events_live t0 fuel evs h s h' s1 :
  live t0 s -> mounted h = true ->
  host_events fuel evs h s = Ok h' s1 -> live t0 s1.
Proof.
  revert h s. induction evs as [| [| msg] evs IH]; intros h s Hs Hm; cbn.
  - by intros [= <- <-].
  - unfold bind. destruct (render fuel h s) as [h0 s0 | |] eqn:Hr; try done.
    pose proof Hr as Hr'. apply render_idle in Hr' as [_ Hm0]; [| right; apply Hs].
    apply (render_live t0) in Hr; try done. by apply IH.
  - unfold bind.
    destruct (dispatch fuel msg s) as [[] s0 | |] eqn:Hd; try done.
    apply IH; [| done]. by eapply dispatch_live.
Qed.

(** The mount: the first render and its effect hook. *)
Lemma mount_live fuel s h s1 :
  render fuel unmounted s = Ok h s1 ->
  live (trace s ++ [EvInit; EvSetModel]) s1 /\ mounted h = true.
Proof.
  intros Hr. pose proof Hr as Hr'.
  apply render_idle in Hr' as [_ Hm]; [| by left]. split; [| done].
  revert Hr. unfold render. cbn. unfold bind at 1.
  destruct (rendered _ _ _) as [im s0 | |] eqn:Hrender; try done.
  apply rendered_first_live in Hrender as (? & _ & _ & _ & _ & _ & Hs0).
  apply (effect_hook_live _ fuel unmounted im s0 h s1 Hs0).
Qed.

(** Mount, live, unmount. *)
Lemma lifetime_live fuel evs s s' :
  lifetime fuel evs s = Ok tt s' ->
  live (trace s ++ [EvInit; EvSetModel]) s'.
Proof.
  unfold lifetime. unfold bind at 1.
  destruct (render _ _ _) as [h s1 | |] eqn:Hr; try done.
  apply mount_live in Hr as [Hs1 Hm].
  unfold bind.
  destruct (host_events _ _ _ _) as [h' s2 | |] eqn:Hev; try done.
  apply (host_events_live _ _ _ _ _ _ _ Hs1 Hm) in Hev.
  by apply run_cleanup_live.
Qed.

(** ** The model over a cycle *)

Lemma handed_first im cm call rest :
  handed im cm (call :: rest) -> fields call.2 = cm ∪ from_option fields ∅ im.
Proof. by intros [? _]. Qed.

Lemma handed_next im calls :
  forall cm i c1 c2,
    handed im cm calls ->
    calls !! i = Some c1 ->
    calls !! S i = Some c2 ->
    fields c2.2 = accepted im c1 ∪ fields c1.2.
Proof.
  induction calls as [| call rest IH]; intros cm i c1 c2 Hh H1 H2; [done |].
  destruct Hh as [Hcall Hrest]. destruct i as [| i].
  - cbn in H1, H2. injection H1 as <-.
    destruct rest as [| next rest]; [done |]. injection H2 as <-.
    apply handed_first in Hrest. by rewrite Hrest, Hcall, (assoc_L (∪)).
  - by eapply (IH _ i).
Qed.

Lemma accumulate_lookup im calls k :
  forall cm,
    Forall (fun call => accepted im call !! k = None) calls ->
    accumulate im cm calls !! k = cm !! k.
Proof.
  unfold accumulate.
  induction calls as [| call rest IH]; intros cm Hall; [done |].
  apply Forall_cons in Hall as [Hcall Hrest]. cbn.
  rewrite IH by done. by rewrite lookup_union_r.
Qed.

(** X2. Within one cycle the update logic sees the changes of the messages
    before it: the first message is handed [init]'s model overwritten by the
    accumulator, each later one the model handed to the message before it
    overwritten by the partial model that message returned, when
    [modelHasChanged] accepted it; when the call returns, the accumulator
    holds every accepted partial model, a later one overwriting an earlier
    one, and [initializedModel] is the object it was. *)
Theorem X2_update_sees_the_changes_of_earlier_messages fuel msg s s' :
  idle s ->
  dispatch fuel msg s = Ok tt s' ->
  exists delta w calls,
    trace s' = trace s ++ delta /\
    update_calls delta = (msg, w) :: calls /\
    fields w = fields (working_model s) /\
    (forall i c1 c2,
       update_calls delta !! i = Some c1 ->
       update_calls delta !! S i = Some c2 ->
       fields c2.2 = accepted (initializedModel s) c1 ∪ fields c1.2) /\
    handed (initializedModel s) (fields (currentModel s)) (update_calls delta) /\
    fields (currentModel s') =
      accumulate (initializedModel s) (fields (currentModel s))
                 (update_calls delta) /\
    initializedModel s' = initializedModel s.
Proof.
  intros Hidle Hret.
  destruct (dispatch_cycle_model _ _ _ _ Hidle Hret)
    as (_ & Him & delta & Htr & _ & _ & [rest Hproc] & Hhanded & Hacc & _).
  unfold processed in Hproc.
  destruct (update_calls delta) as [| [m w] calls] eqn:Hcalls; [done |].
  injection Hproc as -> _.
  exists delta, w, calls. rewrite Hcalls. split_and!; try done.
  - by apply handed_first in Hhanded.
  - intros i c1 c2. by apply (handed_next _ _ _ _ _ _ Hhanded).
Qed.

(** X3. A call of [dispatch] only adds or overwrites properties: every
    property name of the host's model, and of the accumulator, is still
    there when the call returns; and when the host's state agreed with the
    accumulator before the call, a property that no accepted partial model
    of the cycle names keeps its value. *)
Theorem X3_dispatch_never_removes_a_property fuel msg s s' :
  idle s ->
  dispatch fuel msg s = Ok tt s' ->
  dom (from_option fields ∅ (model s)) ⊆ dom (from_option fields ∅ (model s')) /\
  dom (fields (currentModel s)) ⊆ dom (fields (currentModel s')) /\
  exists delta,
    trace s' = trace s ++ delta /\
    forall k,
      coherent s ->
      Forall (fun call => accepted (initializedModel s) call !! k = None)
             (update_calls delta) ->
      from_option fields ∅ (model s') !! k = from_option fields ∅ (model s) !! k.
Proof.
  intros Hidle Hret.
  destruct (dispatch_cycle_model _ _ _ _ Hidle Hret)
    as (_ & Him & delta & Htr & _ & _ & _ & _ & Hacc & Hmodel).
  destruct (accumulate_grows (initializedModel s) (update_calls delta)
              (fields (currentModel s))) as [extra Hextra].
  split_and!.
  - destruct Hmodel as [[-> _] | Hw]; [done |].
    apply from_option_fields in Hw. rewrite Hw, dom_union.
    apply union_subseteq_r.
  - rewrite Hacc, Hextra, dom_union. apply union_subseteq_r.
  - exists delta. split; [done |]. intros k Hco Hall.
    destruct Hmodel as [[-> _] | Hw]; [done |].
    apply from_option_fields in Hw. rewrite Hw, Hacc.
    unfold coherent in Hco. apply from_option_fields in Hco. rewrite Hco.
    rewrite !lookup_union, accumulate_lookup by done.
    by destruct (fields (currentModel s) !! k),
                (from_option fields ∅ (initializedModel s) !! k).
Qed.

(** X4. When the host's state cell holds the properties of
    [{ ...initializedModel, ...currentModel }] before a top-level call of
    [dispatch], it does so after it: what the cycle committed is what the
    update logic will be handed next.  The memoised [dispatch] keeps
    spreading the first [initializedModel], and the accumulator makes up
    for it. *)
Theorem X4_committed_model_is_the_next_working_model fuel msg s s' :
  idle s ->
  coherent s ->
  dispatch fuel msg s = Ok tt s' ->
  coherent s' /\
  fields <$> model s' = Some (fields (working_model s')) /\
  initializedModel s' = initializedModel s.
Proof.
  intros Hidle Hco Hret.
  pose proof (dispatch_coherent _ _ _ _ Hidle Hco Hret) as Hco'.
  split_and!; [done | done |].
  by destruct (dispatch_cycle_model _ _ _ _ Hidle Hret) as (_ & Him & _).
Qed.

(** ** The model over the component's lifetime *)

(** X5. After the mount and any renders and dispatches, a render returns the
    host's state as it is, and that model has the properties the update
    logic will be handed next, although [dispatch] still works on the
    object [init] built.  The render calls neither [init] nor [setModel]
    nor any effect function, and leaves the variables [dispatch] works on
    alone: it only allocates the [{}] of a [currentModel] of its own. *)
Theorem X5_a_render_returns_the_model_update_sees
    fuel evs s h s1 h' s2 returned s3 :
  render fuel unmounted s = Ok h s1 ->
  host_events fuel evs h s1 = Ok h' s2 ->
  useElmish fuel false s2 = Ok returned s3 ->
  model s2 = Some returned /\
  fields returned = fields (working_model s2) /\
  initializedModel s2 = Some (init props).1 /\
  s3 = set_next_oid (S (next_oid s2)) s2.
Proof.
  intros Hr Hev Hrender. apply mount_live in Hr as [Hs1 Hm].
  apply (host_events_live _ _ _ _ _ _ _ Hs1 Hm) in Hev.
  pose proof Hev as (_ & Hco & Him & _).
  pose proof Hrender as Hlater.
  apply (useElmish_later_live _ _ _ _ _ Hev) in Hlater as (Hmodel & Htr & _).
  split_and!; try done.
  - unfold coherent in Hco. rewrite Hmodel in Hco. by injection Hco.
  - revert Hrender. unfold useElmish, new_object. msimpl. rewrite Hmodel.
    msimpl. by intros [= <-].
Qed.

(** X6. Over a component's lifetime [init] is called once: the mount calls
    it first and hands its model to [setModel] before anything else
    happens; no later render, dispatch or cleanup calls it again. *)
Theorem X6_init_is_called_once fuel evs s s' :
  lifetime fuel evs s = Ok tt s' ->
  exists rest,
    trace s' = trace s ++ EvInit :: EvSetModel :: rest /\
    init_calls rest = 0 /\
    init_calls (EvInit :: EvSetModel :: rest) = 1.
Proof.
  intros (_ & _ & _ & d & Hd & _ & Hinit & _)%lifetime_live.
  exists d. split_and!; [| done |].
  - by rewrite Hd, <- app_assoc.
  - unfold init_calls in *. cbn. by rewrite Hinit.
Qed.

(** X7. Over a component's lifetime no message is lost or processed twice:
    the messages passed to [dispatch] -- by the commands of [init] and of
    the subscription, from outside, or from inside a cycle -- are the
    messages handed to the update logic, in the same order, and the
    messages handed to the middleware, if there is one: the guard that
    drops a message before the model exists never does so once the
    component is mounted.  At the end the buffer is empty. *)
Theorem X7_every_dispatched_message_is_processed fuel evs s s' :
  lifetime fuel evs s = Ok tt s' ->
  exists delta,
    trace s' = trace s ++ delta /\
    processed delta = dispatched delta /\
    middleware_calls delta =
      (if dispatchMiddleware then dispatched delta else []) /\
    buffer s' = [] /\
    reentered s' = false.
Proof.
  intros ((Hre & Hbuf & _) & _ & _ & d & Hd & Hproc & _ & Hmw)%lifetime_live.
  exists ([EvInit; EvSetModel] ++ d). split_and!; try done.
  by rewrite Hd, <- app_assoc.
Qed.

(** X8. Without a [subscription] option the effect hook does nothing: over
    the whole lifetime no subscription is called and no cleanup runs. *)
Theorem X8_no_subscription_no_cleanup fuel evs s s' :
  subscription = None ->
  lifetime fuel evs s = Ok tt s' ->
  exists delta,
    trace s' = trace s ++ delta /\
    subscription_calls delta = [] /\
    destructor_calls delta = [].
Proof.
  intros Hsub. unfold lifetime, render, subscribe, run_cleanup.
  rewrite Hsub. msimpl.
  destruct (rendered fuel true s) as [im s0 | |] eqn:Hrender; try done.
  apply rendered_first_live in Hrender
    as (s00 & Hfirst & _ & _ & _ & Htr0 & _).
  apply useElmish_first in Hfirst as (_ & d0 & Hd0 & Hl0).
  rewrite <- Htr0 in Hd0.
  msimpl.
  destruct (host_events _ _ _ _) as [h' s3 | |] eqn:Hev; try done.
  apply host_events_mounted in Hev as (-> & d3 & Hd3 & Hb3). cbn.
  intros [= <-]. exists ((EvInit :: d0) ++ d3).
  assert (Hbody : Forall (fun e => body_event e = true) ((EvInit :: d0) ++ d3)).
  { apply Forall_app. split; [| done].
    constructor; [done |]. by apply loop_body_event. }
  split_and!.
  - by rewrite Hd3, Hd0, <- app_assoc.
  - by apply subscription_calls_body.
  - by apply destructor_calls_body.
Qed.

(** X13. The first render, whatever the hook's variables held before: it
    calls [init], assigns [initializedModel] and calls [setModel] before it
    runs the commands of [init], so the messages their effect functions
    dispatch are not dropped but processed, each effect function being
    invoked in list order; it returns the object [init] built, also when
    those messages have changed the host's state meanwhile. *)
Theorem X13_the_first_render_runs_the_commands_of_init fuel s returned s1 :
  useElmish fuel true s = Ok returned s1 ->
  returned = (init props).1 /\
  initializedModel s1 = Some (init props).1 /\
  idle s1 /\
  coherent s1 /\
  exists delta,
    trace s1 = trace s ++ EvInit :: EvSetModel :: delta /\
    processed delta = dispatched delta /\
    match (init props).2 with
    | Some initCmd => expected_events initCmd `sublist_of` delta
    | None => delta = []
    end.
Proof.
  intros Hrender. pose proof Hrender as Hlive.
  apply useElmish_first_live in Hlive
    as (-> & Hidle & Hco & Him & d & Hd & Hproc & _).
  split_and!; try done. exists d. split_and!; try done.
  { by rewrite Hd, <- app_assoc. }
  revert Hrender Hd. unfold useElmish, setModel, new_object. msimpl.
  destruct (init props) as [initModel [initCmd |]]; msimpl.
  - destruct (execCmd _ _ _) as [[] s2 | |] eqn:Hexec; try done.
    intros [= <-] Hd.
    apply execCmd_expected in Hexec as (delta & Htr & Hsub & _).
    rewrite Hd in Htr. cbn in Htr.
    rewrite <- !app_assoc in Htr. cbn in Htr.
    apply app_inv_head in Htr. by injection Htr as ->.
  - intros [= <-] Hd. cbn in Hd. rewrite <- !app_assoc in Hd. cbn in Hd.
    apply app_inv_head in Hd. by injection Hd as <-.
Qed.

(** X14. Teardown does not disable the dispatcher: a message dispatched
    after the cleanup has run is handed to the update logic like any other,
    with the model the host's state holds. *)
Theorem X14_dispatch_still_works_after_teardown fuel evs msg s s1 s2 :
  lifetime fuel evs s = Ok tt s1 ->
  dispatch fuel msg s1 = Ok tt s2 ->
  exists delta w calls,
    trace s2 = trace s1 ++ delta /\
    update_calls delta = (msg, w) :: calls /\
    fields <$> model s1 = Some (fields w) /\
    processed delta = dispatched delta.
Proof.
  intros (Hidle & Hco & _)%lifetime_live Hret.
  destruct (dispatch_cycle_model _ _ _ _ Hidle Hret)
    as (_ & _ & delta & Htr & _ & Hbal & [rest Hproc] & Hhanded & _).
  pose proof Hproc as Hproc'. unfold processed in Hproc.
  destruct (update_calls delta) as [| [m w] calls] eqn:Hcalls; [done |].
  injection Hproc as -> _.
  exists delta, w, calls. split_and!; try done.
  apply handed_first in Hhanded. cbn in Hhanded. by rewrite Hhanded.
Qed.

(** ** Commands run outside a cycle *)

Lemma dispatch_settles fuel msg s s' :
  idle s ->
  dispatch fuel msg s = Ok tt s' ->
  idle s' /\ exists d, trace s' = trace s ++ d /\ processed d = dispatched d.
Proof.
  intros Hidle Hret.
  destruct (dispatch_cycle_model _ _ _ _ Hidle Hret)
    as (Hidle' & _ & delta & Htr & _ & Hbal & _).
  split; [done |]. by exists delta.
Qed.

Lemma run_settles {A} fuel (p : Script A) s :
  idle s ->
  match run (dispatch fuel) p s with
  | Ok _ s' | Raised _ s' =>
      idle s' /\
      exists d, trace s' = trace s ++ d /\ processed d = dispatched d
  | OutOfFuel => True
  end.
Proof.
  revert s. induction p as [a | ex | m k IH]; intros s Hs; cbn.
  - split; [done |]. exists []. by rewrite app_nil_r.
  - split; [done |]. exists []. by rewrite app_nil_r.
  - unfold bind. destruct (dispatch fuel m s) as [[] s1 | ex s1 |] eqn:Hd.
    + apply dispatch_settles in Hd as (Hs1 & d1 & Hd1 & Hp1); [| done].
      specialize (IH s1 Hs1).
      destruct (run (dispatch fuel) k s1) as [a s2 | ex s2 |]; try done;
        destruct IH as (Hs2 & d2 & Hd2 & Hp2); (split; [done |]);
        exists (d1 ++ d2);
        (split; [by rewrite Hd2, Hd1, app_assoc |]);
        by rewrite processed_app, dispatched_app, Hp1, Hp2.
    + by apply dispatch_not_raised in Hd.
    + done.
Qed.

Lemma execCmd_settles fuel cmd s s' :
  idle s ->
  execCmd (dispatch fuel) cmd s = Ok tt s' ->
  idle s' /\ exists d, trace s' = trace s ++ d /\ processed d = dispatched d.
Proof.
  revert s. induction cmd as [| call rest IH]; intros s Hs; cbn.
  - intros [= <-]. split; [done |]. exists []. by rewrite app_nil_r.
  - unfold bind, try_catch. cbn.
    pose proof (run_settles fuel call (add_trace [EvEffect call] s) Hs) as Hrun.
    destruct (run (dispatch fuel) call _) as [[] s1 | ex1 s1 |]; try done.
    + destruct Hrun as (Hs1 & d1 & Hd1 & Hp1).
      intros (Hs' & d2 & Hd2 & Hp2)%IH; [| done]. split; [done |].
      exists ([EvEffect call] ++ d1 ++ d2). split.
      * rewrite Hd2, Hd1. cbn. by rewrite <- !app_assoc.
      * rewrite !processed_app, !dispatched_app, Hp1, Hp2. done.
    + destruct Hrun as (Hs1 & d1 & Hd1 & Hp1). rewrite log_logged.
      intros (Hs' & d2 & Hd2 & Hp2)%IH; [| by eapply idle_frame].
      split; [done |].
      exists ([EvEffect call] ++ d1 ++ log_events (error ex1) ++ d2). split.
      * rewrite Hd2. unfold logged. cbn. rewrite Hd1. cbn.
        by rewrite <- !app_assoc.
      * assert (Hp : processed (log_events (error ex1)) = []).
        { unfold processed, update_calls. by rewrite omap_log_events. }
        assert (Hdi : dispatched (log_events (error ex1)) = [])
          by by apply omap_log_events.
        by rewrite !processed_app, !dispatched_app, Hp1, Hp2, Hp, Hdi.
Qed.

(** ** The subscription *)

(** A cycle that makes no host write leaves the host's state alone. *)
Lemma dispatch_unwritten fuel msg s s' :
  idle s ->
  dispatch fuel msg s = Ok tt s' ->
  exists d, trace s' = trace s ++ d /\
            (host_writes d = 0 -> model s' = model s).
Proof.
  intros Hs Hret.
  destruct (dispatch_cycle_commit _ _ _ _ Hs Hret) as (d & Htr & H).
  exists d. split; [done |]. destruct (existsb _ _).
  - destruct H as [-> _]. done.
  - by destruct H as (_ & _ & ? & _).
Qed.

Lemma run_unwritten {A} fuel (p : Script A) s :
  idle s ->
  match run (dispatch fuel) p s with
  | Ok _ s' | Raised _ s' =>
      exists d, trace s' = trace s ++ d /\
                (host_writes d = 0 -> model s' = model s)
  | OutOfFuel => True
  end.
Proof.
  revert s. induction p as [a | ex | m k IH]; intros s Hs; cbn.
  - exists []. by rewrite app_nil_r.
  - exists []. by rewrite app_nil_r.
  - unfold bind. destruct (dispatch fuel m s) as [[] s1 | ex s1 |] eqn:Hd.
    + pose proof (dispatch_keeps_idle _ _ _ _ Hs Hd) as Hs1.
      apply dispatch_unwritten in Hd as (d1 & Hd1 & Hw1); [| done].
      specialize (IH s1 Hs1).
      destruct (run (dispatch fuel) k s1) as [a s2 | ex s2 |]; try done;
        destruct IH as (d2 & Hd2 & Hw2);
        exists (d1 ++ d2);
        (split; [by rewrite Hd2, Hd1, app_assoc |]);
        rewrite host_writes_app; intros Hw;
        rewrite Hw2, Hw1 by lia; done.
    + by apply dispatch_not_raised in Hd.
    + done.
Qed.

Lemma execCmd_unwritten fuel cmd s s' :
  idle s ->
  execCmd (dispatch fuel) cmd s = Ok tt s' ->
  exists d, trace s' = trace s ++ d /\
            (host_writes d = 0 -> model s' = model s).
Proof.
  revert s. induction cmd as [| call rest IH]; intros s Hs; cbn.
  - intros [= <-]. exists []. by rewrite app_nil_r.
  - unfold bind, try_catch. cbn.
    pose proof (run_unwritten fuel call (add_trace [EvEffect call] s) Hs)
      as Hrun.
    pose proof (run_keeps_idle fuel call (add_trace [EvEffect call] s) Hs)
      as Hidle.
    destruct (run (dispatch fuel) call _) as [[] s1 | ex1 s1 |]; try done.
    + destruct Hrun as (d1 & Hd1 & Hw1).
      intros (d2 & Hd2 & Hw2)%IH; [| done].
      exists ([EvEffect call] ++ d1 ++ d2). split.
      * rewrite Hd2, Hd1. cbn. by rewrite <- !app_assoc.
      * rewrite !host_writes_app. intros Hw.
        rewrite Hw2, Hw1 by lia. done.
    + destruct Hrun as (d1 & Hd1 & Hw1). rewrite log_logged.
      intros (d2 & Hd2 & Hw2)%IH; [| by eapply idle_frame].
      exists ([EvEffect call] ++ d1 ++ log_events (error ex1) ++ d2). split.
      * rewrite Hd2. unfold logged. cbn. rewrite Hd1. cbn.
        by rewrite <- !app_assoc.
      * rewrite !host_writes_app. intros Hw.
        rewrite Hw2 by lia. unfold logged. cbn. by rewrite Hw1 by lia.
Qed.

(** The first call of the component: [init], [setModel], the commands of
    [init]; the state cell holds the object [init] built unless a cycle of
    those commands has written it. *)
Lemma useElmish_first_model fuel s returned s1 :
  useElmish fuel true s = Ok returned s1 ->
  exists d,
    trace s1 = trace s ++ EvInit :: EvSetModel :: d /\
    Forall (fun e => loop_event e = true) d /\
    (host_writes d = 0 -> model s1 = Some (init props).1).
Proof.
  unfold useElmish, setModel, new_object. msimpl.
  destruct (init props) as [initModel [initCmd |]]; msimpl.
  - destruct (execCmd _ _ _) as [[] s2 | |] eqn:Hexec; try done.
    intros [= <- <-].
    pose proof Hexec as Hexec'.
    apply execCmd_expected in Hexec' as (delta & Htr & _ & Hl).
    apply execCmd_unwritten in Hexec as (d & Hd & Hw);
      [| split_and!; [done | done | by eexists]].
    rewrite Htr in Hd. apply app_inv_head in Hd as <-.
    exists delta. split_and!; [| done | done].
    rewrite Htr. cbn. by rewrite <- !app_assoc.
  - intros [= <- <-]. exists []. split_and!; [| done | done].
    cbn. by rewrite <- !app_assoc.
Qed.

(** C8. Over a component's lifetime -- mount, any renders and dispatches,
    unmount -- the subscription is called once, after [init] and its
    commands, with the model the mount's render returns: the content of the
    state cell, which is the object [init] built unless a command of [init]
    has had the model written meanwhile.  [execCmd] is run on the commands
    it returns there, once: the rest of the lifetime starts in the state
    that one run leaves.  No render or dispatch that follows calls the
    subscription or a cleanup, and the hook keeps the cleanup the
    subscription returned; at the unmount that cleanup, if there is one, is
    called, once, as the last event. *)
Theorem C8_subscription_runs_once fuel evs sub s s' :
  subscription = Some sub ->
  lifetime fuel evs s = Ok tt s' ->
  exists arg s0 s2 s3 before during events,
    rendered fuel true s = Ok arg s0 /\
    trace s0 = trace s ++ before /\
    init_calls before = 1 /\
    subscription_calls before = [] /\
    destructor_calls before = [] /\
    model s0 = Some arg /\
    fields arg = fields (currentModel s0) ∪ fields (init props).1 /\
    (host_writes before = 1 -> arg = (init props).1) /\
    execCmd (dispatch fuel) (sub arg).1 (add_trace [EvSubscription arg] s0)
      = Ok tt s2 /\
    trace s2 = trace s0 ++ EvSubscription arg :: during /\
    expected_events (sub arg).1 `sublist_of` during /\
    subscription_calls during = [] /\
    destructor_calls during = [] /\
    host_events fuel evs (mkHooks (Some []) (sub arg).2) s2
      = Ok (mkHooks (Some []) (sub arg).2) s3 /\
    trace s3 = trace s2 ++ events /\
    subscription_calls events = [] /\
    destructor_calls events = [] /\
    init_calls (during ++ events) = 0 /\
    s' = match (sub arg).2 with
         | Some destructor => add_trace [EvDestructor destructor] s3
         | None => s3
         end /\
    subscription_calls (trace s') = subscription_calls (trace s) ++ [arg] /\
    destructor_calls (trace s') =
      destructor_calls (trace s) ++
      match (sub arg).2 with
      | Some destructor => [destructor]
      | None => []
      end.
Proof.
  intros Hsub Hlife. pose proof Hlife as Hlive. apply lifetime_live in Hlive.
  revert Hlife. unfold lifetime, render, subscribe, run_cleanup.
  rewrite Hsub. msimpl.
  destruct (rendered fuel true s) as [arg s0 | |] eqn:Hrender; try done.
  pose proof Hrender as Hmount.
  apply rendered_first_live in Hmount
    as (s00 & Hfirst & _ & Hmodel0 & Hmodel & Htr0 & Hs0).
  apply useElmish_first_model in Hfirst as (d0 & Hd0 & Hl0 & Hw0).
  rewrite <- Htr0 in Hd0.
  destruct (sub arg) as [subCmd destructor] eqn:Hres. msimpl.
  destruct (execCmd _ _ _) as [[] s2 | |] eqn:Hexec; try done.
  pose proof Hexec as Hexec'.
  apply execCmd_expected in Hexec' as (during & Hdur & Hexp & Hldur).
  msimpl.
  destruct (host_events _ _ _ _) as [h' s3 | |] eqn:Hev; try done.
  pose proof Hev as Hev'.
  apply host_events_mounted in Hev' as (-> & events & Hd3 & Hb3). cbn.
  intros Hend.
  assert (Hs' : s' = match destructor with
                     | Some destructor => add_trace [EvDestructor destructor] s3
                     | None => s3
                     end).
  { destruct destructor; by injection Hend. }
  clear Hend.
  assert (Hsub0 : subscription_calls d0 = [])
    by by apply subscription_calls_body, loop_body_event.
  assert (Hdes0 : destructor_calls d0 = [])
    by by apply destructor_calls_body, loop_body_event.
  assert (Hsubd : subscription_calls during = [])
    by by apply subscription_calls_body, loop_body_event.
  assert (Hdesd : destructor_calls during = [])
    by by apply destructor_calls_body, loop_body_event.
  assert (Hsube : subscription_calls events = [])
    by by apply subscription_calls_body.
  assert (Hdese : destructor_calls events = [])
    by by apply destructor_calls_body.
  assert (Htr3 : trace s3 =
            trace s ++ (EvInit :: EvSetModel :: d0) ++
            EvSubscription arg :: during ++ events).
  { rewrite Hd3, Hdur. cbn. rewrite Hd0. by rewrite <- !app_assoc. }
  assert (Htr' : trace s' =
            trace s ++ (EvInit :: EvSetModel :: d0) ++
            EvSubscription arg :: during ++ events ++
            match destructor with
            | Some destructor => [EvDestructor destructor]
            | None => []
            end).
  { rewrite Hs'. destruct destructor; cbn; rewrite Htr3; cbn.
    - by repeat (rewrite <- app_assoc; simpl).
    - by rewrite app_nil_r. }
  exists arg, s0, s2, s3, (EvInit :: EvSetModel :: d0), during, events.
  rewrite Hres. cbn [fst snd].
  split_and!; try done.
  - unfold init_calls. cbn. fold (init_calls d0). by rewrite init_calls_loop.
  - pose proof Hs0 as (_ & Hco & Him & _). unfold coherent in Hco.
    rewrite Hmodel, Him in Hco. by injection Hco.
  - unfold host_writes. cbn. fold (host_writes d0). intros [= Hw].
    apply Hw0 in Hw. rewrite Hmodel0 in Hw. by injection Hw.
  - rewrite Hdur. cbn. by rewrite <- app_assoc.
  - destruct Hlive as (_ & _ & _ & d & Hd & _ & Hinit & _).
    rewrite Htr' in Hd. rewrite <- !app_assoc in Hd. cbn in Hd.
    apply app_inv_head in Hd. injection Hd as <-.
    rewrite !init_calls_app in Hinit.
    change (EvSubscription arg :: during ++ events ++
            match destructor with
            | Some destructor => [EvDestructor destructor]
            | None => []
            end)
      with ([EvSubscription arg] ++ during ++ events ++
            match destructor with
            | Some destructor => [EvDestructor destructor]
            | None => []
            end) in Hinit.
    rewrite !init_calls_app in Hinit. rewrite init_calls_app. lia.
  - rewrite Htr'. unfold subscription_calls. rewrite !omap_app. cbn.
    rewrite !omap_app.
    fold (subscription_calls d0) (subscription_calls during)
         (subscription_calls events).
    rewrite Hsub0, Hsubd, Hsube. by destruct destructor.
  - rewrite Htr'. unfold destructor_calls. rewrite !omap_app. cbn.
    rewrite !omap_app.
    fold (destructor_calls d0) (destructor_calls during)
         (destructor_calls events).
    rewrite Hdes0, Hdesd, Hdese. by destruct destructor.
Qed.

Lemma execCmd_app (d : Dispatch) cmd1 cmd2 s :
  execCmd d (cmd1 ++ cmd2) s = (execCmd d cmd1 ;; execCmd d cmd2) s.
Proof.
  revert s. induction cmd1 as [| call rest IH]; intros s; [done |].
  cbn. unfold bind at 1 3 4.
  destruct (try_catch _ _ s) as [[] s1 | ex s1 |]; [apply IH | done | done].
Qed.

(** X9. [execCmd] called outside a cycle (by the first render for the
    commands of [init], by the effect hook for those of the subscription)
    runs the effect functions one after the other: cut the list anywhere,
    and when the first part is done every message its effect functions
    dispatched has been handed to the update logic, the buffer is empty and
    no cycle is running, before the next effect function is invoked. *)
Theorem X9_execCmd_outside_a_cycle fuel cmd1 cmd2 s s' :
  idle s ->
  execCmd (dispatch fuel) (cmd1 ++ cmd2) s = Ok tt s' ->
  exists s1 d1 d2,
    execCmd (dispatch fuel) cmd1 s = Ok tt s1 /\
    execCmd (dispatch fuel) cmd2 s1 = Ok tt s' /\
    trace s1 = trace s ++ d1 /\
    trace s' = trace s1 ++ d2 /\
    processed d1 = dispatched d1 /\
    processed d2 = dispatched d2 /\
    idle s1 /\
    idle s'.
Proof.
  intros Hidle. rewrite execCmd_app. unfold bind.
  destruct (execCmd (dispatch fuel) cmd1 s) as [[] s1 | ex s1 |] eqn:H1;
    try done.
  intros H2.
  destruct (execCmd_settles _ _ _ _ Hidle H1) as (Hs1 & d1 & Hd1 & Hp1).
  destruct (execCmd_settles _ _ _ _ Hs1 H2) as (Hs' & d2 & Hd2 & Hp2).
  by exists s1, d1, d2.
Qed.

(** ** Whether the loop ends *)

(** X10. When the messages can be ranked so that processing a message only
    dispatches messages of a lower rank, every top-level call of [dispatch]
    returns: there is an amount of fuel from which on it returns, always in
    the same state, idle again. *)
Theorem X10_dispatch_returns_when_messages_are_ranked
    (rank : Msg -> nat) msg s :
  (forall nextMsg s0,
     Forall (fun m => rank m < rank nextMsg) (process_calls nextMsg s0)) ->
  idle s ->
  exists n s',
    (forall fuel, n <= fuel -> dispatch fuel msg s = Ok tt s') /\
    idle s'.
Proof.
  intros Hrank Hidle.
  destruct (dispatch_terminates rank Hrank msg s Hidle) as (n & s' & Hn).
  exists n, s'. split; [done |].
  eapply dispatch_keeps_idle; [done |]. by apply (Hn n).
Qed.

Lemma while_nextMsg_loops (loops : Msg -> Prop) fuel n :
  (forall m s0, loops m -> Exists loops (process_calls m s0)) ->
  forall nextMsg s,
    in_cycle s ->
    loops nextMsg \/ Exists loops (buffer s) ->
    while_nextMsg (dispatch fuel) n nextMsg s = OutOfFuel.
Proof.
  intros Hloops. induction n as [| n IH]; intros nextMsg s Hs Hl; [done |].
  rewrite while_nextMsg_unfold by done.
  assert (Hbuf : Exists loops (buffer (processed_msg nextMsg s))).
  { rewrite processed_msg_buffer. apply Exists_app.
    destruct Hl as [Hl | Hl]; [right; by apply Hloops | by left]. }
  destruct (buffer (processed_msg nextMsg s)) as [| m rest] eqn:Hb.
  - by apply Exists_nil in Hbuf.
  - apply IH; [by apply in_cycle_set_buffer, in_cycle_processed_msg |].
    by apply Exists_cons in Hbuf.
Qed.

(** X11. The loop has no bound of its own: when processing a message of
    some kind always dispatches a message of that kind again, a top-level
    call of [dispatch] with such a message never returns -- whatever the
    fuel, the loop is still running when it is spent. *)
Theorem X11_self_feeding_messages_never_drain
    (loops : Msg -> Prop) fuel msg s :
  (forall m s0, loops m -> Exists loops (process_calls m s0)) ->
  idle s ->
  loops msg ->
  dispatch fuel msg s = OutOfFuel.
Proof.
  intros Hloops (Hre & _ & Him) Hmsg. rewrite dispatch_idle by done.
  destruct fuel as [| fuel']; [done |].
  rewrite (while_nextMsg_loops loops fuel' fuel' Hloops msg (started msg s));
    [done | by apply in_cycle_started | by left].
Qed.

(** ** What the logger is told of a cycle *)

Lemma error_logged_cmd_events cmd :
  error_logged (cmd_events cmd) = if LoggerService then thrown cmd else [].
Proof.
  induction cmd as [| call rest IH]; [by destruct LoggerService |].
  unfold cmd_events, effect_events, error_logged, thrown in *. cbn.
  rewrite !omap_app, IH, omap_calls_events by done.
  unfold log_events.
  destruct (script_end call), LoggerService; by cbn.
Qed.

Lemma process_events_logged nextMsg s :
  info_logged (process_events nextMsg s) =
    (if LoggerService then [(name, msg_name nextMsg)] else []) /\
  debug_logged (process_events nextMsg s) =
    (if LoggerService then [(name, nextMsg)] else []) /\
  error_logged (process_events nextMsg s) =
    (if LoggerService then raised_by (nextMsg, working_model s) else []).
Proof.
  assert (Hlast : forall {A} (f : Event -> option A),
            (forall m, f (EvDispatch m) = None) ->
            (forall m, f (EvMiddleware m) = None) ->
            (forall ex, f (EvLog (error ex)) = None) ->
            (forall c, f (EvEffect c) = None) ->
            omap f match update_outcome nextMsg s with
                   | inl (_, ACmd cmd) => cmd_events cmd
                   | inl (_, NoCmd) => []
                   | inl (_, NotACmd) =>
                       log_events (error (TypeError_not_a_function "forEach"))
                   | inr ex => log_events (error ex)
                   end = []).
  { intros A f Hd Hm Hl He.
    destruct (update_outcome nextMsg s) as [[? [cmd | |]] | ex]; try done.
    - by apply omap_cmd_events.
    - by apply omap_log_events.
    - by apply omap_log_events. }
  split_and!.
  - unfold process_events, info_logged.
    rewrite !omap_app, !omap_calls_events, !Hlast by done.
    unfold log_events. by destruct LoggerService.
  - unfold process_events, debug_logged.
    rewrite !omap_app, !omap_calls_events, !Hlast by done.
    unfold log_events. by destruct LoggerService.
  - unfold process_events.
    unfold error_logged at 1.
    rewrite !omap_app, !omap_calls_events, !omap_log_events by done. cbn.
    unfold raised_by, update_outcome. cbn.
    destruct (outcome _ _) as [[? [cmd | |]] | ex].
    + apply error_logged_cmd_events.
    + by destruct LoggerService.
    + unfold log_events. by destruct LoggerService.
    + unfold log_events. by destruct LoggerService.
Qed.

Lemma drains_logged nextMsg s s' :
  drains nextMsg s s' ->
  forall delta,
    trace s' = trace s ++ delta ->
    info_logged delta =
      (if LoggerService
       then (fun m => (name, msg_name m)) <$> processed delta else []) /\
    debug_logged delta =
      (if LoggerService then (fun m => (name, m)) <$> processed delta else []) /\
    error_logged delta =
      (if LoggerService then flat_map raised_by (update_calls delta) else []).
Proof.
  induction 1 as [nextMsg s Hbuf | nextMsg s m rest s' Hbuf Hdr IH];
    intros delta Htr.
  - rewrite processed_msg_trace in Htr. apply app_inv_head in Htr as <-.
    destruct (process_events_logged nextMsg s) as (-> & -> & ->).
    unfold processed. rewrite process_events_update_calls. cbn.
    destruct LoggerService; by rewrite ?app_nil_r.
  - destruct (drains_drained _ _ _ Hdr) as [d Hd].
    pose proof (drained_trace _ _ _ _ Hd) as Htr'. cbn in Htr'.
    rewrite processed_msg_trace in Htr'.
    rewrite Htr', <- app_assoc in Htr. apply app_inv_head in Htr as <-.
    destruct (IH d) as (Hinfo & Hdebug & Herror).
    { cbn. by rewrite processed_msg_trace. }
    destruct (process_events_logged nextMsg s) as (Hinfo0 & Hdebug0 & Herror0).
    assert (Hp0 : processed (process_events nextMsg s) = [nextMsg]).
    { unfold processed. by rewrite process_events_update_calls. }
    unfold info_logged, debug_logged, error_logged in *.
    rewrite !omap_app, Hinfo, Hdebug, Herror, Hinfo0, Hdebug0, Herror0.
    rewrite processed_app, Hp0, update_calls_app, process_events_update_calls.
    cbn. destruct LoggerService; by rewrite ?app_nil_r.
Qed.

(** X12. With a logger, a cycle leaves one [message from] line at [info]
    (the component's name and the message's name) and one at [debug] (the
    message) for each message handed to the update logic, in that order,
    and one [error] call for each error an update call or an effect
    function of its commands ended in; without one it leaves none. *)
Theorem X12_each_processed_message_is_logged fuel msg s s' :
  idle s ->
  dispatch fuel msg s = Ok tt s' ->
  exists delta,
    trace s' = trace s ++ delta /\
    info_logged delta =
      (if LoggerService
       then (fun m => (name, msg_name m)) <$> processed delta else []) /\
    debug_logged delta =
      (if LoggerService then (fun m => (name, m)) <$> processed delta else []) /\
    error_logged delta =
      (if LoggerService then flat_map raised_by (update_calls delta) else []).
Proof.
  intros (Hre & Hbuf & Him) Hret.
  apply dispatch_returns in Hret as (s2 & Hdrains & ->); try done.
  destruct (drains_drained _ _ _ Hdrains) as [delta Hdr].
  destruct (drains_logged _ _ _ Hdrains delta (drained_trace _ _ _ _ Hdr))
    as (Hinfo & Hdebug & Herror).
  exists (call_events msg ++ delta ++ finish_events s2).
  assert (Hcalls : update_calls (call_events msg ++ delta ++ finish_events s2)
                   = update_calls delta).
  { unfold update_calls. rewrite !omap_app.
    rewrite call_events_silent, finish_events_silent by done.
    by rewrite app_nil_r. }
  unfold processed. rewrite Hcalls. fold (processed delta).
  unfold info_logged, debug_logged, error_logged in *. split_and!.
  - rewrite finished_trace, (drained_trace _ _ _ _ Hdr). unfold started. cbn.
    by rewrite <- !app_assoc.
  - rewrite !omap_app, Hinfo.
    rewrite call_events_silent, finish_events_silent by done.
    by rewrite app_nil_r.
  - rewrite !omap_app, Hdebug.
    rewrite call_events_silent, finish_events_silent by done.
    by rewrite app_nil_r.
  - rewrite !omap_app, Herror.
    rewrite call_events_silent, finish_events_silent by done.
    by rewrite app_nil_r.
Qed.

(** ** The whole lifetime returns

    The lemmas about a lifetime above are about runs that return.  When the
    messages can be ranked as in the section on termination, every run
    does: each step returns from some amount of fuel on, always in the same
    state. *)
Section Totality.

Variable rank : Msg -> nat.
Hypothesis rank_decreases :
  forall nextMsg s,
    Forall (fun m => rank m < rank nextMsg) (process_calls nextMsg s).

Lemma run_total {A} (p : Script A) s :
  idle s ->
  exists n s',
    idle s' /\
    forall fuel, n <= fuel ->
      run (dispatch fuel) p s =
      match script_end p with
      | inl a => Ok a s'
      | inr ex => Raised ex s'
      end.
Proof.
  revert s. induction p as [a | ex | m k IH]; intros s Hs.
  - by exists 0, s.
  - by exists 0, s.
  - destruct (dispatch_terminates rank rank_decreases m s Hs) as (n1 & s1 & H1).
    assert (Hs1 : idle s1).
    { eapply dispatch_keeps_idle; [done |]. by apply (H1 n1). }
    destruct (IH s1 Hs1) as (n2 & s2 & Hs2 & H2).
    exists (n1 `max` n2), s2. split; [done |]. intros fuel Hfuel.
    cbn. unfold bind. rewrite H1 by lia. apply H2. lia.
Qed.

Lemma execCmd_total cmd s :
  idle s ->
  exists n s',
    idle s' /\
    forall fuel, n <= fuel -> execCmd (dispatch fuel) cmd s = Ok tt s'.
Proof.
  revert s. induction cmd as [| call rest IH]; intros s Hs.
  - by exists 0, s.
  - destruct (run_total call (add_trace [EvEffect call] s) Hs)
      as (n1 & s1 & Hs1 & H1).
    destruct (script_end call) as [[] | ex] eqn:Hend.
    + destruct (IH s1 Hs1) as (n2 & s2 & Hs2 & H2).
      exists (n1 `max` n2), s2. split; [done |]. intros fuel Hfuel.
      cbn. unfold bind, try_catch. cbn. rewrite H1 by lia. apply H2. lia.
    + destruct (IH (logged (error ex) s1)) as (n2 & s2 & Hs2 & H2);
        [by eapply idle_frame |].
      exists (n1 `max` n2), s2. split; [done |]. intros fuel Hfuel.
      cbn. unfold bind, try_catch. cbn. rewrite H1 by lia.
      rewrite log_logged. apply H2. lia.
Qed.

Lemma useElmish_first_total s :
  exists n s',
    forall fuel, n <= fuel -> useElmish fuel true s = Ok (init props).1 s'.
Proof.
  unfold useElmish, setModel, new_object. msimpl.
  destruct (init props) as [initModel [initCmd |]]; cbn.
  - set (s0 := set_model (Some initModel) _).
    destruct (execCmd_total initCmd s0) as (n & s' & _ & H).
    { split_and!; [done | done | by eexists]. }
    exists n, s'. intros fuel Hfuel. by rewrite H.
  - by exists 0, (set_model (Some initModel)
                    (add_trace [EvSetModel]
                       (set_initializedModel (Some initModel)
                          (add_trace [EvInit]
                             (set_initializedModel None
                                (set_model None
                                   (set_currentModel (mkObj (OLib (next_oid s)) ∅)
                                      (set_buffer []
                                         (set_reentered false
                                            (set_next_oid (S (next_oid s)) s)))))))))).
Qed.

Lemma useElmish_later_total t0 s :
  live t0 s ->
  exists m,
    model s = Some m /\
    forall fuel,
      useElmish fuel false s = Ok m (set_next_oid (S (next_oid s)) s).
Proof.
  intros (_ & Hco & _). unfold coherent in Hco.
  destruct (model s) as [m |] eqn:Hmodel; [| done].
  exists m. split; [done |]. intros fuel.
  unfold useElmish, new_object. msimpl. by rewrite Hmodel.
Qed.

Lemma rendered_first_total s :
  exists n initializedModel s',
    forall fuel, n <= fuel -> rendered fuel true s = Ok initializedModel s'.
Proof.
  destruct (useElmish_first_total s) as (n & s1 & H1).
  pose proof (H1 n (le_n n)) as Hs1.
  apply useElmish_first_live in Hs1 as [_ Hs1].
  destruct (useElmish_later_total _ s1 Hs1) as (m & _ & H2).
  exists n, m, (set_next_oid (S (next_oid s1)) s1). intros fuel Hfuel.
  rewrite rendered_unfold, H1 by done. cbn. apply H2.
Qed.

Lemma subscribe_total initializedModel s :
  idle s ->
  exists n cleanup s',
    forall fuel, n <= fuel -> subscribe fuel initializedModel s = Ok cleanup s'.
Proof.
  intros Hs. unfold subscribe.
  destruct subscription as [sub |]; [| by exists 0, None, s].
  msimpl. destruct (sub initializedModel) as [subCmd destructor]. cbn.
  destruct (execCmd_total subCmd (add_trace [EvSubscription initializedModel] s))
    as (n & s' & _ & H); [by eapply idle_frame |].
  exists n, destructor, s'. intros fuel Hfuel. by rewrite H.
Qed.

Lemma run_cleanup_idle cleanup s :
  idle s -> exists s', run_cleanup cleanup s = Ok tt s' /\ idle s'.
Proof.
  intros Hs. unfold run_cleanup.
  destruct cleanup as [destructor |]; eexists; (split; [done |]);
    by eapply idle_frame.
Qed.

Lemma effect_hook_total h initializedModel s :
  idle s ->
  exists n h' s',
    forall fuel, n <= fuel ->
      (if deps_changed (effect_deps h) []
       then run_cleanup (effect_cleanup h) ;;
            cleanup <- subscribe fuel initializedModel ;;
            mret (mkHooks (Some []) cleanup)
       else mret h) s = Ok h' s'.
Proof.
  intros Hs. destruct (deps_changed _ _); [| by exists 0, h, s].
  destruct (run_cleanup_idle (effect_cleanup h) s Hs) as (s1 & Hclean & Hs1).
  destruct (subscribe_total initializedModel s1 Hs1) as (n & c & s2 & H).
  exists n, (mkHooks (Some []) c), s2. intros fuel Hfuel.
  unfold bind at 1. rewrite Hclean. unfold bind. by rewrite H.
Qed.

Lemma render_total t0 h s :
  live t0 s -> mounted h = true ->
  exists n h' s', forall fuel, n <= fuel -> render fuel h s = Ok h' s'.
Proof.
  intros Hs Hm. pose proof Hs as (Hidle & _).
  destruct (useElmish_later_total _ s Hs) as (m & Hmodel & Hcall).
  destruct (effect_hook_total h m (set_next_oid (S (next_oid s)) s))
    as (n & h' & s' & H); [by eapply idle_frame |].
  exists n, h', s'. intros fuel Hfuel.
  unfold render. rewrite Hm. cbn. unfold bind at 1.
  rewrite rendered_unfold, Hcall, Hmodel. cbn. by apply H.
Qed.

Lemma host_events_total t0 evs :
  forall h s,
    live t0 s -> mounted h = true ->
    exists n h' s',
      forall fuel, n <= fuel -> host_events fuel evs h s = Ok h' s'.
Proof.
  induction evs as [| [| msg] evs IH]; intros h s Hs Hm.
  - by exists 0, h, s.
  - destruct (render_total t0 h s Hs Hm) as (n1 & h1 & s1 & H1).
    pose proof (H1 n1 (le_n n1)) as Hr.
    pose proof Hr as Hr'.
    apply render_idle in Hr' as [_ Hm1]; [| right; apply Hs].
    apply (render_live t0) in Hr; try done.
    destruct (IH h1 s1 Hr Hm1) as (n2 & h2 & s2 & H2).
    exists (n1 `max` n2), h2, s2. intros fuel Hfuel.
    cbn. unfold bind. rewrite H1 by lia. apply H2. lia.
  - pose proof Hs as (Hidle & _).
    destruct (dispatch_terminates rank rank_decreases msg s Hidle)
      as (n1 & s1 & H1).
    pose proof (H1 n1 (le_n n1)) as Hd.
    apply (dispatch_live t0) in Hd; [| done].
    destruct (IH h s1 Hd Hm) as (n2 & h2 & s2 & H2).
    exists (n1 `max` n2), h2, s2. intros fuel Hfuel.
    cbn. unfold bind. rewrite H1 by lia. apply H2. lia.
Qed.

Lemma mount_total s :
  exists n h s', forall fuel, n <= fuel -> render fuel unmounted s = Ok h s'.
Proof.
  destruct (rendered_first_total s) as (n1 & im & s1 & H1).
  pose proof (H1 n1 (le_n n1)) as Hs1.
  apply rendered_idle in Hs1; [| by left].
  destruct (effect_hook_total unmounted im s1 Hs1)
    as (n2 & h & s2 & H2).
  exists (n1 `max` n2), h, s2. intros fuel Hfuel.
  unfold render. cbn. unfold bind at 1. rewrite H1 by lia.
  apply (H2 fuel). lia.
Qed.

Lemma lifetime_total evs s :
  exists n s', forall fuel, n <= fuel -> lifetime fuel evs s = Ok tt s'.
Proof.
  destruct (mount_total s) as (n1 & h & s1 & H1).
  pose proof (H1 n1 (le_n n1)) as Hr. apply mount_live in Hr as [Hs1 Hm].
  destruct (host_events_total _ evs h s1 Hs1 Hm) as (n2 & h' & s2 & H2).
  pose proof (H2 n2 (le_n n2)) as Hev.
  apply (host_events_live _ _ _ _ _ _ _ Hs1 Hm) in Hev as (Hidle & _).
  destruct (run_cleanup_idle (effect_cleanup h') s2 Hidle) as (s3 & H3 & _).
  exists (n1 `max` n2), s3. intros fuel Hfuel.
  unfold lifetime. unfold bind at 1. rewrite H1 by lia.
  unfold bind. by rewrite H2 by lia.
Qed.

End Totality.

(** X15. When the messages can be ranked so that processing a message only
    dispatches messages of a lower rank, a component's whole lifetime --
    the mount with the commands of [init] and of the subscription, any
    renders and dispatches, the teardown -- returns: from some amount of
    fuel on it ends, always in the same state, and that state is idle. *)
Theorem X15_the_lifetime_returns_when_messages_are_ranked
    (rank : Msg -> nat) evs s :
  (forall nextMsg s0,
     Forall (fun m => rank m < rank nextMsg) (process_calls nextMsg s0)) ->
  exists n s',
    (forall fuel, n <= fuel -> lifetime fuel evs s = Ok tt s') /\
    idle s'.
Proof.
  intros Hrank. destruct (lifetime_total rank Hrank evs s) as (n & s' & Hn).
  exists n, s'. split; [done |].
  pose proof (Hn n (le_n n)) as Hlife.
  by apply lifetime_live in Hlife as (Hidle & _).
Qed.

End Hook.

(** ** The logger is an observer *)

Section Logging.

Variable name : string.
Variable props : Props.
Variable update : Update.
Variable dispatchMiddleware : bool.

Lemma unlogged_app tr1 tr2 : unlogged (tr1 ++ tr2) = unlogged tr1 ++ unlogged tr2.
Proof. apply omap_app. Qed.

Lemma erases_mret {A} (a : A) : erases (mret a) (mret a).
Proof. done. Qed.

Lemma erases_throw {A} ex : erases (throw (A:=A) ex) (throw ex).
Proof. done. Qed.

Lemma erases_diverge {A} : erases (diverge (A:=A)) diverge.
Proof. done. Qed.

Lemma erases_bind {A B} (m1 m0 : M A) (k1 k0 : A -> M B) :
  erases m1 m0 -> (forall a, erases (k1 a) (k0 a)) ->
  erases (bind m1 k1) (bind m0 k0).
Proof.
  intros Hm Hk s. unfold bind. rewrite Hm.
  destruct (m1 s) as [a s1 | ex s1 |]; cbn; [apply Hk | done | done].
Qed.

Lemma erases_try_catch {A} (m1 m0 : M A) (h1 h0 : Exn -> M A) :
  erases m1 m0 -> (forall ex, erases (h1 ex) (h0 ex)) ->
  erases (try_catch m1 h1) (try_catch m0 h0).
Proof.
  intros Hm Hh s. unfold try_catch. rewrite Hm.
  destruct (m1 s) as [a s1 | ex s1 |]; cbn; [done | apply Hh | done].
Qed.

Lemma erases_gets {A} (f : State -> A) :
  (forall s, f (without_logs s) = f s) -> erases (gets f) (gets f).
Proof. intros Hf s. unfold gets. cbn. by rewrite Hf. Qed.

Lemma erases_modify (f : State -> State) :
  (forall s, f (without_logs s) = without_logs (f s)) ->
  erases (modify f) (modify f).
Proof. intros Hf s. unfold modify. cbn. by rewrite Hf. Qed.

Lemma erases_emit e : is_log e = false -> erases (emit e) (emit e).
Proof.
  intros He. apply erases_modify. intros s. unfold without_logs, add_trace.
  cbn. rewrite unlogged_app. cbn. by rewrite He.
Qed.

Lemma erases_log l : erases (log true l) (log false l).
Proof.
  intros s. unfold log, emit, modify, mret. cbn. unfold without_logs. cbn.
  rewrite unlogged_app. cbn. by rewrite app_nil_r.
Qed.

Lemma erases_spread a b : erases (spread a b) (spread a b).
Proof. done. Qed.

Lemma erases_buffer_push msg : erases (buffer_push msg) (buffer_push msg).
Proof. done. Qed.

Lemma erases_buffer_shift : erases buffer_shift buffer_shift.
Proof. intros s. unfold buffer_shift. cbn. by destruct (buffer s). Qed.

Lemma erases_run {A} (d1 d0 : Dispatch) (p : Script A) :
  (forall m, erases (d1 m) (d0 m)) -> erases (run d1 p) (run d0 p).
Proof.
  intros Hd. induction p as [a | ex | m k IH]; cbn.
  - apply erases_mret.
  - apply erases_throw.
  - by apply erases_bind.
Qed.

Lemma erases_callUpdate (d1 d0 : Dispatch) upd msg w p :
  (forall m, erases (d1 m) (d0 m)) ->
  erases (callUpdate d1 upd msg w p) (callUpdate d0 upd msg w p).
Proof.
  intros Hd. unfold callUpdate, callUpdateMap.
  apply erases_bind; [by apply erases_emit |]. intros _.
  destruct upd as [f | updateMap]; [by apply erases_run |].
  destruct (property updateMap (msg_name msg)); [by apply erases_run |].
  apply erases_throw.
Qed.

Lemma erases_execCmd (d1 d0 : Dispatch) cmd :
  (forall m, erases (d1 m) (d0 m)) ->
  erases (execCmd true d1 cmd) (execCmd false d0 cmd).
Proof.
  intros Hd. induction cmd as [| call rest IH]; cbn; [apply erases_mret |].
  apply erases_bind; [| done].
  apply erases_try_catch; [| intros ex; apply erases_log].
  apply erases_bind; [by apply erases_emit |]. intros _. by apply erases_run.
Qed.

Lemma erases_process (d1 d0 : Dispatch) nextMsg :
  (forall m, erases (d1 m) (d0 m)) ->
  erases (process name props update true d1 nextMsg)
         (process name props update false d0 nextMsg).
Proof.
  intros Hd. unfold process.
  apply erases_bind; [apply erases_log |]. intros _.
  apply erases_bind; [apply erases_log |]. intros _.
  apply erases_try_catch; [| intros ex; apply erases_log].
  apply erases_bind; [by apply erases_gets |]. intros im.
  apply erases_bind; [by apply erases_gets |]. intros cm.
  apply erases_bind; [apply erases_spread |]. intros working.
  apply erases_bind; [by apply erases_callUpdate |]. intros r.
  destruct (elements r) as [[newModel cmd] |]; [| apply erases_throw].
  apply erases_bind; [by apply erases_gets |]. intros im'.
  apply erases_bind.
  - destruct newModel as [newModel |]; [| apply erases_throw].
    destruct (modelHasChanged im' newModel); [| apply erases_mret].
    apply erases_bind; [by apply erases_gets |]. intros cm'.
    apply erases_bind; [apply erases_spread |]. intros merged.
    apply erases_bind; [by apply erases_modify |]. intros _.
    by apply erases_modify.
  - intros _. destruct cmd as [cmd | |].
    + by apply erases_execCmd.
    + apply erases_mret.
    + apply erases_throw.
Qed.

Lemma erases_while_nextMsg (d1 d0 : Dispatch) n nextMsg :
  (forall m, erases (d1 m) (d0 m)) ->
  erases (while_nextMsg name props update true d1 n nextMsg)
         (while_nextMsg name props update false d0 n nextMsg).
Proof.
  intros Hd. revert nextMsg.
  induction n as [| n IH]; intros nextMsg; cbn; [apply erases_diverge |].
  apply erases_bind; [by apply erases_process |]. intros _.
  apply erases_bind; [apply erases_buffer_shift |]. intros [m |].
  - apply IH.
  - apply erases_mret.
Qed.

Lemma erases_setModel_merge :
  erases (setModel_merge name true) (setModel_merge name false).
Proof.
  unfold setModel_merge.
  apply erases_bind; [by apply erases_emit |]. intros _.
  apply erases_bind; [by apply erases_gets |]. intros prevModel.
  apply erases_bind; [by apply erases_gets |]. intros cm.
  apply erases_bind; [apply erases_spread |]. intros updatedModel.
  apply erases_bind; [apply erases_log |]. intros _.
  by apply erases_modify.
Qed.

Lemma erases_dispatch fuel msg :
  erases (dispatch name props update true dispatchMiddleware fuel msg)
         (dispatch name props update false dispatchMiddleware fuel msg).
Proof.
  revert msg. induction fuel as [| fuel IH]; intros msg; cbn.
  - apply erases_bind; [by apply erases_emit |]. intros _.
    apply erases_bind; [by apply erases_gets |]. intros [im |];
      [| apply erases_mret].
    apply erases_bind.
    { destruct dispatchMiddleware; [by apply erases_emit | apply erases_mret]. }
    intros _. apply erases_bind; [by apply erases_gets |]. intros [|].
    + apply erases_buffer_push.
    + apply erases_diverge.
  - apply erases_bind; [by apply erases_emit |]. intros _.
    apply erases_bind; [by apply erases_gets |]. intros [im |];
      [| apply erases_mret].
    apply erases_bind.
    { destruct dispatchMiddleware; [by apply erases_emit | apply erases_mret]. }
    intros _. apply erases_bind; [by apply erases_gets |]. intros [|].
    + apply erases_buffer_push.
    + apply erases_bind; [by apply erases_modify |]. intros _.
      apply erases_bind; [by apply erases_modify |]. intros _.
      apply erases_bind; [by apply erases_while_nextMsg |]. intros _.
      apply erases_bind; [by apply erases_modify |]. intros _.
      apply erases_bind; [by apply erases_gets |]. intros [|].
      * apply erases_setModel_merge.
      * apply erases_mret.
Qed.

Lemma log_calls_unlogged tr : log_calls (unlogged tr) = [].
Proof.
  induction tr as [| e tr IH]; [done |]. unfold log_calls, unlogged in *.
  by destruct e.
Qed.

Lemma omap_unlogged {A} (f : Event -> option A) tr :
  (forall l, f (EvLog l) = None) -> omap f (unlogged tr) = omap f tr.
Proof.
  intros Hlog. induction tr as [| e tr IH]; [done |].
  unfold unlogged in *. destruct e; cbn; rewrite ?Hlog, IH; done.
Qed.

(** C9. Run without a logger from the same state (the logger's earlier
    calls erased), [dispatch] and [execCmd] end the same way -- returning,
    or out of fuel together -- in states with the same buffer, accumulator,
    flags and host state, and with the same trace of dispatches, update
    calls, effect invocations, middleware calls and [setModel] calls once
    the logger's calls are erased; the run without a logger records no
    logger call. *)
Theorem C9_logger_absence_changes_nothing fuel msg cmd s :
  dispatch name props update false dispatchMiddleware fuel msg (without_logs s)
  = res_without_logs
      (dispatch name props update true dispatchMiddleware fuel msg s) /\
  execCmd false (dispatch name props update false dispatchMiddleware fuel) cmd
          (without_logs s)
  = res_without_logs
      (execCmd true (dispatch name props update true dispatchMiddleware fuel)
               cmd s) /\
  (forall s1 : State,
     buffer (without_logs s1) = buffer s1 /\
     currentModel (without_logs s1) = currentModel s1 /\
     model (without_logs s1) = model s1 /\
     modified (without_logs s1) = modified s1 /\
     reentered (without_logs s1) = reentered s1 /\
     trace (without_logs s1) = unlogged (trace s1) /\
     log_calls (trace (without_logs s1)) = [] /\
     dispatched (trace (without_logs s1)) = dispatched (trace s1) /\
     update_calls (trace (without_logs s1)) = update_calls (trace s1) /\
     invoked (trace (without_logs s1)) = invoked (trace s1) /\
     host_writes (trace (without_logs s1)) = host_writes (trace s1)).
Proof.
  split_and!.
  - apply erases_dispatch.
  - apply erases_execCmd. intros m. apply erases_dispatch.
  - intros s1. split_and!; try done.
    + apply log_calls_unlogged.
    + by apply omap_unlogged.
    + by apply omap_unlogged.
    + by apply omap_unlogged.
    + unfold host_writes. cbn. by rewrite omap_unlogged.
Qed.

End Logging.

(** ** The claims on the counter component *)

Section Witnesses.

Import Counter.

Lemma idle_ready : idle ready.
Proof. split_and!; [done | done | by eexists]. Qed.

Lemma in_cycle_running : in_cycle running.
Proof. split; [done | by eexists]. Qed.

(** C1 on the counter: one [Increment] dispatched from outside; the effect
    of its command dispatches a second one, which is processed before the
    call returns. *)
Lemma C1_witness :
  exists s',
    idle ready /\
    dispatch name props update true true 5 Increment ready = Ok tt s' /\
    exists delta reissued,
      trace s' = trace ready ++ delta /\
      dispatched delta = Increment :: reissued /\
      processed delta = Increment :: reissued /\
      buffer s' = [] /\
      reentered s' = false.
Proof.
  eexists. split; [apply idle_ready |].
  split; [vm_compute; reflexivity |].
  refine (proj2 (proj2 (C1_reentrant_messages_processed_in_order
                          name props update true true 5 Increment ready
                          _ _ _))).
  - apply idle_ready.
  - vm_compute. reflexivity.
Defined.

(** C2 on the counter: the two increments of one cycle are accumulated
    and committed by one [setModel], which writes [{ count: 2 }]. *)
Lemma C2_witness :
  exists s' delta,
    idle ready /\
    dispatch name props update true true 5 Increment ready = Ok tt s' /\
    trace s' = trace ready ++ delta /\
    processed delta = [Increment; Increment] /\
    existsb (fun c => changed_by props update (initializedModel ready) c.1 c.2)
            (update_calls delta) = true /\
    host_writes delta = 1 /\
    exists before updatedModel,
      delta = before ++
              EvSetModel ::
              log_events true (debug_update_model_for name updatedModel) /\
      host_writes before = 0 /\
      update_calls before = update_calls delta /\
      invoked before = invoked delta /\
      model s' = Some updatedModel /\
      fields updatedModel =
        accumulate props update (initializedModel ready)
                   (fields (currentModel ready)) (update_calls delta)
        ∪ from_option fields ∅ (model ready) /\
      count updatedModel = 2%Z.
Proof.
  edestruct (C2_commit_once_at_end_of_cycle
               name props update true true 5 Increment ready)
    as (delta & w & calls & Htr & Hcalls & Hbal & Hhanded & Hacc & H);
    [apply idle_ready | vm_compute; reflexivity |].
  vm_compute in Htr. subst delta.
  match type of H with
  | if ?c then _ else _ =>
      assert (Hex : c = true) by (vm_compute; reflexivity)
  end.
  rewrite Hex in H.
  destruct H as (Hw & before & updatedModel & Hdelta & Hwb & Hub & Hib &
                 Hmodel & _ & Hfields).
  eexists _, _. split; [apply idle_ready |].
  split; [vm_compute; reflexivity |].
  split; [vm_compute; reflexivity |].
  split; [vm_compute; reflexivity |].
  split; [exact Hex |].
  split; [exact Hw |].
  exists before, updatedModel.
  split; [exact Hdelta |].
  split; [exact Hwb |].
  split; [exact Hub |].
  split; [exact Hib |].
  split; [exact Hmodel |].
  split; [exact Hfields |].
  vm_compute in Hmodel. injection Hmodel as <-. vm_compute. reflexivity.
Defined.

(** C3 on the counter.  [Same] returns the model it was handed, untouched.
    The test of line 48 compares what the update logic returns with
    [initializedModel], while line 67 hands the update logic a new object,
    so the test cannot recognise the working model: the returned object is
    merged, [modified] is set and the cycle ends with a [setModel] and a
    logged [update model for].  Where the test does fire it drops a change:
    after an [Increment] has been committed, [Stored] returns the object
    [init] built, whose count is not the working model's, and nothing is
    written. *)
Theorem C3_the_identity_test_misses_the_working_model :
  (exists s' working,
     dispatch name props update true true 5 Same ready = Ok tt s' /\
     update_calls (trace s') = [(Same, working)] /\
     outcome props update Same working = inl (working, NoCmd) /\
     fields working = fields initModel /\
     oid working <> oid initModel /\
     modelHasChanged (initializedModel ready) working = true /\
     host_writes (trace s') = 1 /\
     length (model_updates (trace s')) = 1) /\
  (exists s1 s2 working,
     dispatch name props update true true 5 Increment ready = Ok tt s1 /\
     dispatch name props update true true 5 Stored s1 = Ok tt s2 /\
     update_calls (trace s2) =
       update_calls (trace s1) ++ [(Stored, working)] /\
     outcome props update Stored working = inl (initModel, NoCmd) /\
     count working = 2%Z /\
     count initModel = 0%Z /\
     modelHasChanged (initializedModel s1) initModel = false /\
     host_writes (trace s2) = host_writes (trace s1) /\
     count <$> model s2 = Some 2%Z).
Proof.
  split.
  - do 2 eexists. split; [vm_compute; reflexivity |].
    split; [vm_compute; reflexivity |].
    split; [vm_compute; reflexivity |].
    split; [vm_compute; reflexivity |].
    split; [by vm_compute |].
    split; vm_compute; done.
  - do 3 eexists. split; [vm_compute; reflexivity |].
    split; [vm_compute; reflexivity |].
    split; [vm_compute; reflexivity |].
    split; [vm_compute; reflexivity |].
    split; vm_compute; done.
Qed.

(** C4 on the counter: [Boom] dispatches [Increment] and throws. *)
Lemma C4_witness :
  in_cycle running /\
  update_outcome props update Boom running = inr (Thrown (VStr "update failed")) /\
  (forall fuel0 msg0 s0 ex0 s0',
     dispatch name props update true true fuel0 msg0 s0 <> Raised ex0 s0') /\
  exists s1,
    process name props update true (dispatch name props update true true 5)
            Boom running = Ok tt s1 /\
    trace s1 =
      trace running ++ process_events name props update true true Boom running /\
    invoked (process_events name props update true true Boom running) = [] /\
    log_calls (process_events name props update true true Boom running) =
      [info_message_from name (msg_name Boom); debug_message_from name Boom;
       error (Thrown (VStr "update failed"))] /\
    currentModel s1 = currentModel running /\
    modified s1 = modified running /\
    model s1 = model running.
Proof.
  split; [apply in_cycle_running |]. split; [by vm_compute |].
  destruct (C4_update_error_is_caught
              name props update true true 5 1 Boom running
              (Thrown (VStr "update failed")) in_cycle_running eq_refl)
    as (Hnot & s1 & Hproc & Htr & _ & Hinv & Hlog & _ & Hcm & Hmod & Hmodel & _).
  split; [exact Hnot |]. by exists s1.
Defined.

(** C5 on the counter: the second effect throws after a dispatch. *)
Lemma C5_witness :
  in_cycle running /\
  exists s',
    execCmd true (dispatch name props update true true 5) [again; failing]
            running = Ok tt s' /\
    trace s' = trace running ++ cmd_events true true [again; failing] /\
    invoked (cmd_events true true [again; failing]) = [again; failing] /\
    log_calls (cmd_events true true [again; failing]) =
      error <$> thrown [again; failing] /\
    buffer s' = buffer running ++ cmd_calls [again; failing].
Proof.
  split; [apply in_cycle_running |].
  destruct (proj2 (proj2 (C5_execCmd_runs_every_effect
                            name props update true true 5 [again; failing]
                            running)) in_cycle_running)
    as (s' & Hexec & Htr & Hinv & Hlog & Hbuf & _).
  by exists s'.
Defined.

(** C6 on the counter, before the first render. *)
Lemma C6_witness :
  initializedModel fresh = None /\
  exists s',
    dispatch name props update true true 5 Increment fresh = Ok tt s' /\
    trace s' = trace fresh ++ [EvDispatch Increment] /\
    buffer s' = buffer fresh /\
    reentered s' = reentered fresh /\
    currentModel s' = currentModel fresh /\
    model s' = model fresh.
Proof.
  split; [done |].
  exact (C6_dispatch_before_initialization
           name props update true true 5 Increment fresh eq_refl).
Defined.

(** C7 fails as stated: before the model exists a message passed to
    [dispatch] never reaches the configured middleware. *)
Lemma C7_counterexample :
  exists s',
    dispatch name props update true true 5 Increment fresh = Ok tt s' /\
    dispatched (trace s') = [Increment] /\
    middleware_calls (trace s') = [].
Proof.
  eexists. split; [vm_compute; reflexivity |]. by vm_compute.
Defined.

(** C7 as amended, on the counter. *)
Lemma C7_witness :
  exists s',
    true = true /\
    is_Some (initializedModel ready) /\
    dispatch name props update true true 5 Increment ready = Ok tt s' /\
    exists rest,
      trace s' =
        trace ready ++ EvDispatch Increment :: EvMiddleware Increment :: rest /\
      middleware_calls (EvDispatch Increment :: EvMiddleware Increment :: rest) =
        dispatched (EvDispatch Increment :: EvMiddleware Increment :: rest) /\
      if reentered ready
      then rest = [] /\ buffer s' = buffer ready ++ [Increment]
      else exists after,
             rest =
               log_events true (info_message_from name (msg_name Increment)) ++
               log_events true (debug_message_from name Increment) ++
               EvUpdate Increment (working_model ready) :: after.
Proof.
  eexists. split; [done |]. split; [by eexists |].
  split; [vm_compute; reflexivity |].
  refine (C7_middleware_sees_every_message
            name props update true true 5 Increment ready _ eq_refl _ _).
  - by eexists.
  - vm_compute. reflexivity.
Defined.

(** C8 on the counter: mounted, rendered again, dispatched to, rendered
    again, unmounted.  The command of [init] has had the model written
    before the subscription is called, so the subscription is handed the
    state cell's [{ count: 2 }], not the [{ count: 0 }] of [init]. *)
Lemma C8_witness :
  exists s' arg s0 s2 s3 before during events,
    Some subscription = Some subscription /\
    lifetime name props init update (Some subscription) true true 5
             [Rerender; Dispatched Increment; Rerender] fresh = Ok tt s' /\
    (rendered name props init update true true 5 true fresh = Ok arg s0 /\
     trace s0 = trace fresh ++ before /\
     init_calls before = 1 /\
     subscription_calls before = [] /\
     destructor_calls before = [] /\
     model s0 = Some arg /\
     fields arg = fields (currentModel s0) ∪ fields (init props).1 /\
     (host_writes before = 1 -> arg = (init props).1) /\
     execCmd true (dispatch name props update true true 5) (subscription arg).1
             (add_trace [EvSubscription arg] s0)
       = Ok tt s2 /\
     trace s2 = trace s0 ++ EvSubscription arg :: during /\
     expected_events true (subscription arg).1 `sublist_of` during /\
     subscription_calls during = [] /\
     destructor_calls during = [] /\
     host_events name props init update (Some subscription) true true 5
                 [Rerender; Dispatched Increment; Rerender]
                 (mkHooks (Some []) (subscription arg).2) s2
       = Ok (mkHooks (Some []) (subscription arg).2) s3 /\
     trace s3 = trace s2 ++ events /\
     subscription_calls events = [] /\
     destructor_calls events = [] /\
     init_calls (during ++ events) = 0 /\
     s' = match (subscription arg).2 with
          | Some destructor => add_trace [EvDestructor destructor] s3
          | None => s3
          end /\
     subscription_calls (trace s') = subscription_calls (trace fresh) ++ [arg] /\
     destructor_calls (trace s') =
       destructor_calls (trace fresh) ++
       match (subscription arg).2 with
       | Some destructor => [destructor]
       | None => []
       end) /\
    count arg = 2%Z /\
    count (init props).1 = 0%Z.
Proof.
  edestruct (C8_subscription_runs_once
               name props init update (Some subscription) true true 5
               [Rerender; Dispatched Increment; Rerender] subscription fresh)
    as (arg & s0 & s2 & s3 & before & during & events & H);
    [reflexivity | vm_compute; reflexivity |].
  eexists _, arg, s0, s2, s3, before, during, events.
  split; [reflexivity |].
  split; [vm_compute; reflexivity |].
  split; [exact H |].
  destruct H as (Hrender & _).
  vm_compute in Hrender.
  injection Hrender as <- _.
  split; vm_compute; reflexivity.
Defined.

(** C10 fails as stated: the handler map has no entry named [toString],
    yet line 135 finds the function every object inherits.  [callUpdateMap]
    returns the string that function returns; the destructuring of line 67
    takes its first two characters for the partial model and the commands;
    the first is merged and [modified] is set, the second makes [execCmd]
    raise in [cmd.forEach], which is logged; the cycle ends with a
    [setModel]. *)
Lemma C10_counterexample :
  updateMap !! msg_name Inherited = None /\
  (forall d model s0,
     callUpdateMap d (mkUpdateMap updateMap Object_prototype) Inherited model
                   props s0
     = Ok (Primitive (VStr "[object Object]")) s0) /\
  exists s',
    dispatch name props update true true 5 Inherited ready = Ok tt s' /\
    processed (trace s') = [Inherited] /\
    fields (currentModel s') = {[ "0"%string := VStr "[" ]} /\
    error_logged (trace s') = [TypeError_not_a_function "forEach"] /\
    host_writes (trace s') = 1 /\
    fields <$> model s' =
      Some ({[ "0"%string := VStr "[" ]} ∪ fields initModel).
Proof.
  split; [by vm_compute |]. split; [done |].
  eexists. split; [vm_compute; reflexivity |].
  split; [by vm_compute |].
  split; [by vm_compute |].
  split; [by vm_compute |].
  split; [by vm_compute |].
  by vm_compute.
Defined.

(** C10 as amended, on the counter: [Unknown] is no property of the handler
    map, own or inherited. *)
Lemma C10_witness :
  update = UpdateMap (mkUpdateMap updateMap Object_prototype) /\
  handlers (mkUpdateMap updateMap Object_prototype) !! msg_name Unknown = None /\
  inherited (mkUpdateMap updateMap Object_prototype) !! msg_name Unknown = None /\
  in_cycle running /\
  (forall d model s0,
     callUpdateMap d (mkUpdateMap updateMap Object_prototype) Unknown model
                   props s0 =
     Raised (TypeError_not_a_function (msg_name Unknown)) s0) /\
  exists s1,
    process name props update true (dispatch name props update true true 5)
            Unknown running = Ok tt s1 /\
    trace s1 =
      trace running ++
      log_events true (info_message_from name (msg_name Unknown)) ++
      log_events true (debug_message_from name Unknown) ++
      [EvUpdate Unknown (working_model running)] ++
      log_events true (error (TypeError_not_a_function (msg_name Unknown))) /\
    buffer s1 = buffer running /\
    currentModel s1 = currentModel running /\
    modified s1 = modified running /\
    model s1 = model running.
Proof.
  split; [done |]. split; [by vm_compute |]. split; [by vm_compute |].
  split; [apply in_cycle_running |].
  destruct (C10_missing_handler_is_absorbed
              name props update true true 5 1
              (mkUpdateMap updateMap Object_prototype) Unknown running
              eq_refl ltac:(by vm_compute) ltac:(by vm_compute)
              in_cycle_running)
    as (Hthrow & s1 & Hproc & Htr & _ & Hbuf & Hcm & Hmod & Hmodel & _).
  split; [exact Hthrow |]. by exists s1.
Defined.

(** The relay component meets the ranking condition, so each of its
    top-level dispatches returns. *)
Lemma relay_rank_decreases nextMsg s :
  Forall (fun m => relay_rank m < relay_rank nextMsg)
         (process_calls props relay nextMsg s).
Proof.
  unfold process_calls, update_outcome, outcome, update_script, relay,
    relay_rank.
  destruct (String.eqb (msg_name nextMsg) "Boom"); cbn; by repeat constructor.
Qed.

Lemma relay_terminates msg :
  exists n s', forall fuel,
    n <= fuel -> dispatch name props relay true true fuel msg ready = Ok tt s'.
Proof.
  apply (dispatch_terminates name props relay true true relay_rank
           relay_rank_decreases msg ready idle_ready).
Qed.

(** The spec's scenario: one [Increment] from outside, a second one from
    the effect of its command; one call ends with [{ count: 2 }] committed. *)
Example counter_two_increments :
  exists s',
    dispatch name props update true true 5 Increment ready = Ok tt s' /\
    count <$> model s' = Some 2%Z /\
    processed (trace s') = [Increment; Increment] /\
    host_writes (trace s') = 1.
Proof. eexists. split; [vm_compute; reflexivity |]. by vm_compute. Qed.

(** ** Further properties on the counter component *)

Lemma coherent_ready : coherent ready.
Proof. vm_compute. reflexivity. Qed.

(** X2 on the counter: the second [Increment] is handed the count the first
    one left. *)
Lemma X2_witness :
  exists s',
    idle ready /\
    dispatch name props update true true 5 Increment ready = Ok tt s' /\
    exists delta w calls,
      trace s' = trace ready ++ delta /\
      update_calls delta = (Increment, w) :: calls /\
      fields w = fields (working_model ready) /\
      (forall i c1 c2,
         update_calls delta !! i = Some c1 ->
         update_calls delta !! S i = Some c2 ->
         fields c2.2 =
         accepted props update (initializedModel ready) c1 ∪ fields c1.2) /\
      handed props update (initializedModel ready)
             (fields (currentModel ready)) (update_calls delta) /\
      fields (currentModel s') =
        accumulate props update (initializedModel ready)
                   (fields (currentModel ready)) (update_calls delta) /\
      initializedModel s' = initializedModel ready.
Proof.
  eexists. split; [apply idle_ready |].
  split; [vm_compute; reflexivity |].
  refine (X2_update_sees_the_changes_of_earlier_messages
            name props update true true 5 Increment ready _ idle_ready _).
  vm_compute. reflexivity.
Defined.

(** X3 on the counter. *)
Lemma X3_witness :
  exists s',
    idle ready /\
    dispatch name props update true true 5 Increment ready = Ok tt s' /\
    dom (from_option fields ∅ (model ready)) ⊆
      dom (from_option fields ∅ (model s')) /\
    dom (fields (currentModel ready)) ⊆ dom (fields (currentModel s')) /\
    exists delta,
      trace s' = trace ready ++ delta /\
      forall k,
        coherent ready ->
        Forall (fun call =>
                  accepted props update (initializedModel ready) call !! k = None)
               (update_calls delta) ->
        from_option fields ∅ (model s') !! k =
        from_option fields ∅ (model ready) !! k.
Proof.
  eexists. split; [apply idle_ready |].
  split; [vm_compute; reflexivity |].
  refine (X3_dispatch_never_removes_a_property
            name props update true true 5 Increment ready _ idle_ready _).
  vm_compute. reflexivity.
Defined.

(** X4 on the counter. *)
Lemma X4_witness :
  exists s',
    idle ready /\
    coherent ready /\
    dispatch name props update true true 5 Increment ready = Ok tt s' /\
    coherent s' /\
    fields <$> model s' = Some (fields (working_model s')) /\
    initializedModel s' = initializedModel ready.
Proof.
  eexists. split; [apply idle_ready |]. split; [apply coherent_ready |].
  split; [vm_compute; reflexivity |].
  refine (X4_committed_model_is_the_next_working_model
            name props update true true 5 Increment ready _
            idle_ready coherent_ready _).
  vm_compute. reflexivity.
Defined.

(** X5 on the counter: mounted, dispatched to, rendered, dispatched to,
    and rendered once more. *)
Lemma X5_witness :
  exists h s1 h' s2 returned s3,
    render name props init update (Some subscription) true true 5
           unmounted fresh = Ok h s1 /\
    host_events name props init update (Some subscription) true true 5
                [Dispatched Increment; Rerender; Dispatched Increment] h s1
      = Ok h' s2 /\
    useElmish name props init update true true 5 false s2 = Ok returned s3 /\
    model s2 = Some returned /\
    fields returned = fields (working_model s2) /\
    initializedModel s2 = Some (init props).1 /\
    s3 = set_next_oid (S (next_oid s2)) s2.
Proof.
  do 6 eexists.
  split; [vm_compute; reflexivity |].
  split; [vm_compute; reflexivity |].
  split; [vm_compute; reflexivity |].
  refine (X5_a_render_returns_the_model_update_sees
            name props init update (Some subscription) true true 5
            [Dispatched Increment; Rerender; Dispatched Increment]
            fresh _ _ _ _ _ _
            ltac:(vm_compute; reflexivity) ltac:(vm_compute; reflexivity)
            ltac:(vm_compute; reflexivity)).
Defined.

(** X6 on the counter. *)
Lemma X6_witness :
  exists s',
    lifetime name props init update (Some subscription) true true 5
             [Rerender; Dispatched Increment; Rerender] fresh = Ok tt s' /\
    exists rest,
      trace s' = trace fresh ++ EvInit :: EvSetModel :: rest /\
      init_calls rest = 0 /\
      init_calls (EvInit :: EvSetModel :: rest) = 1.
Proof.
  eexists. split; [vm_compute; reflexivity |].
  refine (X6_init_is_called_once
            name props init update (Some subscription) true true 5
            [Rerender; Dispatched Increment; Rerender] fresh _ _).
  vm_compute. reflexivity.
Defined.

(** X7 on the counter. *)
Lemma X7_witness :
  exists s',
    lifetime name props init update (Some subscription) true true 5
             [Rerender; Dispatched Increment; Rerender] fresh = Ok tt s' /\
    exists delta,
      trace s' = trace fresh ++ delta /\
      processed delta = dispatched delta /\
      middleware_calls delta = dispatched delta /\
      buffer s' = [] /\
      reentered s' = false.
Proof.
  eexists. split; [vm_compute; reflexivity |].
  refine (X7_every_dispatched_message_is_processed
            name props init update (Some subscription) true true 5
            [Rerender; Dispatched Increment; Rerender] fresh _ _).
  vm_compute. reflexivity.
Defined.

(** X8 on the counter, used without a subscription. *)
Lemma X8_witness :
  exists s',
    @None Subscription = None /\
    lifetime name props init update None true true 5
             [Rerender; Dispatched Increment; Rerender] fresh = Ok tt s' /\
    exists delta,
      trace s' = trace fresh ++ delta /\
      subscription_calls delta = [] /\
      destructor_calls delta = [].
Proof.
  eexists. split; [done |]. split; [vm_compute; reflexivity |].
  refine (X8_no_subscription_no_cleanup
            name props init update None true true 5
            [Rerender; Dispatched Increment; Rerender] fresh _ eq_refl _).
  vm_compute. reflexivity.
Defined.

(** X9 on the counter: the first effect function dispatches [Increment],
    the second dispatches [Noop] and throws. *)
Lemma X9_witness :
  exists s',
    idle ready /\
    execCmd true (dispatch name props update true true 5)
            ([again] ++ [failing]) ready = Ok tt s' /\
    exists s1 d1 d2,
      execCmd true (dispatch name props update true true 5) [again] ready
        = Ok tt s1 /\
      execCmd true (dispatch name props update true true 5) [failing] s1
        = Ok tt s' /\
      trace s1 = trace ready ++ d1 /\
      trace s' = trace s1 ++ d2 /\
      processed d1 = dispatched d1 /\
      processed d2 = dispatched d2 /\
      idle s1 /\
      idle s'.
Proof.
  eexists. split; [apply idle_ready |].
  split; [vm_compute; reflexivity |].
  refine (X9_execCmd_outside_a_cycle
            name props update true true 5 [again] [failing] ready _
            idle_ready _).
  vm_compute. reflexivity.
Defined.

(** X10 on the relay component. *)
Lemma X10_witness :
  (forall nextMsg s0,
     Forall (fun m => relay_rank m < relay_rank nextMsg)
            (process_calls props relay nextMsg s0)) /\
  idle ready /\
  exists n s',
    (forall fuel,
       n <= fuel -> dispatch name props relay true true fuel Boom ready = Ok tt s') /\
    idle s'.
Proof.
  split; [apply relay_rank_decreases |]. split; [apply idle_ready |].
  exact (X10_dispatch_returns_when_messages_are_ranked
           name props relay true true relay_rank Boom ready
           relay_rank_decreases idle_ready).
Defined.

(** X11 on the echo component, whose update call dispatches the message it
    was called with. *)
Lemma echo_loops m s0 :
  m = Increment -> Exists (fun m => m = Increment) (process_calls props echo m s0).
Proof. intros ->. by apply Exists_cons_hd. Qed.

Lemma X11_witness :
  (forall m s0,
     m = Increment ->
     Exists (fun m => m = Increment) (process_calls props echo m s0)) /\
  idle ready /\
  Increment = Increment /\
  forall fuel, dispatch name props echo true true fuel Increment ready = OutOfFuel.
Proof.
  split; [apply echo_loops |]. split; [apply idle_ready |]. split; [done |].
  intros fuel.
  exact (X11_self_feeding_messages_never_drain
           name props echo true true (fun m => m = Increment) fuel Increment
           ready echo_loops idle_ready eq_refl).
Defined.

(** X12 on the counter. *)
Lemma X12_witness :
  exists s',
    idle ready /\
    dispatch name props update true true 5 Boom ready = Ok tt s' /\
    exists delta,
      trace s' = trace ready ++ delta /\
      info_logged delta = (fun m => (name, msg_name m)) <$> processed delta /\
      debug_logged delta = (fun m => (name, m)) <$> processed delta /\
      error_logged delta =
        flat_map (raised_by props update) (update_calls delta).
Proof.
  eexists. split; [apply idle_ready |].
  split; [vm_compute; reflexivity |].
  refine (X12_each_processed_message_is_logged
            name props update true true 5 Boom ready _ idle_ready _).
  vm_compute. reflexivity.
Defined.

(** X13 on the counter: the command of [init] dispatches [Increment]. *)
Lemma X13_witness :
  exists returned s1,
    useElmish name props init update true true 5 true fresh = Ok returned s1 /\
    returned = (init props).1 /\
    initializedModel s1 = Some (init props).1 /\
    idle s1 /\
    coherent s1 /\
    exists delta,
      trace s1 = trace fresh ++ EvInit :: EvSetModel :: delta /\
      processed delta = dispatched delta /\
      expected_events true [again] `sublist_of` delta.
Proof.
  do 2 eexists. split; [vm_compute; reflexivity |].
  refine (X13_the_first_render_runs_the_commands_of_init
            name props init update true true 5 fresh _ _ _).
  vm_compute. reflexivity.
Defined.

(** X14 on the counter. *)
Lemma X14_witness :
  exists s1 s2,
    lifetime name props init update (Some subscription) true true 5
             [Dispatched Increment] fresh = Ok tt s1 /\
    dispatch name props update true true 5 Increment s1 = Ok tt s2 /\
    exists delta w calls,
      trace s2 = trace s1 ++ delta /\
      update_calls delta = (Increment, w) :: calls /\
      fields <$> model s1 = Some (fields w) /\
      processed delta = dispatched delta.
Proof.
  do 2 eexists. split; [vm_compute; reflexivity |].
  split; [vm_compute; reflexivity |].
  refine (X14_dispatch_still_works_after_teardown
            name props init update (Some subscription) true true 5
            [Dispatched Increment] Increment fresh _ _ _ _);
    vm_compute; reflexivity.
Defined.

(** X15 on the relay component: mounted, rendered, sent a [Boom], rendered
    again, unmounted. *)
Lemma X15_witness :
  (forall nextMsg s0,
     Forall (fun m => relay_rank m < relay_rank nextMsg)
            (process_calls props relay nextMsg s0)) /\
  exists n s',
    (forall fuel,
       n <= fuel ->
       lifetime name props init relay (Some subscription) true true fuel
                [Rerender; Dispatched Boom; Rerender] fresh = Ok tt s') /\
    idle s'.
Proof.
  split; [apply relay_rank_decreases |].
  exact (X15_the_lifetime_returns_when_messages_are_ranked
           name props init relay (Some subscription) true true relay_rank
           [Rerender; Dispatched Boom; Rerender] fresh relay_rank_decreases).
Defined.

End Witnesses.
